(** * neural-network-from-scratch: a shallow embedding of the learning core

    The JavaScript sources under [js/] are embedded function by function:
    [js/NetworkLayer.js], [js/MultiLayerPerceptron.js], [js/utils.js] and
    [js/KNNClassifier.js].

    Modelling conventions.
    - A JavaScript Number is an IEEE 754 binary64 value: Rocq's primitive
      [float], whose operations are the kernel's binary64 operations
      (round to nearest even, one NaN).
    - An array of numbers is a [list float].  Reading [a[i]] past the end
      yields [undefined], which every arithmetic operator turns into NaN;
      [JS.get] returns NaN there.  Writing [a[i] = v] past the end extends
      the array; [JS.set] does the same.
    - A function that can [throw] returns a [JS.result].
    - Private fields ([#layers], [#k], ...) are record fields.
    - What ECMAScript leaves to the engine is a parameter, [JS.engine]: the
      conversions between Numbers and Strings, the number of arguments
      accepted in a call, and the order in which [Array.prototype.sort]
      leaves an array when its comparator is not consistent. *)

From Stdlib Require Import ZArith Lia Bool String Ascii Floats Uint63.
From Stdlib Require Import List Permutation Sorted.
Import ListNotations.

Set Warnings "-inexact-float".
Set Implicit Arguments.

(* ================================================================= *)
(** ** JavaScript values used by the sources *)

Module JS.

(** Exceptions raised on the modelled paths. *)
Inductive error : Type :=
| DimensionMismatch   (* [new Error("Input dimension mismatch")] *)
| TypeError           (* property access on [undefined] *)
| RangeError.         (* more arguments than the engine accepts in a call *)

Inductive result (A : Type) : Type :=
| Return (a : A)
| Throw (e : error).

Arguments Return {A} a.
Arguments Throw {A} e.

Definition bind {A B : Type} (r : result A) (k : A -> result B) : result B :=
  match r with
  | Return a => k a
  | Throw e => Throw e
  end.

(** [a[i]] read in a numeric context. *)
Definition get (a : list float) (i : nat) : float := nth i a nan.

(** [a[i] = v].  Indices skipped by a write past the end are holes; a hole
    reads as [undefined], hence as NaN in arithmetic. *)
Fixpoint set (a : list float) (i : nat) (v : float) : list float :=
  match a, i with
  | [], 0 => [v]
  | [], S i' => nan :: set [] i' v
  | _ :: t, 0 => v :: t
  | x :: t, S i' => x :: set t i' v
  end.

(** [rows[i] = r] for an index inside the array of rows. *)
Fixpoint set_row (rows : list (list float)) (i : nat) (r : list float)
  : list (list float) :=
  match rows, i with
  | [], _ => []
  | _ :: t, 0 => r :: t
  | x :: t, S i' => x :: set_row t i' r
  end.

(** A length or a counter as a Number. *)
Definition of_nat (n : nat) : float :=
  PrimFloat.of_uint63 (Uint63.of_Z (Z.of_nat n)).

(** ToBoolean on a Number: [0], [-0] and NaN are falsy. *)
Definition truthy (x : float) : bool :=
  negb (PrimFloat.is_zero x || PrimFloat.is_nan x).

(** Labels are [undefined], Numbers or Strings. *)
Inductive value : Type :=
| VUndefined
| VNumber (x : float)
| VString (s : string).

(** What ECMAScript leaves to the engine that runs the sources.
    - [NumberToString] and [StringToNumber] are the conversions between
      Numbers and Strings (Number::toString and StringToNumber), which the
      sources only reach through coercions.
    - [max_arguments] is the number of arguments the engine accepts in one
      call, at least one.  A call [f(...values)] that spreads more values
      than that throws a [RangeError].
    - [sort_exchanges] is what [Array.prototype.sort] does with a comparator
      that is not consistent: the order is then implementation-defined, but
      the result still holds the elements of the array.  The engine reads the
      array through the comparator only; given the outcome of the comparator
      on every pair of positions (row [i], column [j] for the elements at
      [i] and [j]), [sort_exchanges] lists, in order, the positions [i] at
      which the engine exchanges the elements at [i] and [i + 1].  Every
      rearrangement is the result of such exchanges. *)
Record engine : Type := mkEngine {
  NumberToString : float -> string;
  StringToNumber : string -> float;
  max_arguments : positive;
  sort_exchanges : list (list comparison) -> list nat
}.

(** Whether the engine accepts a call with [n] arguments. *)
Definition accepts (E : engine) (n : nat) : bool :=
  (N.of_nat n <=? N.pos (max_arguments E))%N.

(** [f(...values)] for a function [f] of Numbers that does not throw. *)
Definition spread (E : engine) (f : list float -> float) (values : list float)
  : result float :=
  if accepts E (length values) then Return (f values) else Throw RangeError.

(** The elements at [i] and [i + 1] exchanged; nothing changes when the array
    has no element at [i + 1]. *)
Fixpoint exchange_at (A : Type) (l : list A) (i : nat) : list A :=
  match l with
  | [] => []
  | a :: rest =>
      match i with
      | S i' => a :: exchange_at rest i'
      | 0 => match rest with
             | b :: rest' => b :: a :: rest'
             | [] => l
             end
      end
  end.

Definition rearrange (A : Type) (exchanges : list nat) (l : list A) : list A :=
  fold_left (fun l i => exchange_at l i) exchanges l.

Definition ToString (E : engine) (v : value) : string :=
  match v with
  | VUndefined => "undefined"
  | VNumber x => NumberToString E x
  | VString s => s
  end.

Definition ToNumber (E : engine) (v : value) : float :=
  match v with
  | VUndefined => nan
  | VNumber x => x
  | VString s => StringToNumber E s
  end.

(** The [+] operator: concatenation as soon as one operand is a String. *)
Definition add (E : engine) (a b : value) : value :=
  match a, b with
  | VString _, _ | _, VString _ => VString (ToString E a ++ ToString E b)
  | _, _ => VNumber (ToNumber E a + ToNumber E b)
  end.

(** The host's [Math.exp] and [Math.log], whose results ECMAScript leaves
    implementation-approximated. *)
Record math : Type := mkMath {
  Math_exp : float -> float;
  Math_log : float -> float
}.

End JS.

(* ================================================================= *)
(** ** js/NetworkLayer.js *)

Module NetworkLayer.

Record t : Type := mk {
  numNeurons : nat;
  numInputs : nat;                 (* #numInputs *)
  weights : list (list float);     (* weights[i][j], neuron i, input j *)
  biases : list float;
  activations : list float;
  gradients : list float
}.

Definition with_activations (L : t) (a : list float) : t :=
  mk (numNeurons L) (numInputs L) (weights L) (biases L) a (gradients L).

(** The constructor draws [Math.random() * 2 - 1] for every weight of a
    neuron and then for its bias.  [rnd n] is the [n]-th value returned by
    [Math.random]; the count of values drawn so far is threaded through. *)
Definition draw (rnd : nat -> float) (n : nat) : float :=
  (rnd n * 2 - 1)%float.

Definition init_row (rnd : nat -> float) (n numInputs : nat) : list float :=
  map (fun j => draw rnd (n + j)) (seq 0 numInputs).

Fixpoint init_neurons (rnd : nat -> float) (n count numInputs : nat)
  : list (list float) * list float * nat :=
  match count with
  | 0 => ([], [], n)
  | S c =>
      let row := init_row rnd n numInputs in
      let bias := draw rnd (n + numInputs) in
      let '(rows, bs, n') := init_neurons rnd (n + numInputs + 1) c numInputs in
      (row :: rows, bias :: bs, n')
  end.

Definition new (rnd : nat -> float) (n : nat) (numNeurons numInputs : nat)
  : t * nat :=
  let '(rows, bs, n') := init_neurons rnd n numNeurons numInputs in
  (mk numNeurons numInputs rows bs [] [], n').

(** The shape the constructor establishes and training keeps: one row of
    [numInputs] weights and one bias per neuron.  On such layers
    [weights[i]] is defined for every neuron [i], so [activate] and
    [#backpropagate] never dereference [undefined]. *)
Definition wf (L : t) : Prop :=
  length (weights L) = numNeurons L /\
  length (biases L) = numNeurons L /\
  Forall (fun row => length row = numInputs L) (weights L).

(** [activation] of neuron [i] before the activation function: the inner
    [for j] loop accumulates from [0], then the bias is added. *)
Definition weighted_sum (row inputs : list float) (numInputs : nat) : float :=
  fold_left (fun activation j => (activation + JS.get row j * JS.get inputs j)%float)
            (seq 0 numInputs) 0%float.

Definition raw (L : t) (inputs : list float) (i : nat) : float :=
  (weighted_sum (nth i (weights L) []) inputs (numInputs L)
   + JS.get (biases L) i)%float.

Definition outputs (L : t) (inputs : list float) (activationFunction : float -> float)
  : list float :=
  map (fun i => activationFunction (raw L inputs i)) (seq 0 (numNeurons L)).

(** [activate(inputs, activationFunction)]: the new state of the layer and
    the returned array, or the exception. *)
Definition activate (L : t) (inputs : list float) (activationFunction : float -> float)
  : JS.result (t * list float) :=
  if negb (length inputs =? numInputs L) then JS.Throw JS.DimensionMismatch
  else
    let outputs := outputs L inputs activationFunction in
    JS.Return (with_activations L outputs, outputs).

End NetworkLayer.

(* ================================================================= *)
(** ** js/utils.js *)

Module Utils.

(** [sigmoid(x)]: [1 / (1 + Math.exp(-x))]. *)
Definition sigmoid (M : JS.math) (x : float) : float :=
  (1 / (1 + JS.Math_exp M (- x)))%float.

(** [reLU(x)]: [x > 0 ? x : 0]. *)
Definition reLU (x : float) : float :=
  if (0 <? x)%float then x else 0%float.

(** [tanh(x)]: [(Math.exp(2 * x) - 1) / (Math.exp(2 * x) + 1)]. *)
Definition tanh (M : JS.math) (x : float) : float :=
  ((JS.Math_exp M (2 * x) - 1) / (JS.Math_exp M (2 * x) + 1))%float.

(** [Math.pow(diff, 2)] and [d ** 2]: the square, rounded once. *)
Definition pow2 (x : float) : float := (x * x)%float.

(** [mse(predictions, targets)]. *)
Definition mse (predictions targets : list float) : float :=
  let error :=
    fold_left (fun error i =>
                 let diff := (JS.get targets i - JS.get predictions i)%float in
                 (error + pow2 diff)%float)
              (seq 0 (length predictions)) 0%float in
  (error / JS.of_nat (length predictions))%float.

(** [crossEntropy(yTrue, yPred)]: one loss per entry of [yTrue], then their
    mean. *)
Definition crossEntropy (M : JS.math) (yTrue yPred : list float) : float :=
  let epsilon := 1e-7%float in
  let loss :=
    map (fun i =>
           let y_true := JS.get yTrue i in
           let y_pred := JS.get yPred i in
           let positiveTerm := (y_true * JS.Math_log M (y_pred + epsilon))%float in
           let negativeTerm :=
             ((1 - y_true) * JS.Math_log M (1 - y_pred + epsilon))%float in
           (- (positiveTerm + negativeTerm))%float)
        (seq 0 (length yTrue)) in
  (fold_left (fun sum val => (sum + val)%float) loss 0%float
   / JS.of_nat (length loss))%float.

(** [euclideanDistance(a, b)]: the reduction runs over the keys of [a]. *)
Definition euclideanDistance (a b : list float) : float :=
  let squared_dist :=
    fold_left (fun carry key => (carry + pow2 (JS.get a key - JS.get b key))%float)
              (seq 0 (length a)) 0%float in
  PrimFloat.sqrt squared_dist.

(** [inverseLerp(from, to, value)]. *)
Definition inverseLerp (from to value : float) : float :=
  ((value - from) / (to - from))%float.

(** [Math.min] and [Math.max] on the arguments of a call that the engine
    accepted (ECMAScript 21.3.2): NaN as soon as one value is NaN; [-0] is
    below [+0]; the result over no value is [+Infinity], resp.
    [-Infinity]. *)
Definition is_neg_zero (x : float) : bool := PrimFloat.is_zero x && PrimFloat.get_sign x.
Definition is_pos_zero (x : float) : bool := PrimFloat.is_zero x && negb (PrimFloat.get_sign x).

Definition Math_min (values : list float) : float :=
  if existsb PrimFloat.is_nan values then nan
  else fold_left (fun lowest number =>
                    if is_neg_zero number && is_pos_zero lowest then number
                    else if (number <? lowest)%float then number else lowest)
                 values infinity.

Definition Math_max (values : list float) : float :=
  if existsb PrimFloat.is_nan values then nan
  else fold_left (fun highest number =>
                    if is_pos_zero number && is_neg_zero highest then number
                    else if (highest <? number)%float then number else highest)
                 values neg_infinity.

(** [points.map(v => v[i])]. *)
Definition column (points : list (list float)) (i : nat) : list float :=
  map (fun v => JS.get v i) points.

(** The loop of [minMaxPoints] over the coordinates [indices]: each turn
    pushes [[Math.min(...points.map(v => v[i])),
    Math.max(...points.map(v => v[i]))]], two calls that spread one argument
    per point.  The inner loop that tracks [min] and [max] by hand has no
    effect. *)
Fixpoint minMax_loop (E : JS.engine) (points : list (list float)) (indices : list nat)
  : JS.result (list (float * float)) :=
  match indices with
  | [] => JS.Return []
  | i :: rest =>
      JS.bind (JS.spread E Math_min (column points i)) (fun mn =>
      JS.bind (JS.spread E Math_max (column points i)) (fun mx =>
      JS.bind (minMax_loop E points rest) (fun minMax =>
      JS.Return ((mn, mx) :: minMax))))
  end.

(** [minMaxPoints(points)]: one [min, max] pair per coordinate of the first
    point.  [points[0].length] throws on an empty array. *)
Definition minMaxPoints (E : JS.engine) (points : list (list float))
  : JS.result (list (float * float)) :=
  match points with
  | [] => JS.Throw JS.TypeError
  | first :: _ => minMax_loop E points (seq 0 (length first))
  end.

(** The inner loop of [normalizePoints] on one point: [_minMax[j][0]] throws
    when [_minMax] has no entry [j]. *)
Fixpoint normalize_from (_minMax : list (float * float)) (p : list float) (j : nat)
  : JS.result (list float) :=
  match p with
  | [] => JS.Return []
  | value :: rest =>
      match nth_error _minMax j with
      | None => JS.Throw JS.TypeError
      | Some (mn, mx) =>
          JS.bind (normalize_from _minMax rest (S j))
                  (fun r => JS.Return (inverseLerp mn mx value :: r))
      end
  end.

Fixpoint normalize_all (_minMax : list (float * float)) (data : list (list float))
  : JS.result (list (list float)) :=
  match data with
  | [] => JS.Return []
  | p :: rest =>
      JS.bind (normalize_from _minMax p 0)
              (fun q => JS.bind (normalize_all _minMax rest)
                                (fun r => JS.Return (q :: r)))
  end.

(** [normalizePoints(data, minMax)]: [minMax || minMaxPoints(data)]. *)
Definition normalizePoints (E : JS.engine) (data : list (list float))
           (minMax : option (list (float * float)))
  : JS.result (list (list float)) :=
  JS.bind (match minMax with
           | Some m => JS.Return m
           | None => minMaxPoints E data
           end)
          (fun _minMax => normalize_all _minMax data).

(** An entry of the array built by [nearestPoints]. *)
Record neighbor : Type := mkNeighbor {
  index : nat;
  point : list float;
  distance : float
}.

(** [points.map((p, index) => ...)], from index [i] on. *)
Fixpoint measure (metric : list float -> list float -> float) (pt : list float)
         (points : list (list float)) (i : nat) : list neighbor :=
  match points with
  | [] => []
  | p :: rest => mkNeighbor i p (metric pt p) :: measure metric pt rest (S i)
  end.

(** The comparator [(a, b) => a.distance - b.distance] as the sort reads it
    (SortCompare, ECMAScript 22.1.3.27.1): its result [v] orders [a] before
    [b] when [v < 0] and [b] before [a] when [v > 0]; a zero orders neither
    before the other, and a NaN counts as [+0]. *)
Definition before (a b : neighbor) : bool :=
  (distance a - distance b <? 0)%float.

Definition SortCompare (a b : neighbor) : comparison :=
  if before a b then Lt
  else if (0 <? distance a - distance b)%float then Gt
  else Eq.

(** A consistent comparator on the entries (ECMAScript 22.1.3.27): every
    entry equals itself, equality is symmetric, and equality, "before" and
    "after" are transitive. *)
Definition follows (ab bc ac : comparison) : bool :=
  match ab, bc, ac with
  | Eq, Eq, Eq | Lt, Lt, Lt | Gt, Gt, Gt => true
  | Eq, Eq, _ | Lt, Lt, _ | Gt, Gt, _ => false
  | _, _, _ => true
  end.

Definition consistent (entries : list neighbor) : bool :=
  forallb (fun a =>
    match SortCompare a a with Eq => true | _ => false end
    && forallb (fun b =>
         match SortCompare a b, SortCompare b a with
         | Eq, Eq => true
         | Eq, _ => false
         | _, _ => true
         end
         && forallb (fun c =>
              follows (SortCompare a b) (SortCompare b c) (SortCompare a c))
              entries)
         entries)
    entries.

(** The one stable order of the entries under a consistent comparator,
    written as an insertion sort: an entry goes before the first entry that
    it is before. *)
Fixpoint insert (x : neighbor) (sorted : list neighbor) : list neighbor :=
  match sorted with
  | [] => [x]
  | y :: rest => if before x y then x :: y :: rest else y :: insert x rest
  end.

Definition stable (entries : list neighbor) : list neighbor :=
  fold_left (fun sorted x => insert x sorted) entries [].

(** The outcome of the comparator on every pair of positions. *)
Definition comparisons (entries : list neighbor) : list (list comparison) :=
  map (fun a => map (SortCompare a) entries) entries.

(** [.sort((a, b) => a.distance - b.distance)] (ECMAScript 2019): the sort
    is stable, which fixes the result when the comparator is consistent on
    the entries; otherwise the order is the engine's. *)
Definition sort (E : JS.engine) (entries : list neighbor) : list neighbor :=
  if consistent entries then stable entries
  else JS.rearrange (JS.sort_exchanges E (comparisons entries)) entries.

(** [nearestPoints(point, points, k = 1, distanceMetric)]. *)
Definition nearestPoints (E : JS.engine) (pt : list float) (points : list (list float))
           (k : option nat)
           (distanceMetric : option (list float -> list float -> float))
  : list neighbor :=
  let k := match k with Some k => k | None => 1 end in
  let metric := match distanceMetric with Some m => m | None => euclideanDistance end in
  firstn k (sort E (measure metric pt points 0)).

End Utils.

(* ================================================================= *)
(** ** js/MultiLayerPerceptron.js *)

Module MultiLayerPerceptron.

Import NetworkLayer.

Record options : Type := mkOptions {
  opt_activationFunction : option (float -> float);
  opt_errorFunction : option (list float -> list float -> float);
  opt_learningRate : option float
}.

Record t : Type := mk {
  activationFunction : float -> float;                 (* #activationFunction *)
  errorFunction : list float -> list float -> float;   (* #errorFunction *)
  learningRate : float;                                (* #learningRate *)
  layers : list NetworkLayer.t                         (* #layers *)
}.

Definition with_layers (net : t) (ls : list NetworkLayer.t) : t :=
  mk (activationFunction net) (errorFunction net) (learningRate net) ls.

(** The constructor's loop: one [new NetworkLayer(...layerSizes[i])] per
    entry of [layerSizes], each a pair (neurons, inputs). *)
Fixpoint new_layers (rnd : nat -> float) (n : nat) (layerSizes : list (nat * nat))
  : list NetworkLayer.t :=
  match layerSizes with
  | [] => []
  | (neurons, inputs) :: rest =>
      let '(L, n') := NetworkLayer.new rnd n neurons inputs in
      L :: new_layers rnd n' rest
  end.

(** [options.x || default]: a missing option and a falsy one both give the
    default; a function is never falsy. *)
Definition new (rnd : nat -> float) (layerSizes : list (nat * nat)) (o : options) : t :=
  mk (match opt_activationFunction o with Some f => f | None => Utils.reLU end)
     (match opt_errorFunction o with Some f => f | None => Utils.mse end)
     (match opt_learningRate o with
      | Some r => if JS.truthy r then r else 0.01%float
      | None => 0.01%float
      end)
     (new_layers rnd 0 layerSizes).

(** [#predict] on the array of layers: each layer is activated with the
    previous layer's outputs.  A layer that throws leaves the layers before
    it with their new activations. *)
Fixpoint forward (f : float -> float) (ls : list NetworkLayer.t) (outputs : list float)
  : list NetworkLayer.t * JS.result (list float) :=
  match ls with
  | [] => ([], JS.Return outputs)
  | L :: rest =>
      match NetworkLayer.activate L outputs f with
      | JS.Throw e => (L :: rest, JS.Throw e)
      | JS.Return (L', outputs') =>
          let '(rest', r) := forward f rest outputs' in
          (L' :: rest', r)
      end
  end.

Definition predict (net : t) (inputs : list float) : t * JS.result (list float) :=
  let '(ls, r) := forward (activationFunction net) (layers net) inputs in
  (with_layers net ls, r).

(** [#computeError]. *)
Definition computeError (net : t) (predictions targets : list float) : float :=
  errorFunction net predictions targets.

(** *** [#backpropagate] *)

(** [activation * (1 - activation)]. *)
Definition derivative (activation : float) : float :=
  (activation * (1 - activation))%float.

(** The gradients pushed by the output-layer branch. *)
Definition output_gradients (currentLayer : NetworkLayer.t)
           (targets predictions : list float) : list float :=
  map (fun j =>
         let activation := JS.get (activations currentLayer) j in
         ((JS.get targets j - JS.get predictions j) * derivative activation)%float)
      (seq 0 (numNeurons currentLayer)).

(** The inner [for k] loop of the hidden-layer branch. *)
Definition backward_sum (nextLayer : NetworkLayer.t) (j : nat) : float :=
  fold_left (fun gradient k =>
               (gradient + JS.get (nth k (weights nextLayer) []) j
                           * JS.get (gradients nextLayer) k)%float)
            (seq 0 (numNeurons nextLayer)) 0%float.

(** The gradients pushed by the hidden-layer branch. *)
Definition hidden_gradients (currentLayer nextLayer : NetworkLayer.t) : list float :=
  map (fun j =>
         let activation := JS.get (activations currentLayer) j in
         (backward_sum nextLayer j * derivative activation)%float)
      (seq 0 (numNeurons currentLayer)).

(** The [for k] loop of the update on one row of weights. *)
Definition update_row (learningRate gradient : float) (prevLayer : NetworkLayer.t)
           (row : list float) : list float :=
  fold_left (fun row k =>
               let weightUpdate :=
                 (learningRate * gradient * JS.get (activations prevLayer) k)%float in
               JS.set row k (JS.get row k + weightUpdate)%float)
            (seq 0 (numNeurons prevLayer)) row.

(** One iteration of the [for j] loop of the update. *)
Definition update_neuron (learningRate : float) (gradients : list float)
           (prevLayer : NetworkLayer.t) (currentLayer : NetworkLayer.t) (j : nat)
  : NetworkLayer.t :=
  let gradient := JS.get gradients j in
  let row := update_row learningRate gradient prevLayer
                        (nth j (weights currentLayer) []) in
  let biasUpdate := (learningRate * gradient)%float in
  NetworkLayer.mk (numNeurons currentLayer) (numInputs currentLayer)
     (JS.set_row (weights currentLayer) j row)
     (JS.set (biases currentLayer) j (JS.get (biases currentLayer) j + biasUpdate)%float)
     (activations currentLayer) (NetworkLayer.gradients currentLayer).

(** The update of a layer other than the first, and the store of its
    gradients. *)
Definition update_layer (learningRate : float) (gradients : list float)
           (prevLayer currentLayer : NetworkLayer.t) : NetworkLayer.t :=
  let L := fold_left (update_neuron learningRate gradients prevLayer)
                     (seq 0 (numNeurons currentLayer)) currentLayer in
  NetworkLayer.mk (numNeurons L) (numInputs L) (weights L) (biases L)
                  (activations L) gradients.

(** [layers[i] = L]. *)
Fixpoint set_layer (ls : list NetworkLayer.t) (i : nat) (L : NetworkLayer.t)
  : list NetworkLayer.t :=
  match ls, i with
  | [], _ => []
  | _ :: t, 0 => L :: t
  | x :: t, S i' => x :: set_layer t i' L
  end.

(** The local array [gradients] of iteration [i] of the outer loop. *)
Definition layer_gradients (ls : list NetworkLayer.t) (i : nat)
           (targets predictions : list float) : list float :=
  match nth_error ls i with
  | None => []
  | Some currentLayer =>
      if i =? length ls - 1 then output_gradients currentLayer targets predictions
      else if 0 <? i then
        match nth_error ls (i + 1) with
        | Some nextLayer => hidden_gradients currentLayer nextLayer
        | None => []
        end
      else []
  end.

(** Iteration [i] of the outer loop. *)
Definition backpropagate_layer (learningRate : float) (targets predictions : list float)
           (ls : list NetworkLayer.t) (i : nat) : list NetworkLayer.t :=
  let gradients := layer_gradients ls i targets predictions in
  if 0 <? i then
    match nth_error ls i, nth_error ls (i - 1) with
    | Some currentLayer, Some prevLayer =>
        set_layer ls i (update_layer learningRate gradients prevLayer currentLayer)
    | _, _ => ls
    end
  else ls.

(** The layer indices [length - 1, ..., 0] visited by the outer loop. *)
Definition backward_indices (ls : list NetworkLayer.t) : list nat :=
  rev (seq 0 (length ls)).

Definition backpropagate_layers (learningRate : float) (targets predictions : list float)
           (ls : list NetworkLayer.t) : list NetworkLayer.t :=
  fold_left (backpropagate_layer learningRate targets predictions)
            (backward_indices ls) ls.

Definition backpropagate (net : t) (targets predictions : list float) : t :=
  with_layers net (backpropagate_layers (learningRate net) targets predictions (layers net)).

(** *** [train] *)

Record sample : Type := mkSample {
  inputs : list float;
  targets : list float
}.

(** The inner loop over the training samples from index [i] on, with the
    running [totalError]. *)
Fixpoint run_samples (net : t) (trainingData : list sample) (totalError : float)
  : t * JS.result float :=
  match trainingData with
  | [] => (net, JS.Return totalError)
  | s :: rest =>
      match predict net (inputs s) with
      | (net1, JS.Throw e) => (net1, JS.Throw e)
      | (net1, JS.Return predictions) =>
          let error := computeError net1 predictions (targets s) in
          let net2 := backpropagate net1 (targets s) predictions in
          run_samples net2 rest (totalError + error)%float
      end
  end.

(** The callback is a closure: [S] is its captured state, and a call returns
    the truthiness of its result with the new state.  [None] is the omitted
    callback, replaced by [() => {}], whose result [undefined] is falsy. *)
Definition callback (C : Type) : Type := C -> nat -> float -> bool * C.

Definition call (C : Type) (cb : option (callback C)) (st : C)
           (iteration : nat) (averageError : float) : bool * C :=
  match cb with
  | Some f => f st iteration averageError
  | None => (false, st)
  end.

(** What a run of [train] leaves behind: the network, the callback's state,
    the calls made to the callback in order, and how the run ended. *)
Record run (C : Type) : Type := mkRun {
  network : t;
  cb_state : C;
  cb_calls : list (nat * float);
  completion : JS.result unit
}.

(** The epoch loop: [remaining] epochs are still to run and the next one is
    numbered [iteration]. *)
Fixpoint train_from (C : Type) (cb : option (callback C)) (trainingData : list sample)
         (remaining iteration : nat) (net : t) (st : C) (calls : list (nat * float))
  : run C :=
  match remaining with
  | 0 => mkRun net st calls (JS.Return tt)
  | S remaining' =>
      match run_samples net trainingData 0%float with
      | (net', JS.Throw e) => mkRun net' st calls (JS.Throw e)
      | (net', JS.Return totalError) =>
          let averageError := (totalError / JS.of_nat (length trainingData))%float in
          let '(shouldStop, st') := call cb st iteration averageError in
          let calls' := calls ++ [(iteration, averageError)] in
          if shouldStop then mkRun net' st' calls' (JS.Return tt)
          else train_from cb trainingData remaining' (S iteration) net' st' calls'
      end
  end.

Definition train (C : Type) (net : t) (trainingData : list sample) (epochs : nat)
           (cb : option (callback C)) (st : C) : run C :=
  train_from cb trainingData epochs 1 net st [].

End MultiLayerPerceptron.

(* ================================================================= *)
(** ** Plain objects used as maps *)

Module JSObject.

(** The tally of [#getVotes] is a plain object.  Its own properties are kept
    in creation order.  A value is a vote count, or a String that is not a
    numeric literal ([NotANumber]), which ToNumber turns into NaN. *)
Inductive tally : Type :=
| Count (n : nat)
| NotANumber.

Definition t : Type := list (string * tally).

Fixpoint lookup (o : t) (key : string) : option tally :=
  match o with
  | [] => None
  | (k, v) :: rest => if String.eqb k key then Some v else lookup rest key
  end.

(** [o[key] = v] on an ordinary data property: an own property keeps its
    place, a new one is created last. *)
Fixpoint assign (o : t) (key : string) (v : tally) : t :=
  match o with
  | [] => [(key, v)]
  | (k, w) :: rest =>
      if String.eqb k key then (k, v) :: rest else (k, w) :: assign rest key v
  end.

(** The properties of [Object.prototype], which every plain object inherits:
    functions, and the accessor [__proto__]. *)
Definition prototype_keys : list string :=
  ["constructor"; "hasOwnProperty"; "isPrototypeOf"; "propertyIsEnumerable";
   "toLocaleString"; "toString"; "valueOf"; "__proto__";
   "__defineGetter__"; "__defineSetter__"; "__lookupGetter__"; "__lookupSetter__"]%string.

Definition inherited (key : string) : bool :=
  existsb (String.eqb key) prototype_keys.

(** An array index is the canonical decimal form of an integer in
    [0, 2^32 - 2]. *)
Definition digit (c : ascii) : option N :=
  let n := N_of_ascii c in
  if ((48 <=? n) && (n <=? 57))%N then Some (n - 48)%N else None.

Fixpoint digits_value (s : string) (acc : N) : option N :=
  match s with
  | EmptyString => Some acc
  | String c rest =>
      match digit c with
      | Some d => digits_value rest (acc * 10 + d)%N
      | None => None
      end
  end.

Definition array_index (s : string) : option N :=
  match s with
  | EmptyString => None
  | String c rest =>
      if Ascii.eqb c "0" then
        match rest with EmptyString => Some 0%N | _ => None end
      else
        match digits_value s 0 with
        | Some n => if (n <? 4294967295)%N then Some n else None
        | None => None
        end
  end.

Definition is_array_index (s : string) : bool :=
  match array_index s with Some _ => true | None => false end.

Definition index_value (s : string) : N :=
  match array_index s with Some n => n | None => 0%N end.

(** Ascending order of the array-index keys. *)
Fixpoint insert_index (key : string) (sorted : list string) : list string :=
  match sorted with
  | [] => [key]
  | k :: rest =>
      if (index_value key <? index_value k)%N then key :: k :: rest
      else k :: insert_index key rest
  end.

Definition sort_indices (keys : list string) : list string :=
  fold_left (fun sorted key => insert_index key sorted) keys [].

(** The keys visited by [for (const key in o)] (OrdinaryOwnPropertyKeys):
    the array indices in ascending numeric order, then the other keys in
    creation order.  The properties inherited from [Object.prototype] are
    not enumerable. *)
Definition keys (o : t) : list string := map fst o.

Definition for_in (o : t) : list string :=
  sort_indices (filter is_array_index (keys o))
  ++ filter (fun k => negb (is_array_index k)) (keys o).

End JSObject.

(* ================================================================= *)
(** ** js/KNNClassifier.js *)

Module KNNClassifier.

Import Utils.

Record t : Type := mk {
  distanceMetric : option (list float -> list float -> float);  (* #distanceMetric *)
  normalization : bool;                                         (* #normalization *)
  regression : bool;                                            (* #regression *)
  trainingFeatures : list (list float);                         (* #trainingFeatures *)
  trainingLabels : list JS.value;                               (* #trainingLabels *)
  k : option nat                                                (* #k *)
}.

(** [new KNNClassifier(k)]. *)
Definition new (k : option nat) : t := mk None false false [] [] k.

Definition withDistanceMetric (c : t) (m : option (list float -> list float -> float)) : t :=
  mk m (normalization c) (regression c) (trainingFeatures c) (trainingLabels c) (k c).

Definition withNormalization (c : t) (n : bool) : t :=
  mk (distanceMetric c) n (regression c) (trainingFeatures c) (trainingLabels c) (k c).

Definition withRegression (c : t) (r : bool) : t :=
  mk (distanceMetric c) (normalization c) r (trainingFeatures c) (trainingLabels c) (k c).

(** A neighbor with its label. *)
Record labelled : Type := mkLabelled {
  entry : neighbor;
  label : JS.value
}.

(** [#findNearestNeighbors(point)]: [trainingLabels[index]] is [undefined]
    past the end. *)
Definition findNearestNeighbors (E : JS.engine) (c : t) (pt : list float)
  : list labelled :=
  map (fun e => mkLabelled e (nth (index e) (trainingLabels c) JS.VUndefined))
      (nearestPoints E pt (trainingFeatures c) (k c) (distanceMetric c)).

(** One step of the reduction of [#getVotes]:
    [Object.assign(carry, {[label]: (carry[label] || 0) + 1})].
    - [carry[label]] is the own count, else the inherited property of
      [Object.prototype] (a function or an object, truthy), else
      [undefined].
    - Adding [1] to a count gives the next count; adding [1] to a function,
      an object or a String gives a String that is not a numeric literal.
    - The assignment to [__proto__] runs the inherited setter, which ignores
      a String. *)
Definition vote (E : JS.engine) (carry : JSObject.t) (n : labelled) : JSObject.t :=
  let key := JS.ToString E (label n) in
  let value :=
    match JSObject.lookup carry key with
    | Some (JSObject.Count votes) => JSObject.Count (votes + 1)
    | Some JSObject.NotANumber => JSObject.NotANumber
    | None => if JSObject.inherited key then JSObject.NotANumber else JSObject.Count 1
    end in
  if String.eqb key "__proto__" then carry else JSObject.assign carry key value.

Definition getVotes (E : JS.engine) (neighbors : list labelled) : JSObject.t :=
  fold_left (vote E) neighbors [].

(** [#getAvgValues(neighbors)]. *)
Definition getAvgValues (E : JS.engine) (neighbors : list labelled) : float :=
  let sum := fold_left (fun sum n => JS.add E sum (label n)) neighbors (JS.VNumber 0) in
  (JS.ToNumber E sum / JS.of_nat (length neighbors))%float.

(** [train(features, labels)]: the classifier after the call, or the
    exception of [normalizePoints]. *)
Fixpoint store (features : list (list float)) (labels : list JS.value) (i : nat)
         (fs : list (list float)) (ls : list JS.value)
  : list (list float) * list JS.value :=
  match features with
  | [] => (fs, ls)
  | f :: rest => store rest labels (S i) (fs ++ [f]) (ls ++ [nth i labels JS.VUndefined])
  end.

Definition train (E : JS.engine) (c : t) (features : list (list float))
           (labels : list JS.value)
  : JS.result t :=
  JS.bind (if normalization c then normalizePoints E features None
           else JS.Return features)
          (fun _features =>
             let '(fs, ls) := store _features labels 0 (trainingFeatures c) (trainingLabels c) in
             JS.Return (mk (distanceMetric c) (normalization c) (regression c) fs ls (k c))).

(** The result of [predict]: the average on a regression task, else the
    object [{ predictedLabel, maxVotes }]; [predictedLabel] is [undefined]
    when no key was selected. *)
Inductive prediction : Type :=
| Average (value : float)
| Vote (predictedLabel : option string) (maxVotes : nat).

(** The [for (const label in votes)] loop; [votes[label] > maxVotes] is false
    on a value that is not a number. *)
Definition select (votes : JSObject.t) : option string * nat :=
  fold_left (fun '(predictedLabel, maxVotes) label =>
               match JSObject.lookup votes label with
               | Some (JSObject.Count n) =>
                   if maxVotes <? n then (Some label, n) else (predictedLabel, maxVotes)
               | _ => (predictedLabel, maxVotes)
               end)
            (JSObject.for_in votes) (None, 0).

(** The point searched for by [predict]. *)
Definition query (E : JS.engine) (c : t) (feature : list float)
  : JS.result (list float) :=
  if normalization c then
    JS.bind (normalizePoints E (feature :: trainingFeatures c) None)
            (fun normalized => JS.Return (nth 0 normalized []))
  else JS.Return feature.

Definition predict (E : JS.engine) (c : t) (feature : list float) : JS.result prediction :=
  JS.bind (query E c feature)
          (fun pt =>
             let neighbors := findNearestNeighbors E c pt in
             if regression c then JS.Return (Average (getAvgValues E neighbors))
             else
               let votes := getVotes E neighbors in
               let '(predictedLabel, maxVotes) := select votes in
               JS.Return (Vote predictedLabel maxVotes)).

End KNNClassifier.

(* ================================================================= *)
(** * The vocabulary of the statements *)

(* ================================================================= *)
(** ** The backward sweep by recursion on the layers *)

Module BackwardSweep.

Import NetworkLayer MultiLayerPerceptron.

Section Layers.

Variables (learningRate : float) (targets predictions : list float).

(** The sweep written by recursion on the layers: the layers after [prev]
    are swept first, then the layer next to [prev] takes its gradients from
    the swept layer after it (or from the targets when there is none) and
    is updated with the activations of [prev]. *)
Definition gradients_from (cur : NetworkLayer.t) (swept : list NetworkLayer.t) : list float :=
  match swept with
  | [] => output_gradients cur targets predictions
  | next :: _ => hidden_gradients cur next
  end.

Fixpoint sweep (prev : NetworkLayer.t) (ls : list NetworkLayer.t) : list NetworkLayer.t :=
  match ls with
  | [] => []
  | cur :: rest =>
      let swept := sweep cur rest in
      update_layer learningRate (gradients_from cur swept) prev cur :: swept
  end.

Definition sweep_all (ls : list NetworkLayer.t) : list NetworkLayer.t :=
  match ls with
  | [] => []
  | first :: rest => first :: sweep first rest
  end.

End Layers.

End BackwardSweep.

(* ================================================================= *)
(** ** Epochs of training *)

Module Epochs.

Import NetworkLayer MultiLayerPerceptron.

(** The sizes of a layer. *)
Definition shape (L : NetworkLayer.t) : nat * nat := (numNeurons L, numInputs L).

(** A chain of layers that accepts inputs of length [m]: the first layer
    has [m] inputs and every other layer has one input per neuron of the
    layer before it. *)
Fixpoint chained (m : nat) (ls : list NetworkLayer.t) : Prop :=
  match ls with
  | [] => True
  | L :: rest => numInputs L = m /\ chained (numNeurons L) rest
  end.

(** One sample: predict, then compute the loss, then backpropagate. *)
Definition sample_pass (net : MultiLayerPerceptron.t) (s : sample)
  : MultiLayerPerceptron.t * JS.result float :=
  match predict net (inputs s) with
  | (net1, JS.Throw e) => (net1, JS.Throw e)
  | (net1, JS.Return predictions) =>
      (backpropagate net1 (targets s) predictions,
       JS.Return (computeError net1 predictions (targets s)))
  end.

(** All samples in their order, accumulating the loss from [0]; the result
    is the mean loss across the samples. *)
Definition accumulate (acc : MultiLayerPerceptron.t * JS.result float) (s : sample)
  : MultiLayerPerceptron.t * JS.result float :=
  match acc with
  | (net, JS.Throw e) => (net, JS.Throw e)
  | (net, JS.Return total) =>
      let '(net', r) := sample_pass net s in
      (net', JS.bind r (fun loss => JS.Return (total + loss)%float))
  end.

(** One epoch: every sample once, then the mean of the losses. *)
Definition epoch_pass (net : MultiLayerPerceptron.t) (trainingSamples : list sample)
  : MultiLayerPerceptron.t * JS.result float :=
  let '(net', r) := fold_left accumulate trainingSamples (net, JS.Return 0%float) in
  (net', JS.bind r (fun total =>
                      JS.Return (total / JS.of_nat (length trainingSamples))%float)).

(** [n] epochs in a row: the network they leave and their mean losses. *)
Fixpoint epochs_pass (net : MultiLayerPerceptron.t) (trainingSamples : list sample)
         (n : nat) : MultiLayerPerceptron.t * JS.result (list float) :=
  match n with
  | 0 => (net, JS.Return [])
  | S n' =>
      match epoch_pass net trainingSamples with
      | (net', JS.Throw e) => (net', JS.Throw e)
      | (net', JS.Return mean) =>
          let '(net'', r) := epochs_pass net' trainingSamples n' in
          (net'', JS.bind r (fun means => JS.Return (mean :: means)))
      end
  end.

(** The answers of a callback [f] to a list of calls made in a row, from a
    given state of its closure, and the state it is left in. *)
Fixpoint answers (C : Type) (f : callback C) (st : C) (calls : list (nat * float))
  : list bool * C :=
  match calls with
  | [] => ([], st)
  | (iteration, averageError) :: rest =>
      let '(b, st') := f st iteration averageError in
      let '(bs, st'') := answers f st' rest in
      (b :: bs, st'')
  end.

End Epochs.

(* ================================================================= *)
(** ** Normalization, coordinate by coordinate *)

Module Rescale.

Import Utils.

(** The normalized points written coordinate by coordinate: coordinate [j]
    of every point is rescaled by the least and the greatest value of
    coordinate [j] over [data]. *)
Definition rescale (data : list (list float)) (j : nat) (value : float) : float :=
  inverseLerp (Math_min (column data j)) (Math_max (column data j)) value.

Definition normalized_point (data : list (list float)) (p : list float) : list float :=
  map (fun j => rescale data j (JS.get p j)) (seq 0 (length p)).

Definition normalized (data : list (list float)) : list (list float) :=
  map (normalized_point data) data.

End Rescale.

(* ================================================================= *)
(** ** The tally of the votes *)

Module Tally.

Import Utils JSObject KNNClassifier.

(** [ascending l]: the index values never decrease along [l]. *)
Definition ascending (l : list string) : Prop :=
  forall l1 a l2 b, l = l1 ++ a :: l2 -> In b l2 -> (index_value a <= index_value b)%N.

(** The number of neighbors whose label has the key [key]. *)
Definition votes_for (ks : list string) (key : string) : nat :=
  count_occ string_dec ks key.

(** [a] is met before any occurrence of [b] along [ks]. *)
Definition encountered_first (ks : list string) (a b : string) : Prop :=
  exists p1 p2, ks = p1 ++ a :: p2 /\ ~ In b p1.

(** The tally after one more neighbor whose label has the key [key]. *)
Definition tally_step (carry : JSObject.t) (key : string) : JSObject.t :=
  assign carry key
         match lookup carry key with
         | Some (Count votes) => Count (votes + 1)
         | Some NotANumber => NotANumber
         | None => Count 1
         end.

(** The creation order of the tally's keys: every key at its first
    occurrence. *)
Definition first_seen (acc : list string) (key : string) : list string :=
  if existsb (String.eqb key) acc then acc else acc ++ [key].

(** The count the tally holds for a label, [0] when it holds none. *)
Definition count_of (votes : JSObject.t) (label : string) : nat :=
  match lookup votes label with
  | Some (Count n) => n
  | _ => 0
  end.

(** One step of the loop that selects the label with the most votes. *)
Definition select_step (votes : JSObject.t) (acc : option string * nat) (label : string)
  : option string * nat :=
  let '(predictedLabel, maxVotes) := acc in
  match lookup votes label with
  | Some (Count n) => if maxVotes <? n then (Some label, n) else (predictedLabel, maxVotes)
  | _ => (predictedLabel, maxVotes)
  end.

(** How a tie between [w] and [x] is broken in favour of [w]: by the
    enumeration order of the tally, that is, array indices first, in
    ascending order, then the other keys by first encounter. *)
Definition tie_break (ks : list string) (w x : string) : Prop :=
  match array_index w, array_index x with
  | Some i, Some j => (i <= j)%N
  | Some _, None => True
  | None, Some _ => False
  | None, None => encountered_first ks w x
  end.

End Tally.

(* ================================================================= *)
(** ** The order of the numbers *)

Module Rank.

Import Utils.

(** Every number but NaN has a [rank], an integer that orders the numbers as
    [<] and [==] do: the value scaled by [2 ^ 1074] for a finite number (the
    two zeros share rank 0), and a bound of the finite ranks for an
    infinity. *)
Definition rank (x : spec_float) : Z :=
  match x with
  | S754_zero _ => 0%Z
  | S754_nan => 0%Z
  | S754_infinity s => cond_Zopp s (2 ^ 2100)%Z
  | S754_finite s m e => cond_Zopp s (Zpos m * 2 ^ (e + 1074))%Z
  end.

Definition inf_rank : Z := (2 ^ 2100)%Z.

Definition valid (x : spec_float) : Prop := valid_binary x = true.

Definition R (x : float) : Z := rank (Prim2SF x).

(** One step of the scans of [Math.min] and [Math.max]. *)
Definition min_step (lowest number : float) : float :=
  if is_neg_zero number && is_pos_zero lowest then number
  else if (number <? lowest)%float then number else lowest.

Definition max_step (highest number : float) : float :=
  if is_pos_zero number && is_neg_zero highest then number
  else if (highest <? number)%float then number else highest.

(** The rank of the distance of an entry. *)
Definition key (e : neighbor) : Z := R (distance e).

(** An entry whose distance is not NaN. *)
Definition comparable (e : neighbor) : Prop := PrimFloat.is_nan (distance e) = false.

(** Ascending order of the ranks of the distances. *)
Definition ranked (l : list neighbor) : Prop :=
  StronglySorted (fun a b => (key a <= key b)%Z) l.

(** Ascending order of the distances. *)
Definition ascending (l : list neighbor) : Prop :=
  StronglySorted (fun a b => (distance a <=? distance b)%float = true) l.

End Rank.

(* ================================================================= *)
(** ** Sample networks and data *)

Module Samples.

Import NetworkLayer MultiLayerPerceptron.

(** A layer of two neurons with two inputs each. *)
Definition sample_layer : NetworkLayer.t :=
  NetworkLayer.mk 2 2 [[0.5; -1]; [1; 1]]%float [0; 0.25]%float [] [].

(** A network of two layers, two neurons then one, holding the activations
    of an earlier forward pass. *)
Definition sample_net : MultiLayerPerceptron.t :=
  MultiLayerPerceptron.mk Utils.reLU Utils.mse 0.5%float
    [NetworkLayer.mk 2 2 [[1; 0]; [0; 1]]%float [0; 0]%float [0.5; 0.25]%float [];
     NetworkLayer.mk 1 2 [[1; -1]]%float [0.5]%float [0.75]%float []].

(** Two samples that fit [sample_net]. *)
Definition sample_data : list sample :=
  [mkSample [1; 0]%float [1]%float; mkSample [0; 1]%float [0]%float].

(** An engine that accepts 100000 arguments in a call and leaves an array as
    it is when the comparator of a sort is not consistent.  Its conversions
    between Numbers and Strings are not used. *)
Definition sample_engine : JS.engine :=
  JS.mkEngine (fun _ => EmptyString) (fun _ => nan) 100000%positive (fun _ => []).

(** The same engine with a limit of two arguments, to reach the limit on
    three points. *)
Definition strict_engine : JS.engine :=
  JS.mkEngine (fun _ => EmptyString) (fun _ => nan) 2%positive (fun _ => []).

End Samples.

(* ================================================================= *)
(** ** The signs of numbers *)

Module Signs.

(** A positive number: finite and above zero, or [+Infinity]. *)
Definition positive_number (x : spec_float) : Prop :=
  (exists m e, x = S754_finite false m e) \/ x = S754_infinity false.

(** NaN, a zero or a positive number: what is not below zero. *)
Definition not_negative (x : spec_float) : Prop :=
  x = S754_nan \/ (exists s, x = S754_zero s) \/ positive_number x.

End Signs.

(* ================================================================= *)
(** ** The order of the neighbor search *)

Module Nearest.

Import Utils Rank.

(** [a] comes before [b] in the order of the search: it is at a smaller
    distance, or at the same distance with a smaller index. *)
Definition nearer (a b : neighbor) : Prop :=
  (distance a <? distance b)%float = true \/
  ((distance a =? distance b)%float = true /\ index a < index b).

(** The same order on the ranks of the distances. *)
Definition ordered (a b : neighbor) : Prop :=
  (key a < key b)%Z \/ (key a = key b /\ index a < index b).

End Nearest.

(* ================================================================= *)
(** ** The values drawn by the constructors *)

Module RandomStream.

(** The number of values that a layer of the given sizes (neurons, inputs)
    draws from [Math.random]. *)
Definition draws (size : nat * nat) : nat := fst size * (snd size + 1).

(** The number of values drawn before layer [l] is built. *)
Definition offset (layerSizes : list (nat * nat)) (l : nat) : nat :=
  list_sum (map draws (firstn l layerSizes)).

End RandomStream.

(* ================================================================= *)
(** ** The forward pass, layer by layer *)

Module Feed.

Import NetworkLayer.

(** The outputs of the layers, first to last, when the first is fed
    [inputs] and every other layer the outputs of the layer before it. *)
Fixpoint feed (f : float -> float) (ls : list NetworkLayer.t) (inputs : list float)
  : list (list float) :=
  match ls with
  | [] => []
  | L :: rest => let out := outputs L inputs f in out :: feed f rest out
  end.

(** The layers with their activations replaced. *)
Fixpoint activated (ls : list NetworkLayer.t) (outs : list (list float))
  : list NetworkLayer.t :=
  match ls, outs with
  | L :: rest, out :: outs' => with_activations L out :: activated rest outs'
  | _, _ => ls
  end.

End Feed.

(* ================================================================= *)
(** ** What training adjusts *)

Module Parameters.

Import NetworkLayer MultiLayerPerceptron.

(** What training is meant to adjust in a layer, with its sizes and its
    stored gradients: everything but the activations. *)
Definition parameters (L : NetworkLayer.t)
  : nat * nat * list (list float) * list float * list float :=
  (numNeurons L, numInputs L, weights L, biases L, gradients L).

(** The parameters of the first layer of a network, if it has one. *)
Definition first_parameters (net : MultiLayerPerceptron.t) :=
  option_map parameters (hd_error (layers net)).

End Parameters.

(* ================================================================= *)
(** * Properties *)

(** ** Arrays *)

Module ArrayFacts.

Lemma get_in_range (a : list float) (i : nat) :
  i < length a -> nth_error a i = Some (JS.get a i).
Proof.
  intros H. unfold JS.get. now apply nth_error_nth'.
Qed.

Lemma get_past_end (a : list float) (i : nat) :
  length a <= i -> JS.get a i = nan.
Proof.
  intros H. unfold JS.get. now apply nth_overflow.
Qed.

Lemma set_length (a : list float) (i : nat) (v : float) :
  length (JS.set a i v) = Nat.max (length a) (S i).
Proof.
  revert i. induction a as [|x a IH]; intros i.
  - induction i as [|i IHi]; simpl in *; [reflexivity | now rewrite IHi].
  - destruct i; simpl; [lia | now rewrite IH].
Qed.

Lemma get_set_same (a : list float) (i : nat) (v : float) :
  JS.get (JS.set a i v) i = v.
Proof.
  unfold JS.get. revert i. induction a as [|x a IH]; intros i.
  - induction i as [|i IHi]; simpl in *; [reflexivity | exact IHi].
  - destruct i; simpl; [reflexivity | apply IH].
Qed.

Lemma get_set_other (a : list float) (i j : nat) (v : float) :
  i <> j -> JS.get (JS.set a i v) j = JS.get a j.
Proof.
  unfold JS.get. revert i j. induction a as [|x a IH]; intros i j Hij.
  - revert j Hij. induction i as [|i IHi]; intros j Hij; simpl.
    + destruct j as [|j]; [congruence | now destruct j].
    + destruct j as [|j]; [reflexivity |].
      simpl. rewrite IHi by congruence. now destruct j.
  - destruct i, j; simpl; try congruence; try reflexivity.
    apply IH. congruence.
Qed.

Lemma get_map_seq (g : nat -> float) (n j : nat) :
  j < n -> JS.get (map g (seq 0 n)) j = g j.
Proof.
  intros H. unfold JS.get.
  rewrite nth_indep with (d' := g 0) by now rewrite length_map, length_seq.
  now rewrite (map_nth g), seq_nth.
Qed.

Lemma set_row_length (rows : list (list float)) (i : nat) (r : list float) :
  length (JS.set_row rows i r) = length rows.
Proof.
  revert i. induction rows as [|x rows IH]; intros [|i]; simpl; auto.
Qed.

Lemma nth_set_row_same (rows : list (list float)) (i : nat) (r : list float) :
  i < length rows -> nth i (JS.set_row rows i r) [] = r.
Proof.
  revert i. induction rows as [|x rows IH]; intros [|i] H; simpl in *;
    try lia; [reflexivity | apply IH; lia].
Qed.

Lemma nth_set_row_other (rows : list (list float)) (i j : nat) (r : list float) :
  i <> j -> nth j (JS.set_row rows i r) [] = nth j rows [].
Proof.
  revert i j. induction rows as [|x rows IH]; intros [|i] [|j] H; simpl;
    try congruence; try reflexivity.
  apply IH. congruence.
Qed.

Lemma set_in_range_length (a : list float) (i : nat) (v : float) :
  i < length a -> length (JS.set a i v) = length a.
Proof. intros H. rewrite set_length. lia. Qed.

Lemma Forall_set_row (P : list float -> Prop) (rows : list (list float))
      (i : nat) (r : list float) :
  Forall P rows -> P r -> Forall P (JS.set_row rows i r).
Proof.
  intros Hrows Hr. revert i.
  induction Hrows as [|x rows Hx Hrows IH]; intros [|i]; simpl;
    constructor; auto.
Qed.

End ArrayFacts.

(* ================================================================= *)
(** ** NetworkLayer *)

Module LayerFacts.

Import NetworkLayer Samples.

Lemma init_row_length rnd n m : length (init_row rnd n m) = m.
Proof. unfold init_row. now rewrite length_map, length_seq. Qed.

Lemma init_neurons_shape rnd count : forall n m rows bs n',
  init_neurons rnd n count m = (rows, bs, n') ->
  length rows = count /\ length bs = count /\
  Forall (fun row => length row = m) rows.
Proof.
  induction count as [|c IH]; intros n m rows bs n' H; simpl in H.
  - injection H as <- <- _. repeat split; constructor.
  - destruct (init_neurons rnd (n + m + 1) c m) as [[rows0 bs0] n0] eqn:E.
    injection H as <- <- _.
    destruct (IH _ _ _ _ _ E) as (Hr & Hb & Hf).
    simpl. repeat split; try congruence.
    constructor; [apply init_row_length | exact Hf].
Qed.

(** The constructor builds a layer of the declared shape. *)
Lemma new_wf rnd n neurons inputs :
  wf (fst (new rnd n neurons inputs)) /\
  numNeurons (fst (new rnd n neurons inputs)) = neurons /\
  numInputs (fst (new rnd n neurons inputs)) = inputs.
Proof.
  unfold new.
  destruct (init_neurons rnd n neurons inputs) as [[rows bs] n'] eqn:E.
  destruct (init_neurons_shape _ _ _ _ E) as (Hr & Hb & Hf).
  simpl. repeat split; assumption.
Qed.

Lemma new_layers_wf rnd : forall layerSizes n,
  Forall wf (MultiLayerPerceptron.new_layers rnd n layerSizes).
Proof.
  induction layerSizes as [|[neurons inputs] rest IH]; intros n; simpl;
    [constructor |].
  pose proof (new_wf rnd n neurons inputs) as (Hwf & _).
  destruct (new rnd n neurons inputs) as [L n']. simpl in Hwf.
  constructor; [exact Hwf | apply IH].
Qed.

Lemma outputs_length L inputs f : length (outputs L inputs f) = numNeurons L.
Proof. unfold outputs. now rewrite length_map, length_seq. Qed.

Lemma outputs_nth L inputs f i :
  i < numNeurons L -> JS.get (outputs L inputs f) i = f (raw L inputs i).
Proof.
  intros H. unfold JS.get, outputs.
  rewrite nth_indep with (d' := f (raw L inputs 0)) by now rewrite length_map, length_seq.
  rewrite (map_nth (fun i => f (raw L inputs i))), seq_nth by exact H.
  reflexivity.
Qed.

Lemma activate_returns L inputs f :
  length inputs = numInputs L ->
  activate L inputs f =
  JS.Return (with_activations L (outputs L inputs f), outputs L inputs f).
Proof.
  intros H. unfold activate. now rewrite H, Nat.eqb_refl.
Qed.

Lemma activate_throws L inputs f :
  length inputs <> numInputs L ->
  activate L inputs f = JS.Throw JS.DimensionMismatch.
Proof.
  intros H. unfold activate.
  now destruct (Nat.eqb_spec (length inputs) (numInputs L)).
Qed.

Lemma activate_wf L inputs f L' out :
  wf L -> activate L inputs f = JS.Return (L', out) -> wf L'.
Proof.
  unfold activate. intros H E.
  destruct (negb (length inputs =? numInputs L)); [discriminate |].
  injection E as <- _. exact H.
Qed.

(** C2.  On a layer of the constructor's shape and an input of the layer's
    input count, [activate] returns one output per neuron; output [i] is the
    activation function applied to the sum, accumulated from 0 in index
    order, of [weights[i][j] * inputs[j]], plus [biases[i]]; the returned
    array becomes the layer's activations and nothing else changes. *)
Theorem activate_computes_outputs (L : t) (inputs : list float) (f : float -> float) :
  wf L ->
  length inputs = numInputs L ->
  exists L' out,
    activate L inputs f = JS.Return (L', out) /\
    length out = numNeurons L /\
    (forall i, i < numNeurons L ->
       exists row,
         nth_error (weights L) i = Some row /\
         nth_error out i =
         Some (f (fold_left (fun acc j => (acc + JS.get row j * JS.get inputs j)%float)
                            (seq 0 (numInputs L)) 0%float
                  + JS.get (biases L) i)%float)) /\
    activations L' = out /\
    weights L' = weights L /\ biases L' = biases L /\ gradients L' = gradients L /\
    numNeurons L' = numNeurons L /\ numInputs L' = numInputs L.
Proof.
  intros (Hw & Hb & Hrows) Hlen.
  exists (with_activations L (outputs L inputs f)), (outputs L inputs f).
  split; [now apply activate_returns |].
  split; [apply outputs_length |].
  split; [| repeat split].
  intros i Hi.
  exists (nth i (weights L) []). split.
  - apply nth_error_nth'. lia.
  - rewrite ArrayFacts.get_in_range by (rewrite outputs_length; exact Hi).
    now rewrite outputs_nth.
Qed.

Lemma activate_computes_outputs_witness :
  exists L' out,
    activate sample_layer [1; 2]%float Utils.reLU = JS.Return (L', out) /\
    out = [0; 3.25]%float /\ activations L' = out.
Proof.
  destruct (@activate_computes_outputs sample_layer [1; 2]%float Utils.reLU)
    as (L' & out & E & _ & _ & Ha & _).
  - repeat split; repeat constructor.
  - reflexivity.
  - exists L', out. split; [exact E |]. split; [| exact Ha].
    vm_compute in E. now injection E as _ <-.
Defined.

End LayerFacts.

(* ================================================================= *)
(** ** MultiLayerPerceptron: the backward sweep *)

Module BackwardFacts.

Import NetworkLayer MultiLayerPerceptron BackwardSweep Samples.

Section Sweep.

Variables (learningRate : float) (targets predictions : list float).

Local Abbreviation gradients_from := (BackwardSweep.gradients_from targets predictions).
Local Abbreviation sweep := (BackwardSweep.sweep learningRate targets predictions).
Local Abbreviation sweep_all := (BackwardSweep.sweep_all learningRate targets predictions).

Lemma sweep_length prev ls : length (sweep prev ls) = length ls.
Proof.
  revert prev. induction ls as [|cur rest IH]; intros prev; simpl; [reflexivity |].
  now rewrite IH.
Qed.

Lemma nth_error_second (A : Type) (pre : list A) (x y : A) (post : list A) :
  nth_error (pre ++ x :: y :: post) (length pre) = Some x /\
  nth_error (pre ++ x :: y :: post) (S (length pre)) = Some y /\
  nth_error (pre ++ x :: y :: post) (S (length pre) + 1) = nth_error post 0.
Proof.
  induction pre as [|z pre IH]; simpl; [now repeat split | exact IH].
Qed.

Lemma set_layer_second (pre : list NetworkLayer.t) x y L post :
  set_layer (pre ++ x :: y :: post) (S (length pre)) L = pre ++ x :: L :: post.
Proof.
  induction pre as [|z pre IH]; simpl; [reflexivity | now rewrite IH].
Qed.

(** One iteration of the source's loop, at the layer after [prev], on a
    state whose later layers are already swept. *)
Lemma backpropagate_layer_at pre prev cur swept :
  backpropagate_layer learningRate targets predictions
                      (pre ++ prev :: cur :: swept) (S (length pre))
  = pre ++ prev :: update_layer learningRate (gradients_from cur swept) prev cur :: swept.
Proof.
  unfold backpropagate_layer, layer_gradients.
  destruct (nth_error_second pre prev cur swept) as (Hp & Hc & Hn).
  rewrite Hc, Hn.
  replace (0 <? S (length pre)) with true by reflexivity.
  replace (S (length pre) - 1) with (length pre) by lia.
  rewrite Hp, set_layer_second.
  assert (Hlast : (S (length pre) =? length (pre ++ prev :: cur :: swept) - 1)
                  = match swept with [] => true | _ :: _ => false end).
  { rewrite length_app. simpl length.
    destruct swept; [apply Nat.eqb_eq | apply Nat.eqb_neq]; simpl; lia. }
  rewrite Hlast. now destruct swept.
Qed.

Lemma sweep_is_loop : forall ls pre prev,
  fold_right (fun i acc => backpropagate_layer learningRate targets predictions acc i)
             (pre ++ prev :: ls) (seq (S (length pre)) (length ls))
  = pre ++ prev :: sweep prev ls.
Proof.
  induction ls as [|cur rest IH]; intros pre prev; simpl; [reflexivity |].
  replace (pre ++ prev :: cur :: rest) with ((pre ++ [prev]) ++ cur :: rest)
    by (now rewrite <- app_assoc).
  replace (S (S (length pre))) with (S (length (pre ++ [prev])))
    by (rewrite length_app; simpl; lia).
  rewrite IH, <- app_assoc. simpl.
  apply backpropagate_layer_at.
Qed.

(** The source's loop over the indices [length - 1, ..., 0] computes the
    recursive sweep. *)
Lemma backpropagate_layers_sweep ls :
  backpropagate_layers learningRate targets predictions ls = sweep_all ls.
Proof.
  unfold backpropagate_layers, backward_indices.
  change (backpropagate_layer learningRate targets predictions)
    with (fun acc i => (fun i acc => backpropagate_layer learningRate targets predictions acc i) i acc).
  rewrite <- fold_left_rev_right, rev_involutive.
  destruct ls as [|first rest]; [reflexivity |].
  change (seq 0 (length (first :: rest))) with (0 :: seq 1 (length rest)).
  cbn [fold_right].
  pose proof (sweep_is_loop rest [] first) as H. cbn [app length] in H.
  rewrite H. reflexivity.
Qed.

(** *** The update of one row of weights *)

Section Row.

Variables (gradient0 : float) (prevLayer0 : NetworkLayer.t).

Lemma update_row_fold n : forall row k,
  let r := fold_left (fun row k =>
                        JS.set row k
                          (JS.get row k
                           + learningRate * gradient0 * JS.get (activations prevLayer0) k)%float)
                     (seq 0 n) row in
  (k < n -> JS.get r k
            = (JS.get row k + learningRate * gradient0 * JS.get (activations prevLayer0) k)%float)
  /\ (n <= k -> JS.get r k = JS.get row k).
Proof.
  induction n as [|n IH]; intros row k; cbv zeta.
  - simpl. split; [lia | reflexivity].
  - rewrite seq_S, fold_left_app. simpl.
    destruct (IH row k) as [IHlt IHge].
    destruct (IH row n) as [_ IHn].
    split; intros Hk.
    + destruct (Nat.eq_dec k n) as [-> | Hne].
      * rewrite ArrayFacts.get_set_same, IHn by lia. reflexivity.
      * rewrite ArrayFacts.get_set_other by congruence. apply IHlt. lia.
    + rewrite ArrayFacts.get_set_other by lia. apply IHge. lia.
Qed.

Lemma update_row_get row k :
  k < numNeurons prevLayer0 ->
  JS.get (update_row learningRate gradient0 prevLayer0 row) k
  = (JS.get row k + learningRate * gradient0 * JS.get (activations prevLayer0) k)%float.
Proof. intros H. now apply (update_row_fold (numNeurons prevLayer0) row k). Qed.

End Row.

(** *** The update of one layer *)

Section Layer.

Variables (gradients0 : list float) (prevLayer0 currentLayer0 : NetworkLayer.t).

Let updated (n : nat) : NetworkLayer.t :=
  fold_left (update_neuron learningRate gradients0 prevLayer0) (seq 0 n) currentLayer0.

Lemma update_neurons_fold n :
  numNeurons (updated n) = numNeurons currentLayer0 /\
  numInputs (updated n) = numInputs currentLayer0 /\
  activations (updated n) = activations currentLayer0 /\
  length (weights (updated n)) = length (weights currentLayer0) /\
  (forall j, j < n -> j < length (weights currentLayer0) ->
     nth j (weights (updated n)) []
     = update_row learningRate (JS.get gradients0 j) prevLayer0
                  (nth j (weights currentLayer0) [])) /\
  (forall j, n <= j -> nth j (weights (updated n)) [] = nth j (weights currentLayer0) []) /\
  (forall j, j < n ->
     JS.get (biases (updated n)) j
     = (JS.get (biases currentLayer0) j + learningRate * JS.get gradients0 j)%float) /\
  (forall j, n <= j -> JS.get (biases (updated n)) j = JS.get (biases currentLayer0) j).
Proof.
  induction n as [|n IH].
  - repeat split; intros; try lia; reflexivity.
  - destruct IH as (Hn & Hi & Ha & Hl & Hw & Hw' & Hb & Hb').
    unfold updated in *. rewrite seq_S, fold_left_app. simpl.
    set (L := fold_left (update_neuron learningRate gradients0 prevLayer0)
                        (seq 0 n) currentLayer0) in *.
    unfold update_neuron. simpl.
    repeat split; try assumption.
    + now rewrite ArrayFacts.set_row_length.
    + intros j Hj Hjl. destruct (Nat.eq_dec j n) as [-> | Hne].
      * rewrite ArrayFacts.nth_set_row_same by lia. now rewrite Hw' by lia.
      * rewrite ArrayFacts.nth_set_row_other by congruence. apply Hw; lia.
    + intros j Hj. rewrite ArrayFacts.nth_set_row_other by lia. apply Hw'. lia.
    + intros j Hj. destruct (Nat.eq_dec j n) as [-> | Hne].
      * rewrite ArrayFacts.get_set_same. now rewrite Hb' by lia.
      * rewrite ArrayFacts.get_set_other by congruence. apply Hb. lia.
    + intros j Hj. rewrite ArrayFacts.get_set_other by lia. apply Hb'. lia.
Qed.

(** What [update_layer] leaves and what it writes. *)
Lemma update_layer_spec :
  let L' := update_layer learningRate gradients0 prevLayer0 currentLayer0 in
  numNeurons L' = numNeurons currentLayer0 /\
  numInputs L' = numInputs currentLayer0 /\
  activations L' = activations currentLayer0 /\
  NetworkLayer.gradients L' = gradients0 /\
  length (weights L') = length (weights currentLayer0) /\
  (forall j k, j < numNeurons currentLayer0 -> j < length (weights currentLayer0) ->
     k < numNeurons prevLayer0 ->
     JS.get (nth j (weights L') []) k
     = (JS.get (nth j (weights currentLayer0) []) k
        + learningRate * JS.get gradients0 j * JS.get (activations prevLayer0) k)%float) /\
  (forall j, j < numNeurons currentLayer0 ->
     JS.get (biases L') j
     = (JS.get (biases currentLayer0) j + learningRate * JS.get gradients0 j)%float).
Proof.
  destruct (update_neurons_fold (numNeurons currentLayer0))
    as (Hn & Hi & Ha & Hl & Hw & _ & Hb & _).
  unfold updated in *. unfold update_layer. simpl.
  repeat split; try assumption.
  intros j k Hj Hjl Hk. rewrite Hw by assumption. now apply update_row_get.
Qed.

End Layer.

(** *** The swept layers, by index *)

Lemma gradients_from_skipn cur : forall n swept,
  gradients_from cur (skipn n swept)
  = match nth_error swept n with
    | Some next => hidden_gradients cur next
    | None => output_gradients cur targets predictions
    end.
Proof.
  induction n as [|n IH]; intros [|x swept]; simpl; try reflexivity.
  apply IH.
Qed.

Lemma sweep_nth : forall ls prev i cur p,
  nth_error ls i = Some cur ->
  nth_error (prev :: ls) i = Some p ->
  nth_error (sweep prev ls) i
  = Some (update_layer learningRate
            (gradients_from cur (skipn (S i) (sweep prev ls))) p cur).
Proof.
  induction ls as [|x rest IH]; intros prev i cur p Hc Hp.
  - now destruct i.
  - destruct i as [|i]; simpl in Hc, Hp.
    + injection Hc as ->. injection Hp as ->. reflexivity.
    + simpl. now apply IH.
Qed.

Lemma sweep_all_length ls : length (sweep_all ls) = length ls.
Proof. destruct ls; simpl; [reflexivity | now rewrite sweep_length]. Qed.


Lemma sweep_all_nth ls i cur p :
  0 < i ->
  nth_error ls i = Some cur ->
  nth_error ls (i - 1) = Some p ->
  nth_error (sweep_all ls) i
  = Some (update_layer learningRate
            (match nth_error (sweep_all ls) (S i) with
             | Some next => hidden_gradients cur next
             | None => output_gradients cur targets predictions
             end) p cur).
Proof.
  intros Hi Hc Hp. destruct i as [|i]; [lia |].
  destruct ls as [|first rest]; [discriminate |].
  simpl in Hc, Hp. rewrite Nat.sub_0_r in Hp. simpl.
  rewrite (sweep_nth rest first i Hc Hp).
  now rewrite gradients_from_skipn.
Qed.

End Sweep.

Lemma update_row_length learningRate gradient prevLayer row :
  numNeurons prevLayer <= length row ->
  length (update_row learningRate gradient prevLayer row) = length row.
Proof.
  unfold update_row. generalize (numNeurons prevLayer) as n.
  induction n as [|n IH]; intros H; [reflexivity |].
  rewrite seq_S, fold_left_app. simpl.
  rewrite ArrayFacts.set_in_range_length; rewrite IH; lia.
Qed.

Lemma update_neuron_wf learningRate gradients prevLayer L j :
  wf L -> numInputs L = numNeurons prevLayer -> j < numNeurons L ->
  wf (update_neuron learningRate gradients prevLayer L j).
Proof.
  intros (Hw & Hb & Hrows) Hchain Hj. unfold update_neuron, wf. simpl.
  rewrite ArrayFacts.set_row_length, ArrayFacts.set_in_range_length by lia.
  repeat split; try assumption.
  apply ArrayFacts.Forall_set_row; [exact Hrows |].
  rewrite update_row_length.
  - rewrite Forall_forall in Hrows. apply Hrows, nth_In. lia.
  - rewrite <- Hchain. apply Nat.eq_le_incl. symmetry.
    rewrite Forall_forall in Hrows. apply Hrows, nth_In. lia.
Qed.

(** The update keeps the shape of a layer that has one input per neuron of
    the layer before it. *)
Lemma update_layer_wf learningRate gradients prevLayer currentLayer :
  wf currentLayer -> numInputs currentLayer = numNeurons prevLayer ->
  wf (update_layer learningRate gradients prevLayer currentLayer).
Proof.
  intros Hwf Hchain. unfold update_layer.
  assert (H : forall n, n <= numNeurons currentLayer ->
            let L := fold_left (update_neuron learningRate gradients prevLayer)
                               (seq 0 n) currentLayer in
            wf L /\ numNeurons L = numNeurons currentLayer /\
            numInputs L = numInputs currentLayer).
  { induction n as [|n IH]; intros Hn; cbv zeta.
    - simpl. split; [exact Hwf | now split].
    - rewrite seq_S, fold_left_app. simpl.
      destruct (IH ltac:(lia)) as (HL & HLn & HLi).
      split; [apply update_neuron_wf; auto; lia | now split]. }
  destruct (H (numNeurons currentLayer) (le_n _)) as ((Hw & Hb & Hrows) & Hn & Hi).
  unfold wf. simpl. repeat split; assumption.
Qed.

Lemma backpropagate_layers_are_swept net targets predictions :
  layers (backpropagate net targets predictions)
  = sweep_all (learningRate net) targets predictions (layers net).
Proof. unfold backpropagate. simpl. apply backpropagate_layers_sweep. Qed.

Lemma nth_error_defined (A : Type) (l : list A) (i : nat) :
  i < length l -> exists x, nth_error l i = Some x.
Proof.
  intros H. destruct (nth_error l i) eqn:E; [now eexists |].
  apply nth_error_None in E. lia.
Qed.

(** The state of one layer after the sweep, from the state before it. *)
Lemma swept_layer net targets predictions i cur :
  0 < i ->
  nth_error (layers net) i = Some cur ->
  exists prev,
    nth_error (layers net) (i - 1) = Some prev /\
    nth_error (layers (backpropagate net targets predictions)) i
    = Some (update_layer (learningRate net)
              (match nth_error (layers (backpropagate net targets predictions)) (S i) with
               | Some next => hidden_gradients cur next
               | None => output_gradients cur targets predictions
               end) prev cur).
Proof.
  intros Hi Hc.
  assert (Hlt : i < length (layers net)) by (apply nth_error_Some; congruence).
  destruct (@nth_error_defined _ (layers net) (i - 1)) as [prev Hp]; [lia |].
  exists prev. split; [exact Hp |].
  rewrite backpropagate_layers_are_swept. now apply sweep_all_nth.
Qed.

(** C1.  In the layers left by [#backpropagate], whatever the configured
    activation function:
    - the array of gradients computed for the last layer holds, for every
      neuron [j], [(targets[j] - predictions[j]) * (a[j] * (1 - a[j]))], and
      it is the gradient vector stored in that layer when the layer is not
      also the first one;
    - the gradient stored in a layer strictly between the first and the
      last holds, for every neuron [j], the sum over the neurons [k] of the
      next layer of [weights[k][j] * gradients[k]] (the next layer's weights
      and gradients as the sweep left them, accumulated from 0 in index
      order), times [a[j] * (1 - a[j])];
    where [a] is the layer's activation vector, which the sweep does not
    change. *)
Theorem backpropagate_gradients
        (net : MultiLayerPerceptron.t) (targets predictions : list float) :
  Forall NetworkLayer.wf (layers net) ->
  let ls := layers net in
  let ls' := layers (backpropagate net targets predictions) in
  (forall cur, nth_error ls (length ls - 1) = Some cur ->
     length (layer_gradients ls (length ls - 1) targets predictions) = numNeurons cur /\
     (forall j, j < numNeurons cur ->
        JS.get (layer_gradients ls (length ls - 1) targets predictions) j
        = ((JS.get targets j - JS.get predictions j)
           * (JS.get (activations cur) j * (1 - JS.get (activations cur) j)))%float) /\
     (0 < length ls - 1 ->
      exists cur', nth_error ls' (length ls - 1) = Some cur' /\
                   activations cur' = activations cur /\
                   NetworkLayer.gradients cur'
                   = layer_gradients ls (length ls - 1) targets predictions)) /\
  (forall i cur, 0 < i -> i < length ls - 1 -> nth_error ls i = Some cur ->
     exists cur' next',
       nth_error ls' i = Some cur' /\ nth_error ls' (i + 1) = Some next' /\
       activations cur' = activations cur /\
       length (NetworkLayer.gradients cur') = numNeurons cur /\
       (forall j, j < numNeurons cur ->
          JS.get (NetworkLayer.gradients cur') j
          = (fold_left (fun gradient k =>
                          (gradient + JS.get (nth k (weights next') []) j
                                      * JS.get (NetworkLayer.gradients next') k)%float)
                       (seq 0 (numNeurons next')) 0%float
             * (JS.get (activations cur) j * (1 - JS.get (activations cur) j)))%float)).
Proof.
  intros _ ls ls'.
  assert (Hlen : length ls' = length ls).
  { unfold ls'. rewrite backpropagate_layers_are_swept. apply sweep_all_length. }
  split.
  - intros cur Hc.
    assert (Hg : layer_gradients ls (length ls - 1) targets predictions
                 = output_gradients cur targets predictions).
    { unfold layer_gradients. now rewrite Hc, Nat.eqb_refl. }
    rewrite Hg. split; [| split].
    + unfold output_gradients. now rewrite length_map, length_seq.
    + intros j Hj. unfold output_gradients.
      now rewrite ArrayFacts.get_map_seq by exact Hj.
    + intros Hi.
      destruct (swept_layer net targets predictions Hi Hc) as (prev & _ & Hs).
      fold ls' in Hs.
      assert (Hnone : nth_error ls' (S (length ls - 1)) = None)
        by (apply nth_error_None; lia).
      rewrite Hnone in Hs. eexists. split; [exact Hs |].
      now destruct (update_layer_spec (learningRate net)
                      (output_gradients cur targets predictions) prev cur)
        as (_ & _ & Ha & Hgr & _).
  - intros i cur Hi Hlt Hc.
    destruct (swept_layer net targets predictions Hi Hc) as (prev & _ & Hs).
    fold ls' in Hs.
    destruct (@nth_error_defined _ ls' (S i)) as [next' Hn]; [lia |].
    rewrite Hn in Hs.
    destruct (update_layer_spec (learningRate net) (hidden_gradients cur next') prev cur)
      as (_ & _ & Ha & Hgr & _).
    eexists. exists next'. split; [exact Hs |].
    split; [now rewrite Nat.add_1_r |].
    split; [exact Ha |]. rewrite Hgr. split.
    + unfold hidden_gradients. now rewrite length_map, length_seq.
    + intros j Hj. unfold hidden_gradients.
      now rewrite ArrayFacts.get_map_seq by exact Hj.
Qed.


Lemma sample_net_wf : Forall NetworkLayer.wf (layers sample_net).
Proof. repeat constructor. Qed.

Lemma backpropagate_gradients_witness :
  Forall NetworkLayer.wf (layers sample_net) /\
  exists cur',
    nth_error (layers (backpropagate sample_net [1]%float [0.75]%float)) 1 = Some cur' /\
    NetworkLayer.gradients cur' = [0.046875]%float.
Proof.
  destruct (@backpropagate_gradients sample_net [1]%float [0.75]%float sample_net_wf)
    as [Hout _].
  destruct (Hout (NetworkLayer.mk 1 2 [[1; -1]]%float [0.5]%float [0.75]%float []) eq_refl)
    as (_ & _ & Hstored).
  destruct (Hstored ltac:(simpl; lia)) as (cur' & Hc & _ & Hg).
  split; [exact sample_net_wf |].
  exists cur'. split; [exact Hc | exact Hg].
Defined.


End BackwardFacts.

(* ================================================================= *)
(** ** MultiLayerPerceptron: the forward pass and the training loop *)

Module TrainFacts.

Import NetworkLayer MultiLayerPerceptron BackwardSweep Epochs Samples.

(** *** Layer sizes are never changed *)

Lemma chained_shape : forall ls ls' m,
  map shape ls' = map shape ls -> chained m ls -> chained m ls'.
Proof.
  induction ls as [|L rest IH]; intros [|L' rest'] m E H; simpl in *;
    try discriminate; [exact I |].
  injection E as En Ei Er. destruct H as [Hm Hc].
  split; [congruence |]. rewrite En. now apply IH.
Qed.

Lemma forward_shape f : forall ls inputs,
  map shape (fst (forward f ls inputs)) = map shape ls.
Proof.
  induction ls as [|L rest IH]; intros inputs; simpl; [reflexivity |].
  unfold activate.
  destruct (negb (length inputs =? numInputs L)); simpl; [reflexivity |].
  specialize (IH (outputs L inputs f)).
  destruct (forward f rest (outputs L inputs f)) as [rest' r]. simpl in *.
  now rewrite IH.
Qed.

Lemma sweep_shape lr targets predictions : forall ls prev,
  map shape (sweep lr targets predictions prev ls) = map shape ls.
Proof.
  induction ls as [|cur rest IH]; intros prev; simpl; [reflexivity |].
  rewrite IH. f_equal. unfold shape.
  match goal with
  | |- context [update_layer ?r ?g ?p ?c] =>
      destruct (BackwardFacts.update_layer_spec r g p c) as (Hn & Hi & _)
  end.
  now rewrite Hn, Hi.
Qed.

Lemma backpropagate_shape net targets predictions :
  map shape (layers (backpropagate net targets predictions)) = map shape (layers net).
Proof.
  rewrite BackwardFacts.backpropagate_layers_are_swept.
  destruct (layers net) as [|first rest]; simpl; [reflexivity |].
  now rewrite sweep_shape.
Qed.

Lemma predict_shape net inputs :
  map shape (layers (fst (predict net inputs))) = map shape (layers net).
Proof.
  unfold predict.
  pose proof (forward_shape (activationFunction net) (layers net) inputs) as H.
  destruct (forward (activationFunction net) (layers net) inputs) as [ls r].
  exact H.
Qed.

(** *** The forward pass *)

(** A chain fed an input of its length returns normally. *)
Lemma forward_chained f : forall ls inputs,
  chained (length inputs) ls ->
  exists out, snd (forward f ls inputs) = JS.Return out.
Proof.
  induction ls as [|L rest IH]; intros inputs H; simpl.
  - now exists inputs.
  - destruct H as [Hm Hc].
    rewrite LayerFacts.activate_returns by congruence.
    destruct (IH (outputs L inputs f)) as [out Ho].
    { now rewrite LayerFacts.outputs_length. }
    destruct (forward f rest (outputs L inputs f)) as [rest' r].
    now exists out.
Qed.

(** The only exception of the forward pass is the dimension mismatch. *)
Lemma forward_error f : forall ls inputs e,
  snd (forward f ls inputs) = JS.Throw e -> e = JS.DimensionMismatch.
Proof.
  induction ls as [|L rest IH]; intros inputs e H; simpl in H; [discriminate |].
  unfold activate in H.
  destruct (negb (length inputs =? numInputs L)); simpl in H; [congruence |].
  specialize (IH (outputs L inputs f) e).
  destruct (forward f rest (outputs L inputs f)) as [rest' r]. now apply IH.
Qed.

(** A mismatch at the first layer throws before any layer is touched. *)
Lemma predict_mismatch net first rest inputs :
  layers net = first :: rest ->
  length inputs <> numInputs first ->
  predict net inputs = (net, JS.Throw JS.DimensionMismatch).
Proof.
  intros Hl Hm. unfold predict. rewrite Hl. simpl.
  rewrite LayerFacts.activate_throws by exact Hm.
  rewrite <- Hl. now destruct net.
Qed.

(** *** The layers keep the constructor's shape *)

Lemma forward_wf f : forall ls inputs,
  Forall wf ls -> Forall wf (fst (forward f ls inputs)).
Proof.
  induction ls as [|L rest IH]; intros inputs H; simpl; [constructor |].
  apply Forall_cons_iff in H. destruct H as [HL Hrest].
  unfold activate.
  destruct (negb (length inputs =? numInputs L)); simpl; [now constructor |].
  specialize (IH (outputs L inputs f) Hrest).
  destruct (forward f rest (outputs L inputs f)) as [rest' r]. simpl in *.
  constructor; [exact HL | exact IH].
Qed.

(** A forward pass that returns went through a chain. *)
Lemma forward_returns_chained f : forall ls inputs out,
  snd (forward f ls inputs) = JS.Return out -> chained (length inputs) ls.
Proof.
  induction ls as [|L rest IH]; intros inputs out H; simpl; [exact I |].
  simpl in H. unfold activate in H.
  destruct (Nat.eqb_spec (length inputs) (numInputs L)) as [He | Hne];
    simpl in H; [| discriminate].
  split; [now symmetry |].
  specialize (IH (outputs L inputs f) out).
  destruct (forward f rest (outputs L inputs f)) as [rest' r]. simpl in H.
  rewrite LayerFacts.outputs_length in IH. now apply IH.
Qed.

Lemma sweep_wf lr targets predictions : forall ls prev,
  chained (numNeurons prev) ls -> Forall wf ls ->
  Forall wf (sweep lr targets predictions prev ls).
Proof.
  induction ls as [|cur rest IH]; intros prev Hc Hwf; simpl; [constructor |].
  destruct Hc as [Hin Hc]. apply Forall_cons_iff in Hwf. destruct Hwf as [Hcur Hrest].
  constructor; [now apply BackwardFacts.update_layer_wf | now apply IH].
Qed.

Lemma backpropagate_wf net targets predictions m :
  chained m (layers net) -> Forall wf (layers net) ->
  Forall wf (layers (backpropagate net targets predictions)).
Proof.
  intros Hc Hwf. rewrite BackwardFacts.backpropagate_layers_are_swept.
  destruct (layers net) as [|first rest]; simpl; [constructor |].
  destruct Hc as [_ Hc]. apply Forall_cons_iff in Hwf. destruct Hwf as [Hfirst Hrest].
  constructor; [exact Hfirst | now apply sweep_wf].
Qed.

(** [train] calls [#backpropagate] only after [#predict] returned, that is,
    on a chain; so the layers keep the constructor's shape all along. *)
Lemma run_samples_wf : forall data net total,
  Forall wf (layers net) -> Forall wf (layers (fst (run_samples net data total))).
Proof.
  induction data as [|s rest IH]; intros net total Hwf; simpl; [exact Hwf |].
  pose proof (@forward_wf (activationFunction net) (layers net) (inputs s) Hwf) as Hf.
  pose proof (@forward_returns_chained (activationFunction net) (layers net) (inputs s))
    as Hc.
  pose proof (@forward_shape (activationFunction net) (layers net) (inputs s)) as Hs.
  unfold predict.
  destruct (forward (activationFunction net) (layers net) (inputs s)) as [ls [out | e]];
    simpl in *; [| exact Hf].
  apply IH. apply (@backpropagate_wf _ _ _ (length (inputs s))); simpl; [| exact Hf].
  eapply chained_shape; [exact Hs | now apply (Hc out)].
Qed.

Lemma train_wf (C : Type) (cb : option (callback C)) (data : list sample) :
  forall epochs iteration net st calls,
    Forall wf (layers net) ->
    Forall wf (layers (network (train_from cb data epochs iteration net st calls))).
Proof.
  induction epochs as [|epochs IH]; intros iteration net st calls Hwf; simpl;
    [exact Hwf |].
  pose proof (@run_samples_wf data net 0%float Hwf) as Hr.
  destruct (run_samples net data 0%float) as [net' [totalError | e]]; simpl in Hr;
    [| exact Hr].
  destruct (call cb st iteration (totalError / JS.of_nat (length data))%float)
    as [[|] st']; simpl; [exact Hr | now apply IH].
Qed.

(** *** The epoch, as the specification words it *)

Lemma accumulate_thrown data : forall net e,
  fold_left accumulate data (net, JS.Throw e) = (net, JS.Throw e).
Proof. induction data as [|s rest IH]; intros net e; simpl; auto. Qed.

Lemma run_samples_fold : forall data net total,
  run_samples net data total = fold_left accumulate data (net, JS.Return total).
Proof.
  induction data as [|s rest IH]; intros net total; simpl; [reflexivity |].
  unfold sample_pass.
  destruct (predict net (inputs s)) as [net1 [predictions | e]]; simpl.
  - apply IH.
  - now rewrite accumulate_thrown.
Qed.

(** The samples are visited in their order: a run over [d1 ++ d2] is the
    run over [d1] followed, unless it threw, by the run over [d2]. *)
Lemma run_samples_app : forall d1 d2 net total,
  run_samples net (d1 ++ d2) total
  = match run_samples net d1 total with
    | (net1, JS.Return total1) => run_samples net1 d2 total1
    | (net1, JS.Throw e) => (net1, JS.Throw e)
    end.
Proof.
  induction d1 as [|s rest IH]; intros d2 net total; simpl; [reflexivity |].
  destruct (predict net (inputs s)) as [net1 [predictions | e]]; [apply IH | reflexivity].
Qed.

Lemma run_samples_error : forall data net total net' e,
  run_samples net data total = (net', JS.Throw e) -> e = JS.DimensionMismatch.
Proof.
  induction data as [|s rest IH]; intros net total net' e H; simpl in H; [discriminate |].
  destruct (predict net (inputs s)) as [net1 [predictions | e1]] eqn:E.
  - eapply IH; exact H.
  - injection H as _ <-. unfold predict in E.
    pose proof (forward_error (activationFunction net) (layers net) (inputs s)) as He.
    destruct (forward (activationFunction net) (layers net) (inputs s)) as [ls r].
    injection E as _ ->. now apply He.
Qed.

Lemma run_samples_shape : forall data net total,
  map shape (layers (fst (run_samples net data total))) = map shape (layers net).
Proof.
  induction data as [|s rest IH]; intros net total; simpl; [reflexivity |].
  pose proof (predict_shape net (inputs s)) as Hp.
  destruct (predict net (inputs s)) as [net1 [predictions | e]]; simpl in *.
  - rewrite IH, backpropagate_shape. exact Hp.
  - exact Hp.
Qed.

Lemma epoch_pass_run net data :
  epoch_pass net data
  = match run_samples net data 0%float with
    | (net', JS.Return totalError) =>
        (net', JS.Return (totalError / JS.of_nat (length data))%float)
    | (net', JS.Throw e) => (net', JS.Throw e)
    end.
Proof.
  unfold epoch_pass. rewrite run_samples_fold.
  now destruct (fold_left accumulate data (net, JS.Return 0%float)) as [net' [total | e]].
Qed.

(** A chain fed samples of its input length runs an epoch to its end. *)
Lemma run_samples_chained m : forall data net total,
  chained m (layers net) ->
  Forall (fun s => length (inputs s) = m) data ->
  exists totalError, snd (run_samples net data total) = JS.Return totalError.
Proof.
  induction data as [|s rest IH]; intros net total Hc Hv; simpl.
  - now exists total.
  - apply Forall_cons_iff in Hv. destruct Hv as [Hs Hrest].
    pose proof (predict_shape net (inputs s)) as Hshape.
    assert (Hp : exists out, snd (predict net (inputs s)) = JS.Return out).
    { unfold predict.
      destruct (forward_chained (activationFunction net) (layers net) (inputs s))
        as [out Ho]; [now rewrite Hs |].
      destruct (forward (activationFunction net) (layers net) (inputs s)) as [ls r].
      now exists out. }
    destruct Hp as [out Ho].
    destruct (predict net (inputs s)) as [net1 r]. simpl in Ho, Hshape. subst r.
    apply IH; [| exact Hrest].
    eapply chained_shape; [| exact Hc].
    now rewrite backpropagate_shape.
Qed.

(** A sample whose input length differs from the first layer's input count
    makes the epoch throw. *)
Lemma run_samples_mismatch m bad : forall data net total,
  option_map numInputs (hd_error (layers net)) = Some m ->
  In bad data ->
  length (inputs bad) <> m ->
  snd (run_samples net data total) = JS.Throw JS.DimensionMismatch.
Proof.
  induction data as [|s rest IH]; intros net total Hm Hin Hbad; simpl; [contradiction |].
  pose proof (predict_shape net (inputs s)) as Hshape.
  destruct (predict net (inputs s)) as [net1 [predictions | e]] eqn:E; simpl in Hshape.
  - destruct Hin as [-> | Hin].
    + destruct (layers net) as [|first others] eqn:El; [discriminate |].
      simpl in Hm. injection Hm as Hm.
      rewrite (predict_mismatch net (inputs bad) El) in E by congruence.
      discriminate.
    + apply IH; [| exact Hin | exact Hbad].
      assert (Hs : map shape (layers (backpropagate net1 (targets s) predictions))
                   = map shape (layers net))
        by (now rewrite backpropagate_shape).
      destruct (layers net) as [|first others]; [discriminate |].
      destruct (layers (backpropagate net1 (targets s) predictions)) as [|first' others'];
        [discriminate |].
      simpl in *. injection Hs as _ Hi _. now rewrite Hi.
  - simpl. f_equal. unfold predict in E.
    pose proof (forward_error (activationFunction net) (layers net) (inputs s)) as He.
    destruct (forward (activationFunction net) (layers net) (inputs s)) as [ls r].
    injection E as _ ->. now apply He.
Qed.

(** *** The epoch loop *)

Section Loop.

Variables (C : Type) (cb : option (callback C)) (data : list sample).

Lemma train_from_spec : forall remaining iteration net st calls,
  let r := train_from cb data remaining iteration net st calls in
  exists new net_n,
    cb_calls r = calls ++ new /\
    length new <= remaining /\
    map fst new = seq iteration (length new) /\
    epochs_pass net data (length new) = (net_n, JS.Return (map snd new)) /\
    ((completion r = JS.Return tt /\ network r = net_n) \/
     (exists e, completion r = JS.Throw e /\ length new < remaining /\
                epoch_pass net_n data = (network r, JS.Throw e))) /\
    match cb with
    | None => cb_state r = st /\ (completion r = JS.Return tt -> length new = remaining)
    | Some f =>
        snd (answers f st new) = cb_state r /\
        ((fst (answers f st new) = repeat false (length new) /\
          (completion r = JS.Return tt -> length new = remaining)) \/
         (completion r = JS.Return tt /\
          exists k, length new = S k /\ fst (answers f st new) = repeat false k ++ [true]))
    end.
Proof.
  induction remaining as [|remaining IH]; intros iteration net st calls; cbv zeta.
  - exists [], net. simpl. rewrite app_nil_r.
    repeat split; auto.
    destruct cb as [f |]; simpl; repeat split; auto.
  - simpl train_from.
    pose proof (epoch_pass_run net data) as He.
    destruct (run_samples net data 0%float) as [net' [totalError | e]].
    + set (averageError := (totalError / JS.of_nat (length data))%float) in *.
      destruct (call cb st iteration averageError) as [shouldStop st'] eqn:Ecall.
      destruct shouldStop.
      * exists [(iteration, averageError)], net'. simpl.
        rewrite He. simpl.
        repeat split; auto; try lia.
        destruct cb as [f |]; simpl in Ecall.
        -- simpl. rewrite Ecall. simpl. split; [reflexivity |].
           right. split; [reflexivity |]. now exists 0.
        -- discriminate.
      * specialize (IH (S iteration) net' st' (calls ++ [(iteration, averageError)])).
        cbv zeta in IH.
        destruct IH as (new & net_n & Hcalls & Hlen & Hnum & Hep & Hend & Hcb).
        exists ((iteration, averageError) :: new), net_n.
        simpl. rewrite He, Hep.
        split; [now rewrite Hcalls, <- app_assoc |].
        split; [lia |]. split; [now rewrite Hnum |].
        split; [reflexivity |].
        split.
        { destruct Hend as [(Hc & Hn) | (e & Hc & Hl & Hthrow)].
          - left. now split.
          - right. exists e. repeat split; auto. lia. }
        destruct cb as [f |]; simpl in Ecall.
        -- simpl. rewrite Ecall.
           destruct (answers f st' new) as [bs st''] eqn:Er. simpl in *.
           destruct Hcb as [Hst Hv]. split; [exact Hst |].
           destruct Hv as [(Hv & Hl) | (Hc & k & Hk & Hv)].
           ++ left. split; [now rewrite Hv | intros Hc; specialize (Hl Hc); lia].
           ++ right. split; [exact Hc |]. exists (S k). split; [lia | now rewrite Hv].
        -- injection Ecall as <-. destruct Hcb as [Hst Hl].
           split; [exact Hst | intros Hc; specialize (Hl Hc); lia].
    + exists [], net. simpl. rewrite app_nil_r.
      repeat split; auto; try lia.
      * right. exists e. repeat split; auto. lia.
      * destruct cb as [f |]; simpl.
        -- split; [reflexivity |]. left. split; [reflexivity | discriminate].
        -- split; [reflexivity | discriminate].
Qed.

End Loop.

Lemma epoch_pass_shape net data :
  map shape (layers (fst (epoch_pass net data))) = map shape (layers net).
Proof.
  rewrite epoch_pass_run.
  pose proof (run_samples_shape data net 0%float) as H.
  now destruct (run_samples net data 0%float) as [net' [total | e]].
Qed.

Lemma epochs_pass_shape data : forall n net,
  map shape (layers (fst (epochs_pass net data n))) = map shape (layers net).
Proof.
  induction n as [|n IH]; intros net; simpl; [reflexivity |].
  pose proof (epoch_pass_shape net data) as H.
  destruct (epoch_pass net data) as [net' [mean | e]]; simpl in H; [| exact H].
  specialize (IH net').
  destruct (epochs_pass net' data n) as [net'' r]. simpl in *. congruence.
Qed.

(** C4.  [train] runs the epochs numbered from 1, at most [epochs] of them.
    Every epoch that reached the callback was a full pass over the samples
    in their order (predict, loss, backpropagation on each, the losses
    accumulated), and the callback received the epoch's number and the mean
    loss.  The callback [onEpoch], called in a row on these epochs from the
    state it was given, answered the last of them with a truthy value, which
    ended the run there; or it answered every one of them with a falsy
    value, and the run went on to epoch [epochs] unless an epoch threw.  So
    does the run when the callback is omitted.  With [epochs = 0] nothing is
    processed and nothing changes.  On a chain of layers fed samples of its
    input length the run returns normally. *)
Theorem train_runs_epochs (C : Type) (net : MultiLayerPerceptron.t)
        (trainingSamples : list sample) (epochs : nat)
        (cb : option (callback C)) (st : C) :
  Forall NetworkLayer.wf (layers net) ->
  let r := train net trainingSamples epochs cb st in
  let n := length (cb_calls r) in
  Forall NetworkLayer.wf (layers (network r)) /\
  n <= epochs /\
  map fst (cb_calls r) = seq 1 n /\
  (exists net_n,
     epochs_pass net trainingSamples n = (net_n, JS.Return (map snd (cb_calls r))) /\
     ((completion r = JS.Return tt /\ network r = net_n) \/
      (exists e, completion r = JS.Throw e /\ n < epochs /\
                 epoch_pass net_n trainingSamples = (network r, JS.Throw e)))) /\
  match cb with
  | Some onEpoch =>
      snd (answers onEpoch st (cb_calls r)) = cb_state r /\
      ((fst (answers onEpoch st (cb_calls r)) = repeat false n /\
        (completion r = JS.Return tt -> n = epochs)) \/
       (completion r = JS.Return tt /\
        exists k, n = S k /\
                  fst (answers onEpoch st (cb_calls r)) = repeat false k ++ [true]))
  | None => cb_state r = st /\ (completion r = JS.Return tt -> n = epochs)
  end /\
  (epochs = 0 -> r = mkRun net st [] (JS.Return tt)) /\
  (forall m, chained m (layers net) ->
             Forall (fun s => length (inputs s) = m) trainingSamples ->
             completion r = JS.Return tt).
Proof.
  intros Hwf r n.
  destruct (train_from_spec cb trainingSamples epochs 1 net st [])
    as (new & net_n & Hcalls & Hlen & Hnum & Hep & Hend & Hcb).
  fold (train net trainingSamples epochs cb st) in Hcalls, Hend, Hcb.
  fold r in Hcalls, Hend, Hcb. simpl in Hcalls.
  unfold n. rewrite Hcalls.
  split; [now apply train_wf |].
  split; [exact Hlen |]. split; [exact Hnum |].
  split.
  { exists net_n. split; [exact Hep | exact Hend]. }
  split.
  { destruct cb as [onEpoch |]; exact Hcb. }
  split.
  { intros ->. reflexivity. }
  intros m Hchain Hvalid.
  destruct Hend as [(Hc & _) | (e & _ & _ & Ht)]; [exact Hc |].
  exfalso.
  assert (Hchain' : chained m (layers net_n)).
  { eapply chained_shape; [| exact Hchain].
    pose proof (epochs_pass_shape trainingSamples (length new) net) as Hs.
    rewrite Hep in Hs. exact Hs. }
  destruct (@run_samples_chained m trainingSamples net_n 0%float Hchain' Hvalid)
    as [total Htotal].
  rewrite epoch_pass_run in Ht.
  destruct (run_samples net_n trainingSamples 0%float) as [net' [t | e']];
    simpl in Htotal; discriminate.
Qed.

Lemma train_runs_epochs_witness :
  Forall NetworkLayer.wf (layers sample_net) /\
  let onEpoch := fun (count iteration : nat) (_ : float) => (2 <=? iteration, S count) in
  let r := train sample_net sample_data 5 (Some onEpoch) 0 in
  completion r = JS.Return tt /\ map fst (cb_calls r) = [1; 2] /\ cb_state r = 2.
Proof.
  split; [exact BackwardFacts.sample_net_wf |].
  intros onEpoch r.
  destruct (@train_runs_epochs nat sample_net sample_data 5 (Some onEpoch) 0
                               BackwardFacts.sample_net_wf)
    as (_ & _ & Hnum & _ & (Hst & _) & _ & Hchain).
  fold r in Hnum, Hst, Hchain.
  split; [apply (Hchain 2); repeat constructor |].
  split; [rewrite Hnum; now vm_compute |].
  rewrite <- Hst. now vm_compute.
Defined.

(** C6.  [activate] throws exactly when the length of the input differs from
    the layer's input count, and the exception is the dimension mismatch.
    [train] does not catch it: when a sample's input length differs from the
    input count of the first layer, a run of at least one epoch ends with
    that exception before any call of the callback, and the samples after
    the first such sample are not processed. *)
Theorem dimension_mismatch_aborts :
  (forall L inputs f,
     activate L inputs f = JS.Throw JS.DimensionMismatch
     <-> length inputs <> numInputs L) /\
  (forall L inputs f,
     NetworkLayer.wf L -> length inputs = numInputs L ->
     exists L' out, activate L inputs f = JS.Return (L', out)) /\
  (forall (C : Type) (cb : option (callback C)) net data epochs st first rest bad,
     Forall NetworkLayer.wf (layers net) ->
     layers net = first :: rest ->
     In bad data ->
     length (inputs bad) <> numInputs first ->
     0 < epochs ->
     let r := train net data epochs cb st in
     completion r = JS.Throw JS.DimensionMismatch /\ cb_calls r = [] /\ cb_state r = st) /\
  (forall (C : Type) (cb : option (callback C)) net epochs st first rest
          pre bad post net1 total,
     Forall NetworkLayer.wf (layers net) ->
     layers net = first :: rest ->
     run_samples net pre 0%float = (net1, JS.Return total) ->
     length (inputs bad) <> numInputs first ->
     0 < epochs ->
     train net (pre ++ bad :: post) epochs cb st
     = mkRun net1 st [] (JS.Throw JS.DimensionMismatch)).
Proof.
  split; [| split; [| split]].
  - intros L inputs f. split.
    + intros He Heq. rewrite LayerFacts.activate_returns in He by exact Heq.
      discriminate.
    + intros Hne. now apply LayerFacts.activate_throws.
  - intros L inputs f _ Heq. eexists. eexists.
    now apply LayerFacts.activate_returns.
  - intros C cb net data epochs st first rest bad _ Hl Hin Hbad Hep r.
    destruct epochs as [|epochs]; [lia |].
    unfold r, train. simpl.
    assert (Hm : snd (run_samples net data 0%float) = JS.Throw JS.DimensionMismatch).
    { apply (@run_samples_mismatch (numInputs first) bad); auto. now rewrite Hl. }
    destruct (run_samples net data 0%float) as [net' res]. simpl in Hm. subst res.
    now repeat split.
  - intros C cb net epochs st first rest pre bad post net1 total _ Hl Hpre Hbad Hep.
    destruct epochs as [|epochs]; [lia |].
    unfold train. simpl.
    rewrite run_samples_app, Hpre. simpl.
    pose proof (run_samples_shape pre net 0%float) as Hs.
    rewrite Hpre, Hl in Hs. simpl in Hs.
    destruct (layers net1) as [|first1 rest1] eqn:El1; [discriminate |].
    simpl in Hs. injection Hs as _ Hi _.
    rewrite (predict_mismatch net1 (inputs bad) El1) by congruence.
    reflexivity.
Qed.

Lemma dimension_mismatch_aborts_witness :
  completion (train sample_net
                    (sample_data ++ [mkSample [1]%float [1]%float]) 5
                    None tt)
  = JS.Throw JS.DimensionMismatch.
Proof.
  destruct dimension_mismatch_aborts as (_ & _ & Habort & _).
  refine (proj1 (Habort unit None sample_net
                        (sample_data ++ [mkSample [1]%float [1]%float]) 5 tt
                        _ _ (mkSample [1]%float [1]%float)
                        BackwardFacts.sample_net_wf eq_refl _ _ _)).
  - apply in_or_app. right. now left.
  - simpl. lia.
  - lia.
Defined.

End TrainFacts.

(* ================================================================= *)
(** ** utils.js: normalization *)

Module NormalizeFacts.

Import Utils Rescale.

Lemma map_seq_S (A : Type) (f : nat -> A) (n : nat) :
  map f (seq 0 (S n)) = f 0 :: map (fun i => f (S i)) (seq 0 n).
Proof. simpl. now rewrite <- seq_shift, map_map. Qed.

(** *** Calls that spread their arguments *)


Lemma accepts_one (E : JS.engine) : JS.accepts E 1 = true.
Proof. unfold JS.accepts. apply N.leb_le. lia. Qed.

Lemma column_length (data : list (list float)) (j : nat) :
  length (column data j) = length data.
Proof. unfold column. apply length_map. Qed.

Lemma minMax_loop_accepted (E : JS.engine) (points : list (list float)) :
  JS.accepts E (length points) = true ->
  forall indices,
    minMax_loop E points indices
    = JS.Return (map (fun i => (Math_min (column points i), Math_max (column points i)))
                     indices).
Proof.
  intros H. induction indices as [|i rest IH]; simpl; [reflexivity |].
  unfold JS.spread. rewrite column_length, H. simpl. now rewrite IH.
Qed.

Lemma minMax_loop_refused (E : JS.engine) (points : list (list float))
      (i : nat) (rest : list nat) :
  JS.accepts E (length points) = false ->
  minMax_loop E points (i :: rest) = JS.Throw JS.RangeError.
Proof.
  intros H. simpl. unfold JS.spread. now rewrite column_length, H.
Qed.

(** Within the engine's limit [minMaxPoints] returns the least and the
    greatest value of every coordinate of the first point. *)
Lemma minMaxPoints_accepted (E : JS.engine) (first : list float)
      (rest : list (list float)) :
  JS.accepts E (length (first :: rest)) = true ->
  minMaxPoints E (first :: rest)
  = JS.Return (map (fun i => (Math_min (column (first :: rest) i),
                              Math_max (column (first :: rest) i)))
                   (seq 0 (length first))).
Proof. intros H. unfold minMaxPoints. now apply minMax_loop_accepted. Qed.

(** *** The rescaling loops *)

Lemma normalize_from_defined (mm : list (float * float)) : forall p j,
  j + length p <= length mm ->
  normalize_from mm p j
  = JS.Return (map (fun i => inverseLerp (fst (nth (j + i) mm (nan, nan)))
                                        (snd (nth (j + i) mm (nan, nan)))
                                        (JS.get p i))
                   (seq 0 (length p))).
Proof.
  induction p as [|value rest IH]; intros j H; [reflexivity |].
  simpl length in *. rewrite map_seq_S. simpl normalize_from.
  rewrite (nth_error_nth' mm (nan, nan)) by lia.
  destruct (nth j mm (nan, nan)) as [mn mx] eqn:E.
  rewrite IH by lia. simpl. rewrite Nat.add_0_r, E. simpl.
  do 2 f_equal. apply map_ext. intros i. now rewrite Nat.add_succ_r.
Qed.

Lemma normalize_all_defined (mm : list (float * float)) : forall data,
  Forall (fun p => length p <= length mm) data ->
  normalize_all mm data
  = JS.Return (map (fun p =>
                      map (fun i => inverseLerp (fst (nth i mm (nan, nan)))
                                               (snd (nth i mm (nan, nan)))
                                               (JS.get p i))
                          (seq 0 (length p))) data).
Proof.
  induction data as [|p rest IH]; intros H; [reflexivity |].
  apply Forall_cons_iff in H. destruct H as [Hp Hrest].
  simpl. rewrite normalize_from_defined by (simpl; lia).
  simpl. now rewrite IH.
Qed.

(** On a non-empty set of points of one dimension, within the engine's
    limit, [normalizePoints] returns and rescales every coordinate by the
    least and greatest value of that coordinate over the set. *)
Lemma normalizePoints_uniform (E : JS.engine) (data : list (list float)) (d : nat) :
  JS.accepts E (length data) = true ->
  data <> [] ->
  Forall (fun p => length p = d) data ->
  normalizePoints E data None = JS.Return (normalized data).
Proof.
  intros Ha Hne Hd. destruct data as [|first rest]; [congruence |].
  unfold normalizePoints. rewrite (minMaxPoints_accepted _ _ _ Ha). cbn [JS.bind].
  set (data := first :: rest) in *.
  assert (Hfirst : length first = d).
  { apply Forall_cons_iff in Hd. tauto. }
  rewrite normalize_all_defined.
  - f_equal. unfold normalized. apply map_ext_in. intros p Hp.
    unfold normalized_point. apply map_ext_in. intros j Hj.
    apply in_seq in Hj. rewrite Forall_forall in Hd. specialize (Hd p Hp).
    unfold rescale.
    rewrite nth_indep with (d' := (fun i => (Math_min (column data i),
                                             Math_max (column data i))) 0)
      by (rewrite length_map, length_seq; lia).
    rewrite (map_nth (fun i => (Math_min (column data i), Math_max (column data i)))).
    now rewrite seq_nth by lia.
  - rewrite length_map, length_seq.
    eapply Forall_impl; [| exact Hd]. intros p Hp. simpl in Hp. lia.
Qed.

Lemma normalized_length data : length (normalized data) = length data.
Proof. unfold normalized. now rewrite length_map. Qed.

Lemma normalized_point_length data p : length (normalized_point data p) = length p.
Proof. unfold normalized_point. now rewrite length_map, length_seq. Qed.

Lemma normalized_point_get data p j :
  j < length p ->
  JS.get (normalized_point data p) j
  = inverseLerp (Math_min (column data j)) (Math_max (column data j)) (JS.get p j).
Proof.
  intros H. unfold normalized_point.
  now rewrite (ArrayFacts.get_map_seq (fun j => rescale data j (JS.get p j))).
Qed.

End NormalizeFacts.

(* ================================================================= *)
(** ** KNNClassifier: training data and normalization *)

Module ClassifierFacts.

Import Utils KNNClassifier NormalizeFacts Rescale.

Lemma store_appends : forall features labels i fs ls,
  store features labels i fs ls
  = (fs ++ features,
     ls ++ map (fun n => nth n labels JS.VUndefined) (seq i (length features))).
Proof.
  induction features as [|f rest IH]; intros labels i fs ls; simpl.
  - now rewrite !app_nil_r.
  - rewrite IH, <- !app_assoc. reflexivity.
Qed.


(** With normalization enabled, on stored points of the query's dimension
    and within the engine's limit, the point searched for is the query
    rescaled over the query and the stored points. *)
Lemma query_normalized (E : JS.engine) (c : KNNClassifier.t) (feature : list float) :
  normalization c = true ->
  Forall (fun p => length p = length feature) (trainingFeatures c) ->
  JS.accepts E (S (length (trainingFeatures c))) = true ->
  normalizePoints E (feature :: trainingFeatures c) None
  = JS.Return (normalized (feature :: trainingFeatures c)) /\
  query E c feature
  = JS.Return (normalized_point (feature :: trainingFeatures c) feature).
Proof.
  intros Hn Hd Ha.
  assert (Hp : normalizePoints E (feature :: trainingFeatures c) None
               = JS.Return (normalized (feature :: trainingFeatures c))).
  { apply (@normalizePoints_uniform E (feature :: trainingFeatures c) (length feature));
      [exact Ha | discriminate | now constructor]. }
  split; [exact Hp |].
  unfold query. rewrite Hn, Hp. reflexivity.
Qed.

(** C8.  With no stored training data, classification, normalization
    disabled: the neighbor search returns the empty array, and [predict]
    returns [{ predictedLabel: undefined, maxVotes: 0 }] without
    throwing, whatever [k], the metric and the queried point. *)
Theorem predict_without_training_data
        (E : JS.engine) (metric : option (list float -> list float -> float))
        (k : option nat) (labels : list JS.value) (feature : list float) :
  nearestPoints E feature [] k metric = [] /\
  predict E (KNNClassifier.mk metric false false [] labels k) feature
  = JS.Return (Vote None 0).
Proof.
  assert (H : nearestPoints E feature [] k metric = []).
  { unfold nearestPoints. simpl. apply firstn_nil. }
  split; [exact H |].
  unfold predict, query, findNearestNeighbors. simpl. now rewrite H.
Qed.



End ClassifierFacts.

(* ================================================================= *)
(** ** utils.js: the neighbor search *)

Module SearchFacts.

Import Utils.

Lemma insert_perm (x : neighbor) (sorted : list neighbor) :
  Permutation (insert x sorted) (x :: sorted).
Proof.
  induction sorted as [|y rest IH]; simpl; [reflexivity |].
  destruct (before x y); [reflexivity |].
  rewrite IH. apply perm_swap.
Qed.

Lemma sort_from_perm : forall entries sorted,
  Permutation (fold_left (fun sorted x => insert x sorted) entries sorted)
              (sorted ++ entries).
Proof.
  induction entries as [|x rest IH]; intros sorted; simpl.
  - now rewrite app_nil_r.
  - rewrite IH, insert_perm. apply Permutation_middle.
Qed.

Lemma stable_perm (entries : list neighbor) : Permutation (stable entries) entries.
Proof. unfold stable. apply (sort_from_perm entries []). Qed.

Lemma exchange_at_perm (A : Type) : forall (l : list A) (i : nat),
  Permutation (JS.exchange_at l i) l.
Proof.
  induction l as [|a l IH]; intros i; [reflexivity |].
  destruct i as [|i]; simpl.
  - destruct l as [|b rest]; [reflexivity | apply perm_swap].
  - apply perm_skip, IH.
Qed.

Lemma rearrange_perm (A : Type) : forall (exchanges : list nat) (l : list A),
  Permutation (JS.rearrange exchanges l) l.
Proof.
  unfold JS.rearrange.
  induction exchanges as [|i rest IH]; intros l; simpl; [reflexivity |].
  rewrite IH. apply exchange_at_perm.
Qed.

(** The sort neither drops nor adds an entry, whatever the engine and the
    comparator's results. *)
Lemma sort_perm (E : JS.engine) (entries : list neighbor) :
  Permutation (sort E entries) entries.
Proof.
  unfold sort. destruct (consistent entries); [apply stable_perm | apply rearrange_perm].
Qed.

Lemma sort_length (E : JS.engine) (entries : list neighbor) :
  length (sort E entries) = length entries.
Proof. apply Permutation_length, sort_perm. Qed.

(** *** Consistent comparators *)

Lemma sort_consistent (E : JS.engine) (entries : list neighbor) :
  consistent entries = true -> sort E entries = stable entries.
Proof. intros H. unfold sort. now rewrite H. Qed.

(** A comparator that compares integer keys is consistent. *)
Lemma consistent_keyed (f : neighbor -> Z) (entries : list neighbor) :
  (forall a b, In a entries -> In b entries ->
               SortCompare a b = (f a ?= f b)%Z) ->
  consistent entries = true.
Proof.
  intros H. unfold consistent.
  apply forallb_forall. intros a Ha. apply andb_true_intro. split.
  - rewrite (H a a Ha Ha). now rewrite Z.compare_refl.
  - apply forallb_forall. intros b Hb. apply andb_true_intro. split.
    + rewrite (H a b Ha Hb), (H b a Hb Ha), (Z.compare_antisym (f a) (f b)).
      now destruct (f a ?= f b)%Z.
    + apply forallb_forall. intros c Hc.
      rewrite (H a b Ha Hb), (H b c Hb Hc), (H a c Ha Hc).
      destruct (Z.compare_spec (f a) (f b)), (Z.compare_spec (f b) (f c)),
        (Z.compare_spec (f a) (f c)); try reflexivity; lia.
Qed.



Lemma measure_length metric pt : forall points i,
  length (measure metric pt points i) = length points.
Proof.
  induction points as [|p rest IH]; intros i; simpl; [reflexivity | now rewrite IH].
Qed.

(** Entry [n] of the measured array: its index, its point, its distance. *)
Lemma measure_nth metric pt : forall points i n p,
  nth_error points n = Some p ->
  nth_error (measure metric pt points i) n = Some (mkNeighbor (i + n) p (metric pt p)).
Proof.
  induction points as [|q rest IH]; intros i n p H; destruct n as [|n]; simpl in *;
    try discriminate.
  - injection H as ->. now rewrite Nat.add_0_r.
  - rewrite (IH (S i) n p H). now rewrite Nat.add_succ_r.
Qed.

Lemma measure_index metric pt : forall points i e,
  In e (measure metric pt points i) ->
  i <= index e < i + length points /\
  nth_error points (index e - i) = Some (point e) /\
  distance e = metric pt (point e).
Proof.
  induction points as [|p rest IH]; intros i e H; simpl in H; [contradiction |].
  destruct H as [<- | H]; simpl.
  - rewrite Nat.sub_diag. repeat split; lia.
  - destruct (IH (S i) e H) as (Hi & Hn & Hd).
    replace (index e - i) with (S (index e - S i)) by lia.
    repeat split; try assumption; lia.
Qed.

Lemma measure_indices metric pt : forall points i,
  map index (measure metric pt points i) = seq i (length points).
Proof.
  induction points as [|p rest IH]; intros i; simpl; [reflexivity | now rewrite IH].
Qed.


Lemma firstn_in (A : Type) (n : nat) (l : list A) (x : A) :
  In x (firstn n l) -> In x l.
Proof.
  intros H. rewrite <- (firstn_skipn n l). apply in_or_app. now left.
Qed.

Lemma nearestPoints_length E pt points k metric :
  length (nearestPoints E pt points k metric)
  = Nat.min (match k with Some k => k | None => 1 end) (length points).
Proof.
  unfold nearestPoints. now rewrite length_firstn, sort_length, measure_length.
Qed.

End SearchFacts.

(* ================================================================= *)
(** ** Plain objects: properties and their enumeration order *)

Module ObjectFacts.

Import JSObject Tally.

Lemma lookup_none (o : JSObject.t) (key : string) :
  lookup o key = None <-> ~ In key (keys o).
Proof.
  unfold keys. induction o as [|[k v] rest IH]; simpl; [tauto |].
  destruct (String.eqb_spec k key) as [-> | Hne].
  - split; [discriminate | intros H; exfalso; apply H; now left].
  - rewrite IH. tauto.
Qed.

Lemma lookup_assign (o : JSObject.t) (key key' : string) (v : tally) :
  lookup (assign o key v) key' = if String.eqb key key' then Some v else lookup o key'.
Proof.
  induction o as [|[k w] rest IH]; simpl.
  - reflexivity.
  - destruct (String.eqb_spec k key) as [-> | Hne]; simpl.
    + now destruct (String.eqb key key').
    + rewrite IH. destruct (String.eqb_spec key key') as [<- | Hne'].
      * now destruct (String.eqb_spec k key).
      * reflexivity.
Qed.

(** An assignment creates the property last when the object does not own
    it, and keeps the order otherwise. *)
Lemma keys_assign (o : JSObject.t) (key : string) (v : tally) :
  keys (assign o key v)
  = match lookup o key with
    | Some _ => keys o
    | None => keys o ++ [key]
    end.
Proof.
  unfold keys. induction o as [|[k w] rest IH]; simpl; [reflexivity |].
  destruct (String.eqb_spec k key) as [-> | Hne]; simpl; [reflexivity |].
  rewrite IH. now destruct (lookup rest key).
Qed.

(** *** The order of [for ... in] *)

Lemma insert_index_in (key : string) (sorted : list string) (x : string) :
  In x (insert_index key sorted) <-> x = key \/ In x sorted.
Proof.
  induction sorted as [|k rest IH]; simpl.
  - intuition.
  - destruct (index_value key <? index_value k)%N; simpl; [intuition |].
    rewrite IH. intuition.
Qed.

Lemma sort_indices_from_in (ks : list string) : forall sorted x,
  In x (fold_left (fun sorted key => insert_index key sorted) ks sorted)
  <-> In x sorted \/ In x ks.
Proof.
  induction ks as [|k rest IH]; intros sorted x; simpl; [tauto |].
  rewrite IH, insert_index_in. intuition.
Qed.

Lemma sort_indices_in (ks : list string) (x : string) :
  In x (sort_indices ks) <-> In x ks.
Proof. unfold sort_indices. rewrite sort_indices_from_in. simpl. tauto. Qed.

Lemma ascending_nil : ascending [].
Proof. intros [|? ?] a l2 b H; discriminate. Qed.

Lemma ascending_cons (k : string) (l : list string) :
  (forall x, In x l -> (index_value k <= index_value x)%N) ->
  ascending l -> ascending (k :: l).
Proof.
  intros Hk Hl l1 a l2 b E Hb. destruct l1 as [|y l1]; simpl in E.
  - injection E as <- <-. now apply Hk.
  - injection E as _ E. now apply (Hl l1 a l2 b).
Qed.

Lemma ascending_tail (k : string) (l : list string) :
  ascending (k :: l) ->
  (forall x, In x l -> (index_value k <= index_value x)%N) /\ ascending l.
Proof.
  intros H. split.
  - intros x Hx. now apply (H [] k l x).
  - intros l1 a l2 b E Hb. apply (H (k :: l1) a l2 b); [now rewrite E | exact Hb].
Qed.

Lemma insert_index_ascending (key : string) (sorted : list string) :
  ascending sorted -> ascending (insert_index key sorted).
Proof.
  induction sorted as [|k rest IH]; intros H; simpl.
  - apply ascending_cons; [intros x [] | apply ascending_nil].
  - destruct (ascending_tail H) as [Hk Hrest].
    destruct (N.ltb_spec (index_value key) (index_value k)) as [Hlt | Hge].
    + apply ascending_cons; [| exact H].
      intros x [<- | Hx]; [lia |]. specialize (Hk x Hx). lia.
    + apply ascending_cons; [| now apply IH].
      intros x Hx. apply insert_index_in in Hx. destruct Hx as [-> | Hx]; auto.
Qed.

Lemma sort_indices_ascending (ks : list string) : ascending (sort_indices ks).
Proof.
  unfold sort_indices.
  assert (H : forall sorted, ascending sorted ->
            ascending (fold_left (fun sorted key => insert_index key sorted) ks sorted)).
  { induction ks as [|k rest IH]; intros sorted Hs; simpl; [exact Hs |].
    apply IH. now apply insert_index_ascending. }
  apply H, ascending_nil.
Qed.

Lemma for_in_in (o : JSObject.t) (x : string) : In x (for_in o) <-> In x (keys o).
Proof.
  unfold for_in. rewrite in_app_iff, sort_indices_in, !filter_In.
  destruct (is_array_index x); simpl; intuition congruence.
Qed.

Lemma filter_split (A : Type) (p : A -> bool) : forall l a w b,
  filter p l = a ++ w :: b ->
  exists l1 l2, l = l1 ++ w :: l2 /\ filter p l1 = a /\ filter p l2 = b.
Proof.
  induction l as [|x l IH]; intros a w b H; simpl in H.
  - now destruct a.
  - destruct (p x) eqn:Ep.
    + destruct a as [|y a]; simpl in H; injection H as -> H.
      * exists [], l. simpl. auto.
      * destruct (IH a w b H) as (l1 & l2 & -> & <- & <-).
        exists (y :: l1), l2. simpl. now rewrite Ep.
    + destruct (IH a w b H) as (l1 & l2 & -> & <- & <-).
      exists (x :: l1), l2. simpl. now rewrite Ep.
Qed.

(** Where [w] is enumerated before [x]: both are array indices and the index
    of [w] is not above that of [x]; or only [w] is an array index; or
    neither is one and [w] was created before [x]. *)
Lemma for_in_order (o : JSObject.t) (l1 l2 : list string) (w x : string) :
  for_in o = l1 ++ w :: l2 ->
  In x l2 ->
  match array_index w, array_index x with
  | Some i, Some j => (i <= j)%N
  | Some _, None => True
  | None, Some _ => False
  | None, None => exists k1 k2, keys o = k1 ++ w :: k2 /\ In x k2
  end.
Proof.
  unfold for_in. intros E Hx.
  set (S := sort_indices (filter is_array_index (keys o))) in *.
  set (F := filter (fun k => negb (is_array_index k)) (keys o)) in *.
  assert (HS : forall y, In y S -> is_array_index y = true).
  { intros y Hy. apply sort_indices_in, filter_In in Hy. tauto. }
  assert (HF : forall y, In y F -> is_array_index y = false).
  { intros y Hy. apply filter_In in Hy. now destruct (is_array_index y), Hy. }
  assert (Hidx : forall y, is_array_index y = true ->
                           array_index y = Some (index_value y)).
  { intros y. unfold is_array_index, index_value.
    now destruct (array_index y). }
  assert (Hnon : forall y, is_array_index y = false -> array_index y = None).
  { intros y. unfold is_array_index. now destruct (array_index y). }
  assert (Hlate : forall l, F = l ++ w :: l2 ->
            array_index w = None /\ array_index x = None /\
            exists k1 k2, keys o = k1 ++ w :: k2 /\ In x k2).
  { intros l El. split; [| split].
    - apply Hnon, HF. rewrite El. apply in_or_app. right. now left.
    - apply Hnon, HF. rewrite El. apply in_or_app. right. now right.
    - destruct (filter_split _ _ _ _ _ El) as (k1 & k2 & Ek & _ & <-).
      exists k1, k2. split; [exact Ek |]. apply filter_In in Hx. tauto. }
  apply app_eq_app in E. destruct E as [l [[E1 E2] | [E1 E2]]].
  - destruct l as [|y l]; simpl in E2.
    + destruct (Hlate [] (eq_sym E2)) as (-> & -> & H). exact H.
    + injection E2 as <- ->.
      assert (Hw : array_index w = Some (index_value w)).
      { apply Hidx, HS. rewrite E1. apply in_or_app. right. now left. }
      rewrite Hw. apply in_app_or in Hx. destruct Hx as [Hx | Hx].
      * assert (Hxi : array_index x = Some (index_value x)).
        { apply Hidx, HS. rewrite E1. apply in_or_app. right. now right. }
        rewrite Hxi. apply (sort_indices_ascending _ l1 w l x E1 Hx).
      * now rewrite (Hnon x (HF x Hx)).
  - destruct (Hlate l E2) as (-> & -> & H). exact H.
Qed.

End ObjectFacts.

(* ================================================================= *)
(** ** KNNClassifier: the vote *)

Module VoteFacts.

Import Utils JSObject KNNClassifier Tally Rescale.

(** *** The tally on keys that [Object.prototype] does not define *)

Lemma vote_plain (E : JS.engine) (carry : JSObject.t) (n : labelled) :
  inherited (JS.ToString E (label n)) = false ->
  vote E carry n = tally_step carry (JS.ToString E (label n)).
Proof.
  intros H. unfold vote, tally_step. rewrite H.
  destruct (String.eqb_spec (JS.ToString E (label n)) "__proto__") as [Heq | _].
  - rewrite Heq in H. discriminate.
  - reflexivity.
Qed.

Lemma getVotes_plain (E : JS.engine) : forall neighbors carry,
  Forall (fun n => inherited (JS.ToString E (label n)) = false) neighbors ->
  fold_left (vote E) neighbors carry
  = fold_left tally_step (map (fun n => JS.ToString E (label n)) neighbors) carry.
Proof.
  induction neighbors as [|n rest IH]; intros carry H; simpl; [reflexivity |].
  apply Forall_cons_iff in H. destruct H as [Hn Hrest].
  now rewrite vote_plain, IH.
Qed.

Lemma tally_lookup : forall ks carry key,
  lookup (fold_left tally_step ks carry) key
  = match lookup carry key with
    | None => match votes_for ks key with 0 => None | S n => Some (Count (S n)) end
    | Some (Count v) => Some (Count (v + votes_for ks key))
    | Some NotANumber => Some NotANumber
    end.
Proof.
  unfold votes_for.
  induction ks as [|k rest IH]; intros carry key; simpl fold_left.
  - simpl. destruct (lookup carry key) as [[v|]|]; try reflexivity.
    now rewrite Nat.add_0_r.
  - rewrite IH. unfold tally_step at 1. rewrite ObjectFacts.lookup_assign.
    destruct (String.eqb_spec k key) as [-> | Hne].
    + rewrite count_occ_cons_eq by reflexivity.
      destruct (lookup carry key) as [[v|]|]; try reflexivity.
      f_equal. f_equal. lia.
    + now rewrite count_occ_cons_neq by exact Hne.
Qed.

Lemma existsb_eqb (key : string) (acc : list string) :
  existsb (String.eqb key) acc = true <-> In key acc.
Proof.
  rewrite existsb_exists. split.
  - intros (x & Hx & He). apply String.eqb_eq in He. now subst.
  - intros H. exists key. split; [exact H | apply String.eqb_refl].
Qed.

Lemma tally_keys : forall ks carry,
  keys (fold_left tally_step ks carry) = fold_left first_seen ks (keys carry).
Proof.
  induction ks as [|k rest IH]; intros carry; simpl; [reflexivity |].
  rewrite IH. f_equal. unfold tally_step, first_seen. rewrite ObjectFacts.keys_assign.
  destruct (lookup carry k) eqn:El.
  - assert (Hin : In k (keys carry)).
    { destruct (in_dec string_dec k (keys carry)) as [Hin | Hout]; [exact Hin |].
      apply ObjectFacts.lookup_none in Hout. congruence. }
    apply existsb_eqb in Hin. now rewrite Hin.
  - apply ObjectFacts.lookup_none in El.
    destruct (existsb (String.eqb k) (keys carry)) eqn:Ee; [| reflexivity].
    apply existsb_eqb in Ee. contradiction.
Qed.

Lemma NoDup_disjoint (A : Type) (l1 l2 : list A) (x : A) :
  NoDup (l1 ++ l2) -> In x l1 -> ~ In x l2.
Proof.
  induction l1 as [|y l1 IH]; simpl; intros Hnd Hin Hin2; [contradiction |].
  inversion Hnd as [|? ? Hy Hnd']; subst.
  destruct Hin as [-> | Hin].
  - apply Hy. apply in_or_app. now right.
  - now apply IH.
Qed.

Lemma first_seen_order : forall ks acc,
  NoDup acc ->
  exists tail,
    fold_left first_seen ks acc = acc ++ tail /\
    NoDup (acc ++ tail) /\
    (forall x, In x tail -> In x ks) /\
    (forall x, In x ks -> In x (acc ++ tail)) /\
    (forall t1 a t2 b, tail = t1 ++ a :: t2 -> In b t2 -> encountered_first ks a b).
Proof.
  induction ks as [|k rest IH]; intros acc Hnd; simpl.
  - exists []. rewrite app_nil_r. repeat split; auto; try contradiction.
    intros [|? ?] a t2 b H; discriminate.
  - unfold first_seen at 2.
    destruct (existsb (String.eqb k) acc) eqn:Ek.
    + apply existsb_eqb in Ek.
      destruct (IH acc Hnd) as (tail & Hf & Hn & Hin & Hall & Hord).
      exists tail. repeat split; auto.
      * intros x [<- | Hx]; [apply in_or_app; now left | now apply Hall].
      * intros t1 a t2 b Ht Hb.
        destruct (Hord t1 a t2 b Ht Hb) as (p1 & p2 & -> & Hnb).
        exists (k :: p1), p2. split; [reflexivity |].
        intros [<- | Hb1]; [| contradiction].
        apply (NoDup_disjoint _ _ k Hn Ek). rewrite Ht.
        apply in_or_app. right. now right.
    + assert (Hk : ~ In k acc).
      { intros Hin. apply existsb_eqb in Hin. congruence. }
      assert (Hnd' : NoDup (acc ++ [k])).
      { apply NoDup_app; auto.
        - constructor; [intros [] | constructor].
        - intros a Ha [<- | []]. contradiction. }
      destruct (IH (acc ++ [k]) Hnd') as (tail & Hf & Hn & Hin & Hall & Hord).
      pose proof Hn as Hn0.
      exists (k :: tail). rewrite <- app_assoc in Hf, Hn. simpl in Hf, Hn.
      split; [exact Hf |]. split; [exact Hn |]. split; [| split].
      * intros x [<- | Hx]; [now left | right; now apply Hin].
      * intros x [<- | Hx].
        -- apply in_or_app. right. now left.
        -- specialize (Hall x Hx). rewrite <- app_assoc in Hall. exact Hall.
      * intros t1 a t2 b Ht Hb. destruct t1 as [|y t1]; simpl in Ht.
        -- injection Ht as <- <-. exists [], rest. now split.
        -- injection Ht as <- Ht.
           destruct (Hord t1 a t2 b Ht Hb) as (p1 & p2 & -> & Hnb).
           exists (k :: p1), p2. split; [reflexivity |].
           intros [<- | Hb1]; [| contradiction].
           assert (Hka : In k (acc ++ [k])) by (apply in_or_app; right; now left).
           apply (NoDup_disjoint _ _ k Hn0 Hka). rewrite Ht.
           apply in_or_app. right. now right.
Qed.

(** *** The selection loop *)

(** The loop keeps the first key whose count exceeds every count before
    it. *)
Lemma select_first_maximum (votes : JSObject.t) : forall l best m,
  let r := fold_left (select_step votes) l (best, m) in
  (r = (best, m) /\ forall x, In x l -> count_of votes x <= m)
  \/
  (exists l1 w l2,
     l = l1 ++ w :: l2 /\ r = (Some w, count_of votes w) /\ m < count_of votes w /\
     (forall x, In x l1 -> count_of votes x < count_of votes w) /\
     (forall x, In x l2 -> count_of votes x <= count_of votes w)).
Proof.
  induction l as [|x rest IH]; intros best m; cbv zeta.
  - left. split; [reflexivity | intros x []].
  - change (fold_left (select_step votes) (x :: rest) (best, m))
      with (fold_left (select_step votes) rest (select_step votes (best, m) x)).
    assert (Hstep : select_step votes (best, m) x
                    = if m <? count_of votes x then (Some x, count_of votes x)
                      else (best, m)).
    { unfold select_step, count_of.
      destruct (lookup votes x) as [[n|]|]; try reflexivity. }
    rewrite Hstep. destruct (Nat.ltb_spec m (count_of votes x)) as [Hlt | Hge].
    + destruct (IH (Some x) (count_of votes x)) as [[Hr Hall] | Hex].
      * right. exists [], x, rest. repeat split; auto. intros y [].
      * destruct Hex as (l1 & w & l2 & -> & Hr & Hm & Hb & Ha).
        right. exists (x :: l1), w, l2. repeat split; auto; try lia.
        intros y [<- | Hy]; [exact Hm | now apply Hb].
    + destruct (IH best m) as [[Hr Hall] | Hex].
      * left. split; [exact Hr |]. intros y [<- | Hy]; [exact Hge | now apply Hall].
      * destruct Hex as (l1 & w & l2 & -> & Hr & Hm & Hb & Ha).
        right. exists (x :: l1), w, l2. repeat split; auto.
        intros y [<- | Hy]; [lia | now apply Hb].
Qed.

Lemma select_is_loop (votes : JSObject.t) :
  select votes = fold_left (select_step votes) (for_in votes) (None, 0).
Proof.
  unfold select.
  assert (H : forall l acc,
            fold_left (fun '(predictedLabel, maxVotes) label =>
                         match lookup votes label with
                         | Some (Count n) =>
                             if maxVotes <? n then (Some label, n)
                             else (predictedLabel, maxVotes)
                         | _ => (predictedLabel, maxVotes)
                         end) l acc
            = fold_left (select_step votes) l acc).
  { induction l as [|x l IH]; intros [best m]; simpl; [reflexivity | apply IH]. }
  apply H.
Qed.

(** *** The prediction *)

Lemma votes_for_positive (ks : list string) (key : string) :
  In key ks <-> 0 < votes_for ks key.
Proof. unfold votes_for. apply count_occ_In. Qed.

(** The vote over keys that [Object.prototype] does not define. *)
Lemma vote_result (ks : list string) :
  ks <> [] ->
  exists winner,
    select (fold_left tally_step ks []) = (Some winner, votes_for ks winner) /\
    In winner ks /\
    (forall key, votes_for ks key <= votes_for ks winner) /\
    (forall key, In key ks -> votes_for ks key = votes_for ks winner ->
                 key = winner \/ tie_break ks winner key).
Proof.
  intros Hne.
  set (votes := fold_left tally_step ks []).
  assert (Hcount : forall key, count_of votes key = votes_for ks key).
  { intros key. unfold count_of, votes. rewrite tally_lookup. simpl.
    now destruct (votes_for ks key). }
  destruct (first_seen_order ks (NoDup_nil string))
    as (tail & Hkeys & Hnd & Htail & Hall & Hord).
  simpl in Hkeys, Hnd, Hall.
  assert (Hk : keys votes = tail).
  { unfold votes. rewrite tally_keys. exact Hkeys. }
  assert (Hin : forall x, In x (for_in votes) <-> In x ks).
  { intros x. rewrite ObjectFacts.for_in_in, Hk. split; auto. }
  rewrite select_is_loop.
  destruct (select_first_maximum votes (for_in votes) None 0)
    as [[_ Hzero] | (l1 & w & l2 & Hl & Hr & Hm & Hbefore & Hafter)].
  - exfalso. destruct ks as [|k rest]; [congruence |].
    assert (Hkin : In k (k :: rest)) by now left.
    pose proof (proj1 (votes_for_positive (k :: rest) k) Hkin) as Hpos.
    apply Hin in Hkin. specialize (Hzero k Hkin). rewrite Hcount in Hzero. lia.
  - exists w. rewrite Hr, Hcount.
    assert (Hw : In w ks).
    { apply Hin. rewrite Hl. apply in_or_app. right. now left. }
    assert (Hcases : forall key, In key ks ->
              (In key l1 /\ votes_for ks key < votes_for ks w) \/ key = w \/
              (In key l2 /\ votes_for ks key <= votes_for ks w)).
    { intros key Hkey. apply Hin in Hkey. rewrite Hl in Hkey.
      apply in_app_or in Hkey. destruct Hkey as [H1 | [<- | H2]].
      - left. split; [exact H1 |]. rewrite <- !Hcount. now apply Hbefore.
      - right. now left.
      - right. right. split; [exact H2 |]. rewrite <- !Hcount. now apply Hafter. }
    split; [reflexivity |]. split; [exact Hw |]. split.
    + intros key. destruct (in_dec string_dec key ks) as [Hkey | Hout].
      * destruct (Hcases key Hkey) as [[_ H] | [-> | [_ H]]]; lia.
      * assert (votes_for ks key = 0); [| lia].
        destruct (votes_for ks key) eqn:Ev; [reflexivity |].
        exfalso. apply Hout. apply votes_for_positive. lia.
    + intros key Hkey Heq.
      destruct (Hcases key Hkey) as [[_ H] | [-> | [H2 _]]]; [lia | now left |].
      right. unfold tie_break.
      pose proof (ObjectFacts.for_in_order votes l1 l2 w key Hl H2) as Ho.
      destruct (array_index w), (array_index key); try exact Ho.
      destruct Ho as (k1 & k2 & Ek & Hk2). rewrite Hk in Ek.
      now apply (Hord k1 w k2 key).
Qed.

Lemma neighbor_labels_plain (E : JS.engine) (c : KNNClassifier.t) (pt : list float) :
  Forall (fun l => inherited (JS.ToString E l) = false) (trainingLabels c) ->
  Forall (fun n => inherited (JS.ToString E (label n)) = false)
         (findNearestNeighbors E c pt).
Proof.
  intros H. unfold findNearestNeighbors. apply Forall_map, Forall_forall.
  intros e _. simpl.
  destruct (nth_in_or_default (index e) (trainingLabels c) JS.VUndefined) as [Hin | ->].
  - rewrite Forall_forall in H. now apply H.
  - reflexivity.
Qed.

Lemma neighbors_found (E : JS.engine) (c : KNNClassifier.t) (pt : list float) :
  trainingFeatures c <> [] -> k c <> Some 0 -> findNearestNeighbors E c pt <> [].
Proof.
  intros Hf Hk Hnil. apply (f_equal (@length _)) in Hnil.
  unfold findNearestNeighbors in Hnil.
  rewrite length_map, SearchFacts.nearestPoints_length in Hnil. simpl in Hnil.
  destruct (trainingFeatures c) as [|p rest]; [congruence |].
  destruct (k c) as [[|n]|]; simpl in Hnil; congruence.
Qed.

End VoteFacts.

(* ================================================================= *)
(** ** Numbers: order, differences and NaN *)

Module NumberFacts.

Import Rank.

Local Open Scope Z_scope.
Local Unset Implicit Arguments.

(** The facts below are read off the bit-level specification of binary64
    ([SpecFloat]), to which the primitive operations are tied by
    [FloatAxioms]. *)

Lemma digits2_bounds (m : positive) :
  2 ^ (Zpos (digits2_pos m) - 1) <= Zpos m < 2 ^ Zpos (digits2_pos m).
Proof.
  induction m as [m IH | m IH |]; simpl digits2_pos.
  - rewrite Pos2Z.inj_succ. replace (Z.succ (Zpos (digits2_pos m)) - 1) with (Z.succ (Zpos (digits2_pos m) - 1)) by lia.
    rewrite !Z.pow_succ_r by lia. lia.
  - rewrite Pos2Z.inj_succ. replace (Z.succ (Zpos (digits2_pos m)) - 1) with (Z.succ (Zpos (digits2_pos m) - 1)) by lia.
    rewrite !Z.pow_succ_r by lia. lia.
  - simpl. lia.
Qed.

Lemma bounded_range (m : positive) (e : Z) :
  bounded prec emax m e = true ->
  -1074 <= e <= 971 /\ Zpos (digits2_pos m) <= 53 /\
  (-1074 < e -> Zpos (digits2_pos m) = 53).
Proof.
  unfold bounded, canonical_mantissa, fexp, SpecFloat.emin, prec, emax.
  intros H. apply andb_true_iff in H. destruct H as [Hc He].
  apply Z.eqb_eq in Hc. apply Z.leb_le in He. lia.
Qed.

Lemma finite_rank_bounds (m : positive) (e : Z) :
  bounded prec emax m e = true ->
  0 < Zpos m * 2 ^ (e + 1074) < 2 ^ 2100.
Proof.
  intros H. destruct (bounded_range m e H) as (He & Hd & _).
  pose proof (digits2_bounds m) as [_ Hm].
  assert (Hp : 0 < 2 ^ (e + 1074)) by (apply Z.pow_pos_nonneg; lia).
  split; [lia |].
  assert (H53 : Zpos m < 2 ^ 53).
  { eapply Z.lt_le_trans; [exact Hm |]. apply Z.pow_le_mono_r; lia. }
  assert (H2045 : 2 ^ (e + 1074) <= 2 ^ 2045) by (apply Z.pow_le_mono_r; lia).
  replace (2 ^ 2100) with (2 ^ 53 * 2 ^ 2047) by (rewrite <- Z.pow_add_r by lia; reflexivity).
  assert (2 ^ 2045 < 2 ^ 2047) by (apply Z.pow_lt_mono_r; lia).
  assert (0 < 2 ^ 53) by (apply Z.pow_pos_nonneg; lia).
  nia.
Qed.

Lemma scaled_lt (m1 m2 : positive) (e1 e2 : Z) :
  bounded prec emax m1 e1 = true ->
  bounded prec emax m2 e2 = true ->
  e1 < e2 ->
  Zpos m1 * 2 ^ (e1 + 1074) < Zpos m2 * 2 ^ (e2 + 1074).
Proof.
  intros H1 H2 Hlt.
  destruct (bounded_range m1 e1 H1) as (He1 & Hd1 & _).
  destruct (bounded_range m2 e2 H2) as (He2 & _ & Hd2).
  pose proof (digits2_bounds m1) as [_ Hm1].
  pose proof (digits2_bounds m2) as [Hm2 _].
  assert (H53 : Zpos m1 < 2 ^ 53).
  { eapply Z.lt_le_trans; [exact Hm1 |]. apply Z.pow_le_mono_r; lia. }
  assert (H52 : 2 ^ 52 <= Zpos m2).
  { rewrite Hd2 in Hm2 by lia. exact Hm2. }
  replace (e2 + 1074) with ((e1 + 1074) + (e2 - e1)) by lia.
  rewrite (Z.pow_add_r 2 (e1 + 1074) (e2 - e1)) by lia.
  assert (HA : 0 < 2 ^ (e1 + 1074)) by (apply Z.pow_pos_nonneg; lia).
  assert (HK : 2 ^ 1 <= 2 ^ (e2 - e1)) by (apply Z.pow_le_mono_r; lia).
  assert (E53 : 2 ^ 53 = 2 * 2 ^ 52) by reflexivity.
  assert (E1 : 2 ^ 1 = 2) by reflexivity.
  rewrite E53 in H53. rewrite E1 in HK.
  set (A := 2 ^ (e1 + 1074)) in *. set (K := 2 ^ (e2 - e1)) in *.
  set (P := 2 ^ 52) in *.
  assert (S1 : Zpos m1 * A < 2 * P * A) by (apply Z.mul_lt_mono_pos_r; lia).
  assert (S2 : 2 * P * A <= 2 * Zpos m2 * A) by (apply Z.mul_le_mono_nonneg_r; lia).
  assert (S3 : 0 <= Zpos m2 * A) by (apply Z.mul_nonneg_nonneg; lia).
  assert (S4 : 2 * (Zpos m2 * A) <= K * (Zpos m2 * A))
    by (apply Z.mul_le_mono_nonneg_r; lia).
  lia.
Qed.

Lemma scaled_compare (m1 m2 : positive) (e1 e2 : Z) :
  bounded prec emax m1 e1 = true ->
  bounded prec emax m2 e2 = true ->
  match Z.compare e1 e2 with
  | Lt => Lt
  | Gt => Gt
  | Eq => Pos.compare_cont Eq m1 m2
  end
  = (Zpos m1 * 2 ^ (e1 + 1074) ?= Zpos m2 * 2 ^ (e2 + 1074)).
Proof.
  intros H1 H2. symmetry.
  destruct (Z.compare_spec e1 e2) as [-> | Hlt | Hgt].
  - destruct (bounded_range m2 e2 H2) as (He2 & _).
    assert (HA : 0 < 2 ^ (e2 + 1074)) by (apply Z.pow_pos_nonneg; lia).
    change (Pos.compare_cont Eq m1 m2) with (Pos.compare m1 m2).
    destruct (Pos.compare_spec m1 m2) as [-> | Hm | Hm].
    + apply Z.compare_refl.
    + apply Z.compare_lt_iff. apply Z.mul_lt_mono_pos_r; lia.
    + apply Z.compare_gt_iff. apply Z.mul_lt_mono_pos_r; lia.
  - apply Z.compare_lt_iff. now apply scaled_lt.
  - apply Z.compare_gt_iff. now apply scaled_lt.
Qed.

Lemma compare_rank (x y : spec_float) :
  valid x -> valid y -> x <> S754_nan -> y <> S754_nan ->
  SFcompare x y = Some (rank x ?= rank y).
Proof.
  unfold valid.
  assert (Hinf : 0 < inf_rank) by reflexivity.
  intros Hx Hy Nx Ny.
  destruct x as [sx | sx | | sx mx ex], y as [sy | sy | | sy my ey];
    try congruence; simpl in Hx, Hy; unfold SFcompare, rank;
    fold inf_rank; f_equal;
    try (pose proof (finite_rank_bounds mx ex Hx) as Hbx; fold inf_rank in Hbx);
    try (pose proof (finite_rank_bounds my ey Hy) as Hby; fold inf_rank in Hby).
  all: try solve [ try destruct sx; try destruct sy; unfold cond_Zopp; symmetry;
                   first [ apply Z.compare_lt_iff; lia
                         | apply Z.compare_gt_iff; lia
                         | apply Z.compare_eq_iff; lia ] ].
  destruct sx, sy; unfold cond_Zopp.
  - rewrite Z.compare_opp, <- (scaled_compare my mx ey ex Hy Hx).
    rewrite (Z.compare_antisym ey ex), (Pos.compare_cont_antisym).
    destruct (ey ?= ex); reflexivity.
  - symmetry. apply Z.compare_lt_iff. lia.
  - symmetry. apply Z.compare_gt_iff. lia.
  - now apply scaled_compare.
Qed.

(** *** Subtraction *)

Lemma iter_xO (m d : positive) : Zpos (Pos.iter xO m d) = Zpos m * 2 ^ Zpos d.
Proof.
  induction d as [|d IH] using Pos.peano_ind.
  - simpl Pos.iter. change (2 ^ 1) with 2. lia.
  - rewrite Pos.iter_succ, Pos2Z.inj_succ, Z.pow_succ_r by lia.
    rewrite Pos2Z.inj_xO, IH. lia.
Qed.

Lemma shl_align_value (m : positive) (e ez : Z) :
  ez <= e -> Zpos (fst (shl_align m e ez)) = Zpos m * 2 ^ (e - ez).
Proof.
  intros H. unfold shl_align. destruct (ez - e) as [|d|d] eqn:E; simpl fst.
  - replace (e - ez) with 0 by lia. lia.
  - lia.
  - rewrite iter_xO. f_equal. f_equal. lia.
Qed.

(** The integer whose rounding is the difference of two finite numbers has
    the sign of the difference of their ranks. *)
Lemma difference_scaled (sx sy : bool) (mx my : positive) (ex ey : Z) :
  -1074 <= ex -> -1074 <= ey ->
  let ez := Z.min ex ey in
  (cond_Zopp sx (Zpos (fst (shl_align mx ex ez)))
   - cond_Zopp sy (Zpos (fst (shl_align my ey ez)))) * 2 ^ (ez + 1074)
  = rank (S754_finite sx mx ex) - rank (S754_finite sy my ey).
Proof.
  intros Hx Hy ez. unfold rank.
  rewrite !shl_align_value by (unfold ez; lia).
  replace (ex + 1074) with ((ex - ez) + (ez + 1074)) by lia.
  replace (ey + 1074) with ((ey - ez) + (ez + 1074)) by lia.
  rewrite (Z.pow_add_r 2 (ex - ez) (ez + 1074)) by (unfold ez; lia).
  rewrite (Z.pow_add_r 2 (ey - ez) (ez + 1074)) by (unfold ez; lia).
  destruct sx, sy; unfold cond_Zopp; lia.
Qed.

(** *** Rounding never flushes a non-zero integer to zero *)

Lemma shr_1_m (mrs : shr_record) :
  0 <= shr_m mrs -> shr_m (shr_1 mrs) = shr_m mrs / 2.
Proof.
  destruct mrs as [m r s]. simpl. intros H.
  destruct m as [|[p|p|]|p]; simpl; try lia; try reflexivity.
  - rewrite Pos2Z.inj_xI. apply Z.div_unique with (r := 1); lia.
  - rewrite Pos2Z.inj_xO. apply Z.div_unique with (r := 0); lia.
Qed.

Lemma iter_shr_m (q : positive) : forall mrs,
  0 <= shr_m mrs -> shr_m (iter_pos shr_1 q mrs) = shr_m mrs / 2 ^ Zpos q.
Proof.
  assert (Hnn : forall mrs, 0 <= shr_m mrs -> 0 <= shr_m (shr_1 mrs)).
  { intros mrs H. rewrite shr_1_m by exact H. apply Z.div_pos; lia. }
  induction q as [q IH | q IH |]; intros mrs H; simpl iter_pos.
  - assert (H1 : 0 <= shr_m (shr_1 mrs)) by now apply Hnn.
    assert (H2 : 0 <= shr_m (iter_pos shr_1 q (shr_1 mrs))).
    { rewrite IH by exact H1. apply Z.div_pos; [exact H1 |]. apply Z.pow_pos_nonneg; lia. }
    rewrite IH by exact H2. rewrite IH by exact H1. rewrite shr_1_m by exact H.
    rewrite !Z.div_div by (try apply Z.pow_pos_nonneg; lia).
    f_equal. rewrite (Pos2Z.inj_xI q).
    replace (2 * Zpos q + 1) with (1 + Zpos q + Zpos q) by lia.
    rewrite !Z.pow_add_r by lia. change (2 ^ 1) with 2. lia.
  - assert (H2 : 0 <= shr_m (iter_pos shr_1 q mrs)).
    { rewrite IH by exact H. apply Z.div_pos; [exact H |]. apply Z.pow_pos_nonneg; lia. }
    rewrite IH by exact H2. rewrite IH by exact H.
    rewrite !Z.div_div by (try apply Z.pow_pos_nonneg; lia).
    f_equal. rewrite (Pos2Z.inj_xO q).
    replace (2 * Zpos q) with (Zpos q + Zpos q) by lia.
    rewrite !Z.pow_add_r by lia. lia.
  - now apply shr_1_m.
Qed.

Lemma shr_record_of_loc_m (m : Z) (l : location) : shr_m (shr_record_of_loc m l) = m.
Proof. destruct l as [|[ | | ]]; reflexivity. Qed.

Lemma shr_fexp_positive (m : positive) (e : Z) (l : location) :
  -1074 <= e ->
  (exists m', shr_m (fst (shr_fexp prec emax (Zpos m) e l)) = Zpos m') /\
  -1074 <= snd (shr_fexp prec emax (Zpos m) e l).
Proof.
  intros He. unfold shr_fexp, shr, fexp, SpecFloat.emin, prec, emax. simpl Zdigits2.
  pose proof (digits2_bounds m) as [Hlow _].
  set (d := Zpos (digits2_pos m)) in *.
  destruct (Z.max (d + e - 53) (3 - 1024 - 53) - e) as [|q|q] eqn:En; simpl fst; simpl snd.
  - rewrite shr_record_of_loc_m. split; [now exists m | exact He].
  - split; [| lia].
    rewrite iter_shr_m by (rewrite shr_record_of_loc_m; lia).
    rewrite shr_record_of_loc_m.
    assert (Hq : Zpos q <= d - 1) by lia.
    assert (Hpow : 2 ^ Zpos q <= Zpos m).
    { eapply Z.le_trans; [| exact Hlow]. apply Z.pow_le_mono_r; lia. }
    assert (Hpos : 0 < 2 ^ Zpos q) by (apply Z.pow_pos_nonneg; lia).
    assert (Hdiv : 1 <= Zpos m / 2 ^ Zpos q).
    { apply Z.div_le_lower_bound; lia. }
    destruct (Zpos m / 2 ^ Zpos q) as [|m'|m']; try lia. now exists m'.
  - rewrite shr_record_of_loc_m. split; [now exists m | exact He].
Qed.

Lemma round_nearest_even_positive (m : positive) (l : location) :
  exists m', round_nearest_even (Zpos m) l = Zpos m'.
Proof.
  destruct l as [|[ | | ]]; simpl; try (now eexists).
  destruct m; simpl; now eexists.
Qed.

Lemma binary_round_aux_sign (s : bool) (m : positive) (e : Z) (l : location) :
  -1074 <= e ->
  (exists m' e', binary_round_aux prec emax s (Zpos m) e l = S754_finite s m' e') \/
  binary_round_aux prec emax s (Zpos m) e l = S754_infinity s.
Proof.
  intros He. unfold binary_round_aux.
  destruct (shr_fexp_positive m e l He) as [[m1 H1] He1].
  destruct (shr_fexp prec emax (Zpos m) e l) as [mrs1 e1]. simpl in H1, He1.
  rewrite H1.
  destruct (round_nearest_even_positive m1 (loc_of_shr_record mrs1)) as [m2 H2].
  rewrite H2.
  destruct (shr_fexp_positive m2 e1 loc_Exact He1) as [[m3 H3] He3].
  destruct (shr_fexp prec emax (Zpos m2) e1 loc_Exact) as [mrs3 e3]. simpl in H3, He3.
  rewrite H3.
  destruct (e3 <=? emax - prec); [left; now eexists; eexists | now right].
Qed.

Lemma binary_round_sign (s : bool) (m : positive) (e : Z) :
  -1074 <= e ->
  (exists m' e', binary_round prec emax s m e = S754_finite s m' e') \/
  binary_round prec emax s m e = S754_infinity s.
Proof.
  intros He. unfold binary_round.
  destruct (shl_align m e (fexp prec emax (Zpos (digits2_pos m) + e))) as [mz ez] eqn:E.
  apply binary_round_aux_sign.
  unfold shl_align in E.
  destruct (fexp prec emax (Zpos (digits2_pos m) + e) - e) eqn:Ed;
    injection E as _ <-; try exact He.
  unfold fexp, SpecFloat.emin, prec, emax. lia.
Qed.

(** The sign of a difference. *)
Lemma sub_negative (x y : spec_float) :
  valid x -> valid y -> x <> S754_nan -> y <> S754_nan ->
  SFltb (SFsub prec emax x y) (S754_zero false) = (rank x <? rank y).
Proof.
  unfold valid.
  assert (Hinf : 0 < inf_rank) by reflexivity.
  intros Hx Hy Nx Ny.
  destruct x as [sx | sx | | sx mx ex], y as [sy | sy | | sy my ey];
    try congruence; simpl in Hx, Hy;
    try (pose proof (finite_rank_bounds mx ex Hx) as Hbx; fold inf_rank in Hbx);
    try (pose proof (finite_rank_bounds my ey Hy) as Hby; fold inf_rank in Hby).
  9: { destruct (bounded_range mx ex Hx) as (Hex & _).
       destruct (bounded_range my ey Hy) as (Hey & _).
       pose proof (difference_scaled sx sy mx my ex ey (proj1 Hex) (proj1 Hey)) as Hd.
       cbv zeta in Hd. unfold SFsub.
       set (ez := Z.min ex ey) in *.
       assert (Hp : 0 < 2 ^ (ez + 1074)) by (apply Z.pow_pos_nonneg; unfold ez; lia).
       set (M := cond_Zopp sx (Zpos (fst (shl_align mx ex ez)))
                 - cond_Zopp sy (Zpos (fst (shl_align my ey ez)))) in *.
       destruct M as [|p|p] eqn:EM; unfold binary_normalize.
       - symmetry. apply Z.ltb_ge. lia.
       - assert (Hge : (rank (S754_finite sx mx ex) <? rank (S754_finite sy my ey)) = false).
         { apply Z.ltb_ge. nia. }
         rewrite Hge.
         destruct (binary_round_sign false p ez) as [(m' & e' & ->) | ->];
           [unfold ez; lia | reflexivity | reflexivity].
       - assert (Hlt : (rank (S754_finite sx mx ex) <? rank (S754_finite sy my ey)) = true).
         { apply Z.ltb_lt. nia. }
         rewrite Hlt.
         destruct (binary_round_sign true p ez) as [(m' & e' & ->) | ->];
           [unfold ez; lia | reflexivity | reflexivity]. }
  all: unfold SFsub, rank; fold inf_rank;
    try destruct sx; try destruct sy; unfold cond_Zopp, SFltb, SFcompare;
    symmetry; first [ apply Z.ltb_lt; lia | apply Z.ltb_ge; lia ].
Qed.

(** The sign of a difference, from above. *)
Lemma sub_above (x y : spec_float) :
  valid x -> valid y -> x <> S754_nan -> y <> S754_nan ->
  SFltb (S754_zero false) (SFsub prec emax x y) = (rank y <? rank x).
Proof.
  unfold valid.
  assert (Hinf : 0 < inf_rank) by reflexivity.
  intros Hx Hy Nx Ny.
  destruct x as [sx | sx | | sx mx ex], y as [sy | sy | | sy my ey];
    try congruence; simpl in Hx, Hy;
    try (pose proof (finite_rank_bounds mx ex Hx) as Hbx; fold inf_rank in Hbx);
    try (pose proof (finite_rank_bounds my ey Hy) as Hby; fold inf_rank in Hby).
  9: { destruct (bounded_range mx ex Hx) as (Hex & _).
       destruct (bounded_range my ey Hy) as (Hey & _).
       pose proof (difference_scaled sx sy mx my ex ey (proj1 Hex) (proj1 Hey)) as Hd.
       cbv zeta in Hd. unfold SFsub.
       set (ez := Z.min ex ey) in *.
       assert (Hp : 0 < 2 ^ (ez + 1074)) by (apply Z.pow_pos_nonneg; unfold ez; lia).
       set (M := cond_Zopp sx (Zpos (fst (shl_align mx ex ez)))
                 - cond_Zopp sy (Zpos (fst (shl_align my ey ez)))) in *.
       destruct M as [|p|p] eqn:EM; unfold binary_normalize.
       - symmetry. apply Z.ltb_ge. lia.
       - assert (Hlt : (rank (S754_finite sy my ey) <? rank (S754_finite sx mx ex)) = true).
         { apply Z.ltb_lt. nia. }
         rewrite Hlt.
         destruct (binary_round_sign false p ez) as [(m' & e' & ->) | ->];
           [unfold ez; lia | reflexivity | reflexivity].
       - assert (Hge : (rank (S754_finite sy my ey) <? rank (S754_finite sx mx ex)) = false).
         { apply Z.ltb_ge. nia. }
         rewrite Hge.
         destruct (binary_round_sign true p ez) as [(m' & e' & ->) | ->];
           [unfold ez; lia | reflexivity | reflexivity]. }
  all: unfold SFsub, rank; fold inf_rank;
    try destruct sx; try destruct sy; unfold cond_Zopp, SFltb, SFcompare;
    symmetry; first [ apply Z.ltb_lt; lia | apply Z.ltb_ge; lia ].
Qed.

(** Numbers of equal rank have no difference but zero or NaN. *)
Lemma sub_equal_rank (x y : spec_float) :
  valid x -> valid y -> x <> S754_nan -> y <> S754_nan ->
  rank x = rank y ->
  SFsub prec emax x y = S754_nan \/ exists s, SFsub prec emax x y = S754_zero s.
Proof.
  unfold valid.
  assert (Hinf : 0 < inf_rank) by reflexivity.
  intros Hx Hy Nx Ny.
  destruct x as [sx | sx | | sx mx ex], y as [sy | sy | | sy my ey];
    try congruence; simpl in Hx, Hy;
    try (pose proof (finite_rank_bounds mx ex Hx) as Hbx; fold inf_rank in Hbx);
    try (pose proof (finite_rank_bounds my ey Hy) as Hby; fold inf_rank in Hby).
  9: { intros Hr.
       destruct (bounded_range mx ex Hx) as (Hex & _).
       destruct (bounded_range my ey Hy) as (Hey & _).
       pose proof (difference_scaled sx sy mx my ex ey (proj1 Hex) (proj1 Hey)) as Hd.
       cbv zeta in Hd. unfold SFsub.
       set (ez := Z.min ex ey) in *.
       assert (Hp : 0 < 2 ^ (ez + 1074)) by (apply Z.pow_pos_nonneg; unfold ez; lia).
       set (M := cond_Zopp sx (Zpos (fst (shl_align mx ex ez)))
                 - cond_Zopp sy (Zpos (fst (shl_align my ey ez)))) in *.
       assert (HM : M = 0) by nia.
       rewrite HM. right. now exists false. }
  all: unfold rank; fold inf_rank; try destruct sx; try destruct sy;
    unfold cond_Zopp; intros Hr; try lia; simpl;
    first [ now left | right; now eexists ].
Qed.


Lemma compare_refl (x : spec_float) :
  x <> S754_nan -> SFcompare x x = Some Eq.
Proof.
  intros H. destruct x as [s | s | | s m e]; try congruence; simpl.
  - reflexivity.
  - now destruct s.
  - rewrite Z.compare_refl, Pos.compare_cont_refl. now destruct s.
Qed.

(** *** Primitive floats *)

Lemma is_nan_spec (x : float) : PrimFloat.is_nan x = true <-> Prim2SF x = S754_nan.
Proof.
  unfold PrimFloat.is_nan. rewrite FloatAxioms.eqb_spec. unfold SFeqb. split.
  - intros H. destruct (Prim2SF x) eqn:E; try reflexivity;
      rewrite <- E, compare_refl in H by (rewrite E; discriminate); discriminate.
  - intros ->. reflexivity.
Qed.

Lemma not_nan_spec (x : float) : PrimFloat.is_nan x = false <-> Prim2SF x <> S754_nan.
Proof.
  rewrite <- is_nan_spec. destruct (PrimFloat.is_nan x); split; congruence.
Qed.

Lemma is_nan_eq (x : float) : PrimFloat.is_nan x = true <-> x = nan.
Proof.
  rewrite is_nan_spec. split.
  - intros H. apply Prim2SF_inj. now rewrite H.
  - intros ->. reflexivity.
Qed.

Lemma ltb_rank (x y : float) :
  PrimFloat.is_nan x = false -> PrimFloat.is_nan y = false ->
  (x <? y)%float = (R x <? R y).
Proof.
  intros Hx Hy. apply not_nan_spec in Hx, Hy.
  rewrite FloatAxioms.ltb_spec. unfold SFltb, R.
  rewrite (compare_rank _ _ (Prim2SF_valid x) (Prim2SF_valid y) Hx Hy).
  unfold Z.ltb. now destruct (rank (Prim2SF x) ?= rank (Prim2SF y)).
Qed.

Lemma leb_rank (x y : float) :
  PrimFloat.is_nan x = false -> PrimFloat.is_nan y = false ->
  (x <=? y)%float = (R x <=? R y).
Proof.
  intros Hx Hy. apply not_nan_spec in Hx, Hy.
  rewrite FloatAxioms.leb_spec. unfold SFleb, R.
  rewrite (compare_rank _ _ (Prim2SF_valid x) (Prim2SF_valid y) Hx Hy).
  unfold Z.leb. now destruct (rank (Prim2SF x) ?= rank (Prim2SF y)).
Qed.

Lemma eqb_rank (x y : float) :
  PrimFloat.is_nan x = false -> PrimFloat.is_nan y = false ->
  (x =? y)%float = (R x =? R y).
Proof.
  intros Hx Hy. apply not_nan_spec in Hx, Hy.
  rewrite FloatAxioms.eqb_spec. unfold SFeqb, R.
  rewrite (compare_rank _ _ (Prim2SF_valid x) (Prim2SF_valid y) Hx Hy).
  destruct (Z.compare_spec (rank (Prim2SF x)) (rank (Prim2SF y))) as [E | H | H];
    symmetry; [now apply Z.eqb_eq | apply Z.eqb_neq; lia | apply Z.eqb_neq; lia].
Qed.

(** The comparator of the sort: the sign of [x - y]. *)
Lemma sub_ltb_zero (x y : float) :
  PrimFloat.is_nan x = false -> PrimFloat.is_nan y = false ->
  (x - y <? 0)%float = (R x <? R y).
Proof.
  intros Hx Hy. apply not_nan_spec in Hx, Hy.
  rewrite FloatAxioms.ltb_spec, FloatAxioms.sub_spec.
  change (Prim2SF 0) with (S754_zero false).
  apply sub_negative; auto; apply Prim2SF_valid.
Qed.

Lemma sub_gtb_zero (x y : float) :
  PrimFloat.is_nan x = false -> PrimFloat.is_nan y = false ->
  (0 <? x - y)%float = (R y <? R x).
Proof.
  intros Hx Hy. apply not_nan_spec in Hx, Hy.
  rewrite FloatAxioms.ltb_spec, FloatAxioms.sub_spec.
  change (Prim2SF 0) with (S754_zero false).
  apply sub_above; auto; apply Prim2SF_valid.
Qed.


(** NaN is absorbing. *)
Lemma nan_absorbing :
  (forall x, (nan + x)%float = nan) /\ (forall x, (x + nan)%float = nan) /\
  (forall x, (nan - x)%float = nan) /\ (forall x, (x - nan)%float = nan) /\
  (forall x, (nan * x)%float = nan) /\ (forall x, (x * nan)%float = nan) /\
  (forall x, (nan / x)%float = nan) /\ (forall x, (x / nan)%float = nan) /\
  PrimFloat.sqrt nan = nan.
Proof.
  repeat split; try intros x; apply is_nan_eq, is_nan_spec;
    rewrite ?FloatAxioms.add_spec, ?FloatAxioms.sub_spec, ?FloatAxioms.mul_spec, ?FloatAxioms.div_spec, ?FloatAxioms.sqrt_spec;
    change (Prim2SF nan) with S754_nan;
    try reflexivity; now destruct (Prim2SF x).
Qed.

End NumberFacts.

(* ================================================================= *)
(** ** utils.js: least and greatest values *)

Module MinMaxFacts.

Import Utils NumberFacts Rank Rescale.

Local Unset Implicit Arguments.


Lemma zero_rank (x : float) :
  PrimFloat.is_nan x = false -> PrimFloat.is_zero x = true -> R x = 0%Z.
Proof.
  intros Hn Hz. unfold PrimFloat.is_zero in Hz.
  rewrite eqb_rank in Hz by (exact Hn || reflexivity).
  apply Z.eqb_eq in Hz. exact Hz.
Qed.

Lemma rank_below_infinity (x : float) : (R x <= R infinity)%Z.
Proof.
  unfold R. change (rank (Prim2SF infinity)) with inf_rank.
  assert (Hinf : (0 < inf_rank)%Z) by reflexivity.
  pose proof (Prim2SF_valid x) as Hv.
  destruct (Prim2SF x) as [s | s | | s m e]; unfold rank; fold inf_rank; try lia.
  - destruct s; unfold cond_Zopp; lia.
  - simpl in Hv. pose proof (finite_rank_bounds m e Hv) as Hb. fold inf_rank in Hb.
    destruct s; unfold cond_Zopp; lia.
Qed.

Lemma rank_above_neg_infinity (x : float) : (R neg_infinity <= R x)%Z.
Proof.
  unfold R. change (rank (Prim2SF neg_infinity)) with (- inf_rank)%Z.
  assert (Hinf : (0 < inf_rank)%Z) by reflexivity.
  pose proof (Prim2SF_valid x) as Hv.
  destruct (Prim2SF x) as [s | s | | s m e]; unfold rank; fold inf_rank; try lia.
  - destruct s; unfold cond_Zopp; lia.
  - simpl in Hv. pose proof (finite_rank_bounds m e Hv) as Hb. fold inf_rank in Hb.
    destruct s; unfold cond_Zopp; lia.
Qed.

Lemma min_step_rank (lowest number : float) :
  PrimFloat.is_nan lowest = false -> PrimFloat.is_nan number = false ->
  PrimFloat.is_nan (min_step lowest number) = false /\
  R (min_step lowest number) = Z.min (R lowest) (R number).
Proof.
  intros Hl Hn. unfold min_step.
  destruct (is_neg_zero number && is_pos_zero lowest) eqn:Ez.
  - split; [exact Hn |].
    apply andb_true_iff in Ez. destruct Ez as [En El].
    unfold is_neg_zero in En. unfold is_pos_zero in El.
    apply andb_true_iff in En, El.
    rewrite (zero_rank number Hn (proj1 En)), (zero_rank lowest Hl (proj1 El)).
    reflexivity.
  - rewrite ltb_rank by assumption.
    destruct (Z.ltb_spec (R number) (R lowest)); split; auto; lia.
Qed.

Lemma max_step_rank (highest number : float) :
  PrimFloat.is_nan highest = false -> PrimFloat.is_nan number = false ->
  PrimFloat.is_nan (max_step highest number) = false /\
  R (max_step highest number) = Z.max (R highest) (R number).
Proof.
  intros Hh Hn. unfold max_step.
  destruct (is_pos_zero number && is_neg_zero highest) eqn:Ez.
  - split; [exact Hn |].
    apply andb_true_iff in Ez. destruct Ez as [En Eh].
    unfold is_pos_zero in En. unfold is_neg_zero in Eh.
    apply andb_true_iff in En, Eh.
    rewrite (zero_rank number Hn (proj1 En)), (zero_rank highest Hh (proj1 Eh)).
    reflexivity.
  - rewrite ltb_rank by assumption.
    destruct (Z.ltb_spec (R highest) (R number)); split; auto; lia.
Qed.

Lemma min_fold_rank : forall values lowest,
  PrimFloat.is_nan lowest = false ->
  existsb PrimFloat.is_nan values = false ->
  PrimFloat.is_nan (fold_left min_step values lowest) = false /\
  R (fold_left min_step values lowest)
  = fold_left Z.min (map R values) (R lowest).
Proof.
  induction values as [|v rest IH]; intros lowest Hl Hv; simpl; [now split |].
  simpl in Hv. apply orb_false_iff in Hv. destruct Hv as [Hv Hrest].
  destruct (min_step_rank lowest v Hl Hv) as [Hn Hr].
  destruct (IH (min_step lowest v) Hn Hrest) as [Hn' Hr'].
  split; [exact Hn' |]. now rewrite Hr', Hr.
Qed.

Lemma max_fold_rank : forall values highest,
  PrimFloat.is_nan highest = false ->
  existsb PrimFloat.is_nan values = false ->
  PrimFloat.is_nan (fold_left max_step values highest) = false /\
  R (fold_left max_step values highest)
  = fold_left Z.max (map R values) (R highest).
Proof.
  induction values as [|v rest IH]; intros highest Hh Hv; simpl; [now split |].
  simpl in Hv. apply orb_false_iff in Hv. destruct Hv as [Hv Hrest].
  destruct (max_step_rank highest v Hh Hv) as [Hn Hr].
  destruct (IH (max_step highest v) Hn Hrest) as [Hn' Hr'].
  split; [exact Hn' |]. now rewrite Hr', Hr.
Qed.

Lemma fold_min_below : forall (zs : list Z) (z0 : Z),
  (fold_left Z.min zs z0 <= z0)%Z /\
  (forall z, In z zs -> (fold_left Z.min zs z0 <= z)%Z).
Proof.
  induction zs as [|z rest IH]; intros z0; simpl.
  - split; [lia | intros z []].
  - destruct (IH (Z.min z0 z)) as [H0 Hall]. split; [lia |].
    intros w [<- | Hw]; [lia | now apply Hall].
Qed.

Lemma fold_max_above : forall (zs : list Z) (z0 : Z),
  (z0 <= fold_left Z.max zs z0)%Z /\
  (forall z, In z zs -> (z <= fold_left Z.max zs z0)%Z).
Proof.
  induction zs as [|z rest IH]; intros z0; simpl.
  - split; [lia | intros z []].
  - destruct (IH (Z.max z0 z)) as [H0 Hall]. split; [lia |].
    intros w [<- | Hw]; [lia | now apply Hall].
Qed.

(** [Math.min] and [Math.max]: NaN as soon as a value is NaN, else a number
    that no value is below, resp. above. *)
Lemma Math_min_nan (values : list float) :
  existsb PrimFloat.is_nan values = true -> Math_min values = nan.
Proof. intros H. unfold Math_min. now rewrite H. Qed.

Lemma Math_max_nan (values : list float) :
  existsb PrimFloat.is_nan values = true -> Math_max values = nan.
Proof. intros H. unfold Math_max. now rewrite H. Qed.

Lemma Math_min_rank (values : list float) :
  existsb PrimFloat.is_nan values = false ->
  PrimFloat.is_nan (Math_min values) = false /\
  R (Math_min values) = fold_left Z.min (map R values) (R infinity).
Proof.
  intros H. unfold Math_min. rewrite H.
  apply (min_fold_rank values infinity); [reflexivity | exact H].
Qed.

Lemma Math_max_rank (values : list float) :
  existsb PrimFloat.is_nan values = false ->
  PrimFloat.is_nan (Math_max values) = false /\
  R (Math_max values) = fold_left Z.max (map R values) (R neg_infinity).
Proof.
  intros H. unfold Math_max. rewrite H.
  apply (max_fold_rank values neg_infinity); [reflexivity | exact H].
Qed.



End MinMaxFacts.

(* ================================================================= *)
(** ** Normalization of degenerate data *)

Module DegenerateFacts.

Import Utils KNNClassifier NormalizeFacts NumberFacts MinMaxFacts Rank Rescale.

Local Unset Implicit Arguments.

Lemma column_in (data : list (list float)) (p : list float) (j : nat) :
  In p data -> In (JS.get p j) (column data j).
Proof. intros H. unfold column. now apply (in_map (fun v => JS.get v j)). Qed.

Lemma sum_nan (g : nat -> float) : forall keys carry,
  carry = nan \/ (exists key, In key keys /\ g key = nan) ->
  fold_left (fun carry key => (carry + g key)%float) keys carry = nan.
Proof.
  destruct nan_absorbing as (Hl & Hr & _).
  induction keys as [|key rest IH]; intros carry H; simpl.
  - destruct H as [H | (key & [] & _)]. exact H.
  - apply IH. destruct H as [-> | (key' & [<- | Hin] & Hg)].
    + left. apply Hl.
    + left. rewrite Hg. apply Hr.
    + right. now exists key'.
Qed.




(** *** A search among NaN distances *)





End DegenerateFacts.

(* ================================================================= *)
(** ** utils.js: the order of the neighbors *)

Module OrderFacts.

Import Utils NumberFacts SearchFacts Rank.

Local Unset Implicit Arguments.

Lemma before_key (x y : neighbor) :
  comparable x -> comparable y -> before x y = (key x <? key y)%Z.
Proof. intros Hx Hy. unfold before, key. now apply sub_ltb_zero. Qed.

Lemma insert_in (x : neighbor) (l : list neighbor) (e : neighbor) :
  In e (insert x l) <-> e = x \/ In e l.
Proof.
  split; intros H.
  - apply (Permutation_in _ (insert_perm x l)) in H. destruct H; auto.
  - apply (Permutation_in _ (Permutation_sym (insert_perm x l))).
    destruct H; [left; auto | now right].
Qed.

Lemma insert_ranked (x : neighbor) : forall l,
  comparable x -> Forall comparable l -> ranked l -> ranked (insert x l).
Proof.
  unfold ranked.
  induction l as [|y rest IH]; intros Hx Hl Hs; simpl.
  - constructor; constructor.
  - apply Forall_cons_iff in Hl. destruct Hl as [Hy Hrest].
    apply StronglySorted_inv in Hs. destruct Hs as [Hs Hall].
    rewrite (before_key x y Hx Hy).
    destruct (Z.ltb_spec (key x) (key y)) as [Hlt | Hge].
    + constructor; [constructor; assumption |].
      constructor; [lia |].
      eapply Forall_impl; [| exact Hall]. intros e He. simpl in He. lia.
    + constructor; [now apply IH |].
      apply Forall_forall. intros e He. apply insert_in in He.
      destruct He as [-> | He]; [exact Hge |].
      rewrite Forall_forall in Hall. now apply Hall.
Qed.

Lemma sort_from_ranked : forall entries sorted,
  Forall comparable entries -> Forall comparable sorted -> ranked sorted ->
  ranked (fold_left (fun sorted x => insert x sorted) entries sorted).
Proof.
  induction entries as [|x rest IH]; intros sorted He Hs Hr; simpl; [exact Hr |].
  apply Forall_cons_iff in He. destruct He as [Hx Hrest].
  apply IH; [exact Hrest | | now apply insert_ranked].
  apply Forall_forall. intros e Hin. apply insert_in in Hin.
  destruct Hin as [-> | Hin]; [exact Hx |].
  rewrite Forall_forall in Hs. now apply Hs.
Qed.

Lemma stable_ranked (entries : list neighbor) :
  Forall comparable entries -> ranked (stable entries).
Proof.
  intros H. unfold stable. apply sort_from_ranked; [exact H | constructor | constructor].
Qed.

(** Without a NaN among the distances the comparator compares their ranks:
    it is consistent, and the sort is the stable one on every engine. *)
Lemma SortCompare_key (x y : neighbor) :
  comparable x -> comparable y -> SortCompare x y = (key x ?= key y)%Z.
Proof.
  intros Hx Hy. unfold SortCompare. rewrite (before_key x y Hx Hy).
  unfold key. rewrite (sub_gtb_zero _ _ Hx Hy).
  destruct (Z.compare_spec (R (distance x)) (R (distance y))) as [He | Hlt | Hgt].
  - rewrite He, Z.ltb_irrefl. reflexivity.
  - now rewrite (proj2 (Z.ltb_lt _ _) Hlt).
  - rewrite (proj2 (Z.ltb_ge _ _)) by lia. now rewrite (proj2 (Z.ltb_lt _ _) Hgt).
Qed.

Lemma comparable_consistent (entries : list neighbor) :
  Forall comparable entries -> consistent entries = true.
Proof.
  intros H. rewrite Forall_forall in H.
  apply (consistent_keyed key). intros a b Ha Hb.
  apply SortCompare_key; now apply H.
Qed.

Lemma sort_comparable (E : JS.engine) (entries : list neighbor) :
  Forall comparable entries -> sort E entries = stable entries.
Proof. intros H. now apply sort_consistent, comparable_consistent. Qed.

Lemma ranked_ascending (l : list neighbor) :
  Forall comparable l -> ranked l -> ascending l.
Proof.
  unfold ranked, ascending. intros Hc Hr.
  induction Hr as [|a l Hs IH Hall]; [constructor |].
  apply Forall_cons_iff in Hc. destruct Hc as [Ha Hl].
  constructor; [now apply IH |].
  rewrite Forall_forall in *. intros e He.
  unfold comparable in *.
  rewrite leb_rank by auto. apply Z.leb_le. now apply Hall.
Qed.

(** Without a NaN among the distances the sort leaves them in ascending
    order. *)
Lemma sort_ascending (E : JS.engine) (entries : list neighbor) :
  Forall comparable entries -> ascending (sort E entries).
Proof.
  intros H. rewrite (sort_comparable E entries H).
  apply ranked_ascending; [| now apply stable_ranked].
  apply Forall_forall. intros e He.
  apply (Permutation_in _ (stable_perm entries)) in He.
  rewrite Forall_forall in H. now apply H.
Qed.

Lemma measure_comparable metric pt : forall points i,
  Forall (fun p => PrimFloat.is_nan (metric pt p) = false) points ->
  Forall comparable (measure metric pt points i).
Proof.
  induction points as [|p rest IH]; intros i H; simpl; [constructor |].
  apply Forall_cons_iff in H. destruct H as [Hp Hrest].
  constructor; [exact Hp | now apply IH].
Qed.

(** With a NaN among distances that differ the comparator is not
    consistent, and the order is the engine's: an engine that makes no
    exchange then returns the entries as they are stored. *)
Lemma sort_inconsistent :
  consistent (measure euclideanDistance [0]%float [[3]; [nan]; [1]]%float 0) = false /\
  map distance (nearestPoints Samples.sample_engine
                              [0]%float [[3]; [nan]; [1]]%float (Some 3) None)
  = [3; nan; 1]%float.
Proof. split; now vm_compute. Qed.

(** C9, as the code has it.  When [k] exceeds the number of points,
    [nearestPoints] returns one entry per point and no other: the entries
    [{index, point, distance}] of all the points, in some order, never padded
    to [k].  When no distance is NaN the entries are in ascending order of
    distance. *)
Theorem nearestPoints_returns_all
        (E : JS.engine) (pt : list float) (points : list (list float)) (k : option nat)
        (distanceMetric : option (list float -> list float -> float)) :
  length points < match k with Some k => k | None => 1 end ->
  let metric := match distanceMetric with Some m => m | None => euclideanDistance end in
  let result := nearestPoints E pt points k distanceMetric in
  length result = length points /\
  Permutation result (measure metric pt points 0) /\
  (forall i p, nth_error points i = Some p ->
               In (mkNeighbor i p (metric pt p)) result) /\
  (forall e, In e result ->
             nth_error points (index e) = Some (point e) /\
             distance e = metric pt (point e)) /\
  (Forall (fun p => PrimFloat.is_nan (metric pt p) = false) points ->
   ascending result).
Proof.
  intros Hk metric result.
  assert (Hall : result = sort E (measure metric pt points 0)).
  { unfold result, nearestPoints. apply firstn_all2.
    rewrite sort_length, measure_length. lia. }
  assert (Hperm : Permutation result (measure metric pt points 0)).
  { rewrite Hall. apply sort_perm. }
  split; [rewrite (Permutation_length Hperm); apply measure_length |].
  split; [exact Hperm |]. split; [| split].
  - intros i p Hp.
    apply (Permutation_in _ (Permutation_sym Hperm)).
    apply (nth_error_In _ i). now rewrite (@measure_nth metric pt points 0 i p Hp).
  - intros e He. apply (Permutation_in _ Hperm) in He.
    destruct (@measure_index metric pt points 0 e He) as (_ & Hn & Hd).
    rewrite Nat.sub_0_r in Hn. now split.
  - intros Hnan. rewrite Hall. apply sort_ascending.
    now apply measure_comparable.
Qed.

Lemma nearestPoints_returns_all_witness :
  map index (nearestPoints Samples.sample_engine [0]%float [[3]; [1]; [2]]%float
                           (Some 5) None)
  = [1; 2; 0] /\
  ascending (nearestPoints Samples.sample_engine [0]%float [[3]; [1]; [2]]%float
                           (Some 5) None).
Proof.
  destruct (nearestPoints_returns_all Samples.sample_engine
              [0]%float [[3]; [1]; [2]]%float (Some 5) None ltac:(simpl; lia))
    as (_ & _ & _ & _ & Hsorted).
  split; [now vm_compute |].
  apply Hsorted. repeat constructor.
Defined.

(** C9 as stated fails when a distance is NaN: the stored point [[NaN]] is
    at a NaN distance from the query, and the two entries come back, on every
    engine, with the distances [NaN; 1], which are not in ascending order. *)
Lemma nearestPoints_nan_unsorted :
  length [[nan]; [1]]%float < 3 /\
  (forall E,
     map distance (nearestPoints E [0]%float [[nan]; [1]]%float (Some 3) None)
     = [nan; 1]%float) /\
  (forall E,
     ~ ascending (nearestPoints E [0]%float [[nan]; [1]]%float (Some 3) None)).
Proof.
  split; [simpl; lia |]. split; [intros E; now vm_compute |].
  intros E H. vm_compute in H. apply StronglySorted_inv in H.
  destruct H as [_ H]. apply Forall_cons_iff in H. destruct H as [H _].
  discriminate.
Qed.

End OrderFacts.

(* ================================================================= *)
(** ** Numbers: differences, quotients and zeros *)

Module ArithmeticFacts.

Import Utils Rank Signs NumberFacts.

Local Open Scope Z_scope.

Local Unset Implicit Arguments.

(** *** Classes of numbers *)

Lemma is_finite_spec (x : float) :
  PrimFloat.is_finite x = true <->
  (exists s, Prim2SF x = S754_zero s) \/ (exists s m e, Prim2SF x = S754_finite s m e).
Proof.
  unfold PrimFloat.is_finite, PrimFloat.is_infinity, PrimFloat.is_nan.
  rewrite !FloatAxioms.eqb_spec, FloatAxioms.abs_spec.
  change (Prim2SF infinity) with (S754_infinity false).
  destruct (Prim2SF x) as [s | s | | s m e] eqn:E.
  - split; [intros _; left; now exists s | intros _; now destruct s].
  - split.
    + now destruct s.
    + intros [[? H] | (? & ? & ? & H)]; discriminate.
  - split.
    + discriminate.
    + intros [[? H] | (? & ? & ? & H)]; discriminate.
  - split.
    + intros _. right. now exists s, m, e.
    + intros _. unfold SFeqb.
      rewrite compare_refl by discriminate. reflexivity.
Qed.

Lemma finite_not_nan (x : float) :
  PrimFloat.is_finite x = true -> PrimFloat.is_nan x = false.
Proof.
  unfold PrimFloat.is_finite. destruct (PrimFloat.is_nan x); [discriminate | reflexivity].
Qed.

(** [x - x] is [+0] for every finite [x]. *)
Lemma sub_self (x : float) :
  PrimFloat.is_finite x = true -> (x - x)%float = 0%float.
Proof.
  intros H. apply is_finite_spec in H. apply Prim2SF_inj.
  rewrite FloatAxioms.sub_spec. change (Prim2SF 0) with (S754_zero false).
  unfold SF64sub.
  destruct H as [[s ->] | (s & m & e & ->)].
  - now destruct s.
  - unfold SFsub. rewrite Z.sub_diag. reflexivity.
Qed.


Lemma zero_div_positive (y : float) :
  positive_number (Prim2SF y) -> (0 / y)%float = 0%float.
Proof.
  intros H. apply Prim2SF_inj. rewrite FloatAxioms.div_spec.
  change (Prim2SF 0) with (S754_zero false). unfold SF64div.
  destruct H as [(m & e & ->) | ->]; reflexivity.
Qed.

Lemma of_nat_positive (n : nat) :
  0 < Z.of_nat n < 2 ^ 63 -> positive_number (Prim2SF (JS.of_nat n)).
Proof.
  intros Hn. unfold JS.of_nat. rewrite FloatAxioms.of_uint63_spec.
  change Uint63Axioms.to_Z with Uint63.to_Z.
  rewrite Uint63.of_Z_spec.
  rewrite Z.mod_small by (change wB with (2 ^ 63); lia).
  destruct (Z.of_nat n) as [|p|p] eqn:E; try lia.
  unfold binary_normalize.
  destruct (@binary_round_sign false p 0 ltac:(lia)) as [(m' & e' & ->) | ->].
  - left. now exists m', e'.
  - now right.
Qed.

(** [x / x] is [1] for every finite [x] other than the zeros. *)
Lemma div_eucl_shifted (m : positive) :
  Z.div_eucl (Z.shiftl (Zpos m) 53) (Zpos m) = (2 ^ 53, 0).
Proof.
  rewrite Z.shiftl_mul_pow2 by lia.
  pose proof (Z.div_eucl_eq (Zpos m * 2 ^ 53) (Zpos m) ltac:(lia)) as He.
  pose proof (Z.mod_pos_bound (Zpos m * 2 ^ 53) (Zpos m) ltac:(lia)) as Hb.
  unfold Z.modulo in Hb.
  destruct (Z.div_eucl (Zpos m * 2 ^ 53) (Zpos m)) as [q r].
  assert (Hq : q = 2 ^ 53) by nia.
  subst q. f_equal. lia.
Qed.

Lemma div_self (x : float) (s : bool) (m : positive) (e : Z) :
  Prim2SF x = S754_finite s m e -> (x / x)%float = 1%float.
Proof.
  intros H. apply Prim2SF_inj. rewrite FloatAxioms.div_spec, H.
  unfold SF64div, SFdiv, SFdiv_core_binary.
  replace (Zdigits2 (Zpos m) + e - (Zdigits2 (Zpos m) + e)) with 0 by lia.
  replace (e - e) with 0 by lia.
  change (IntDef.Z.min (fexp prec emax 0) 0) with (-53).
  change (0 - -53) with 53.
  cbv iota beta zeta.
  change (IntDef.Z.div_eucl (IntDef.Z.shiftl (Zpos m) 53) (Zpos m))
    with (Z.div_eucl (Z.shiftl (Zpos m) 53) (Zpos m)).
  rewrite div_eucl_shifted.
  assert (Hl : new_location (Zpos m) 0 = loc_Exact).
  { unfold new_location, new_location_even, new_location_odd.
    now destruct (IntDef.Z.even (Zpos m)). }
  rewrite Hl. destruct s; now vm_compute.
Qed.

(** *** The square of a difference *)

Lemma binary_round_aux_abs (s s' : bool) (m e : Z) (l : location) :
  SFabs (binary_round_aux prec emax s m e l) = SFabs (binary_round_aux prec emax s' m e l).
Proof.
  unfold binary_round_aux.
  destruct (shr_fexp prec emax m e l) as [mrs' e'].
  destruct (shr_fexp prec emax _ e' loc_Exact) as [mrs'' e''].
  destruct (shr_m mrs''); [reflexivity | | reflexivity].
  now destruct (e'' <=? emax - prec).
Qed.

Lemma binary_normalize_abs (z e : Z) :
  SFabs (binary_normalize prec emax z e false)
  = SFabs (binary_normalize prec emax (- z) e false).
Proof.
  destruct z as [|p|p]; simpl; [reflexivity | |];
    unfold binary_round;
    destruct (shl_align p e _) as [mz ez]; apply binary_round_aux_abs.
Qed.

Lemma sub_swap_abs (x y : spec_float) :
  SFabs (SFsub prec emax x y) = SFabs (SFsub prec emax y x).
Proof.
  destruct x as [sx | sx | | sx mx ex], y as [sy | sy | | sy my ey];
    try reflexivity; try (now destruct sx, sy).
  unfold SFsub. rewrite (Z.min_comm ey ex).
  change (IntDef.Z.min ex ey) with (Z.min ex ey).
  rewrite binary_normalize_abs. f_equal. f_equal. lia.
Qed.

Lemma mul_self_abs (d : spec_float) :
  SFmul prec emax d d = SFmul prec emax (SFabs d) (SFabs d).
Proof. destruct d as [[|] | [|] | | [|] m e]; reflexivity. Qed.

Lemma square_of_difference (x y : float) : pow2 (x - y) = pow2 (y - x).
Proof.
  unfold pow2. apply Prim2SF_inj.
  rewrite !FloatAxioms.mul_spec, !FloatAxioms.sub_spec.
  unfold SF64mul, SF64sub.
  rewrite (mul_self_abs (SFsub prec emax (Prim2SF x) (Prim2SF y))),
    (mul_self_abs (SFsub prec emax (Prim2SF y) (Prim2SF x))).
  now rewrite sub_swap_abs.
Qed.

(** *** Comparisons with zero *)

Lemma above_zero (x : float) :
  (0 <? x)%float = true ->
  PrimFloat.is_nan x = false /\ (0 <=? x)%float = true.
Proof.
  rewrite FloatAxioms.ltb_spec, FloatAxioms.leb_spec.
  unfold SFltb, SFleb. intros H. split.
  - apply not_nan_spec. intros E. rewrite E in H. discriminate.
  - destruct (SFcompare (Prim2SF 0) (Prim2SF x)) as [[| |]|]; try discriminate.
    reflexivity.
Qed.

Lemma below_not_nan (x y : float) :
  (x <? y)%float = true ->
  PrimFloat.is_nan x = false /\ PrimFloat.is_nan y = false /\ R x < R y.
Proof.
  intros H.
  assert (Hx : PrimFloat.is_nan x = false).
  { apply not_nan_spec. intros E. rewrite FloatAxioms.ltb_spec, E in H. discriminate. }
  assert (Hy : PrimFloat.is_nan y = false).
  { apply not_nan_spec. intros E. rewrite FloatAxioms.ltb_spec, E in H.
    unfold SFltb in H. now destruct (Prim2SF x). }
  rewrite ltb_rank in H by assumption.
  repeat split; try assumption. now apply Z.ltb_lt.
Qed.

(** The difference of a number and a lower one is a positive number. *)
Lemma sub_positive (x y : float) :
  PrimFloat.is_nan x = false -> PrimFloat.is_nan y = false -> R y < R x ->
  positive_number (Prim2SF (x - y)).
Proof.
  intros Hx Hy Hlt.
  apply not_nan_spec in Hx, Hy.
  pose proof (sub_negative (Prim2SF y) (Prim2SF x)
                (Prim2SF_valid y) (Prim2SF_valid x) Hy Hx) as Hneg.
  pose proof (sub_negative (Prim2SF x) (Prim2SF y)
                (Prim2SF_valid x) (Prim2SF_valid y) Hx Hy) as Hpos.
  fold (R x) (R y) in Hneg, Hpos.
  rewrite (proj2 (Z.ltb_lt _ _) Hlt) in Hneg.
  rewrite (proj2 (Z.ltb_ge _ _)) in Hpos by lia.
  pose proof (sub_swap_abs (Prim2SF x) (Prim2SF y)) as Habs.
  rewrite FloatAxioms.sub_spec. unfold SF64sub.
  unfold SFltb in Hneg, Hpos.
  destruct (SFsub prec emax (Prim2SF y) (Prim2SF x)) as [s | s | | s m e];
    try (now destruct s);
    destruct (SFsub prec emax (Prim2SF x) (Prim2SF y)) as [s' | s' | | s' m' e'];
    try discriminate;
    (destruct s'; [discriminate |]);
    try (now right); left; now exists m', e'.
Qed.

(** [x - x] is NaN for the infinities and NaN. *)
Lemma sub_self_not_finite (x : float) :
  PrimFloat.is_finite x = false -> (x - x)%float = nan.
Proof.
  intros H. apply Prim2SF_inj. rewrite FloatAxioms.sub_spec. unfold SF64sub.
  change (Prim2SF nan) with S754_nan.
  destruct (Prim2SF x) as [s | s | | s m e] eqn:E.
  - assert (PrimFloat.is_finite x = true) by (apply is_finite_spec; left; now exists s).
    congruence.
  - now destruct s.
  - reflexivity.
  - assert (PrimFloat.is_finite x = true)
      by (apply is_finite_spec; right; now exists s, m, e).
    congruence.
Qed.

(** *** Quotients by a positive number *)


Lemma div_not_negative (a b : spec_float) :
  not_negative a -> positive_number b -> not_negative (SFdiv prec emax a b).
Proof.
  intros [-> | [[s ->] | [(m & e & ->) | ->]]] [(m' & e' & ->) | ->].
  - now left.
  - now left.
  - right. left. now exists (xorb s false).
  - right. left. now exists (xorb s false).
  - unfold SFdiv.
    destruct (SFdiv_core_binary prec emax (Zpos m) e (Zpos m') e') as [[mz ez] lz].
    unfold binary_round_aux.
    destruct (shr_fexp prec emax mz ez lz) as [mrs' e1].
    destruct (shr_fexp prec emax _ e1 loc_Exact) as [mrs'' e2].
    destruct (shr_m mrs'') as [|p|p].
    + right. left. now eexists.
    + destruct (e2 <=? emax - prec).
      * right. right. left. now eexists; eexists.
      * right. right. now right.
    + now left.
  - right. left. now exists false.
  - right. right. now right.
  - now left.
Qed.

Lemma not_negative_ltb (x : float) :
  not_negative (Prim2SF x) -> (x <? 0)%float = false.
Proof.
  rewrite FloatAxioms.ltb_spec. change (Prim2SF 0) with (S754_zero false).
  intros [-> | [[s ->] | [(m & e & ->) | ->]]]; reflexivity.
Qed.

(** The difference of a number and one that is not above it. *)
Lemma sub_not_negative (x y : float) :
  PrimFloat.is_nan x = false -> PrimFloat.is_nan y = false -> R y <= R x ->
  not_negative (Prim2SF (x - y)).
Proof.
  intros Hx Hy Hle.
  destruct (Z.eq_dec (R x) (R y)) as [He | Hne].
  - rewrite FloatAxioms.sub_spec. unfold SF64sub.
    apply not_nan_spec in Hx, Hy.
    destruct (sub_equal_rank (Prim2SF x) (Prim2SF y)
                (Prim2SF_valid x) (Prim2SF_valid y) Hx Hy He) as [-> | [s ->]].
    + now left.
    + right. left. now exists s.
  - right. right. apply sub_positive; [exact Hx | exact Hy | lia].
Qed.

(** *** Zeros *)

Lemma is_zero_spec (x : float) :
  PrimFloat.is_zero x = true <-> exists s, Prim2SF x = S754_zero s.
Proof.
  unfold PrimFloat.is_zero. rewrite FloatAxioms.eqb_spec.
  change (Prim2SF zero) with (S754_zero false).
  destruct (Prim2SF x) as [s | s | | s m e]; split.
  - intros _. now exists s.
  - intros _. now destruct s.
  - now destruct s.
  - intros [s' H]. discriminate.
  - discriminate.
  - intros [s' H]. discriminate.
  - now destruct s.
  - intros [s' H]. discriminate.
Qed.

Lemma zero_is_finite (x : float) :
  PrimFloat.is_zero x = true -> PrimFloat.is_finite x = true.
Proof.
  intros H. apply is_zero_spec in H. apply is_finite_spec. now left.
Qed.

(** A zero times a finite number is a zero. *)
Lemma mul_zero (x y : float) :
  PrimFloat.is_zero x = true -> PrimFloat.is_finite y = true ->
  PrimFloat.is_zero (x * y) = true /\ PrimFloat.is_zero (y * x) = true.
Proof.
  intros Hx Hy. apply is_zero_spec in Hx. apply is_finite_spec in Hy.
  destruct Hx as [sx Hx].
  split; apply is_zero_spec; rewrite FloatAxioms.mul_spec, Hx; unfold SF64mul;
    destruct Hy as [[sy ->] | (sy & m & e & ->)]; simpl; now eexists.
Qed.

(** Adding a zero to a number leaves a number equal to it. *)
Lemma add_zero (x z : float) :
  PrimFloat.is_zero z = true -> PrimFloat.is_nan x = false ->
  (x + z =? x)%float = true.
Proof.
  intros Hz Hx. apply is_zero_spec in Hz. destruct Hz as [sz Hz].
  apply not_nan_spec in Hx.
  rewrite FloatAxioms.eqb_spec, FloatAxioms.add_spec, Hz. unfold SF64add, SFeqb.
  destruct (Prim2SF x) as [s | s | | s m e] eqn:E; try congruence.
  - now destruct s, sz.
  - now destruct s.
  - simpl SFadd. now rewrite compare_refl by discriminate.
Qed.

(** *** Numbers that are not below zero *)

Lemma binary_round_aux_not_negative (m e : Z) (l : location) :
  not_negative (binary_round_aux prec emax false m e l).
Proof.
  unfold binary_round_aux.
  destruct (shr_fexp prec emax m e l) as [mrs' e1].
  destruct (shr_fexp prec emax _ e1 loc_Exact) as [mrs'' e2].
  destruct (shr_m mrs'') as [|p|p].
  - right. left. now eexists.
  - destruct (e2 <=? emax - prec).
    + right. right. left. now eexists; eexists.
    + right. right. now right.
  - now left.
Qed.

Lemma square_not_negative (x : float) : not_negative (Prim2SF (x * x)).
Proof.
  rewrite FloatAxioms.mul_spec. unfold SF64mul.
  destruct (Prim2SF x) as [s | s | | s m e]; simpl.
  - right. left. now eexists.
  - right. right. right. now destruct s.
  - now left.
  - replace (xorb s s) with false by now destruct s.
    apply binary_round_aux_not_negative.
Qed.

Lemma sqrt_not_negative (x : float) : not_negative (Prim2SF (PrimFloat.sqrt x)).
Proof.
  rewrite FloatAxioms.sqrt_spec. unfold SF64sqrt, SFsqrt.
  destruct (Prim2SF x) as [s | [|] | | [|] m e].
  - right. left. now eexists.
  - now left.
  - right. right. now right.
  - now left.
  - now left.
  - destruct (SFsqrt_core_binary prec emax (Zpos m) e) as [[mz ez] lz].
    apply binary_round_aux_not_negative.
Qed.

Lemma add_not_negative (x y : float) :
  not_negative (Prim2SF x) -> not_negative (Prim2SF y) ->
  not_negative (Prim2SF (x + y)).
Proof.
  intros Hx Hy. rewrite FloatAxioms.add_spec. unfold SF64add.
  pose proof (Prim2SF_valid x) as Vx. pose proof (Prim2SF_valid y) as Vy.
  destruct Hx as [Ex | [[sx Ex] | [(mx & ex & Ex) | Ex]]];
    destruct Hy as [Ey | [[sy Ey] | [(my & ey & Ey) | Ey]]];
    rewrite Ex, Ey in *; try (left; reflexivity).
  - right. left. destruct sx, sy; now eexists.
  - right. right. left. now exists my, ey.
  - right. right. now right.
  - right. right. left. now exists mx, ex.
  - simpl in Vx, Vy.
    destruct (bounded_range mx ex Vx) as (Hex & _).
    destruct (bounded_range my ey Vy) as (Hey & _).
    unfold SFadd. cbn [cond_Zopp].
    set (ez := IntDef.Z.min ex ey).
    assert (Hez : -1074 <= ez) by (unfold ez; change IntDef.Z.min with Z.min; lia).
    change (Zpos (fst (shl_align mx ex ez)) + Zpos (fst (shl_align my ey ez)))
      with (Zpos (fst (shl_align mx ex ez) + fst (shl_align my ey ez))).
    unfold binary_normalize.
    destruct (binary_round_sign false (fst (shl_align mx ex ez) + fst (shl_align my ey ez))
                ez Hez) as [(m' & e' & ->) | ->].
    + right. right. left. now exists m', e'.
    + right. right. now right.
  - right. right. now right.
  - right. right. now right.
  - right. right. now right.
  - right. right. now right.
Qed.

(** The Number of a length or a counter is [+0] or a positive number. *)
Lemma of_nat_sign (n : nat) :
  Prim2SF (JS.of_nat n) = S754_zero false \/ positive_number (Prim2SF (JS.of_nat n)).
Proof.
  unfold JS.of_nat. rewrite FloatAxioms.of_uint63_spec.
  change Uint63Axioms.to_Z with Uint63.to_Z.
  pose proof (Uint63.to_Z_bounded (Uint63.of_Z (Z.of_nat n))) as Hb.
  destruct (Uint63.to_Z (Uint63.of_Z (Z.of_nat n))) as [|p|p]; [now left | | lia].
  right. unfold binary_normalize.
  destruct (binary_round_sign false p 0 ltac:(lia)) as [(m' & e' & ->) | ->].
  - left. now exists m', e'.
  - now right.
Qed.

Lemma div_by_count (a : float) (n : nat) :
  not_negative (Prim2SF a) -> not_negative (Prim2SF (a / JS.of_nat n)).
Proof.
  intros Ha. rewrite FloatAxioms.div_spec.
  destruct (of_nat_sign n) as [Hz | Hp].
  - rewrite Hz. unfold SF64div.
    destruct Ha as [-> | [[s ->] | [(m & e & ->) | ->]]]; simpl.
    + now left.
    + now left.
    + right. right. now right.
    + right. right. now right.
  - now apply div_not_negative.
Qed.

Lemma zero_not_negative : not_negative (Prim2SF 0).
Proof. right. left. now exists false. Qed.

Lemma not_negative_rank (x : float) :
  not_negative (Prim2SF x) -> 0 <= R x.
Proof.
  unfold R. intros [E | [[s E] | [(m & e & E) | E]]]; rewrite E; unfold rank, cond_Zopp.
  - lia.
  - lia.
  - apply Z.mul_nonneg_nonneg; [lia | apply Z.pow_nonneg; lia].
  - apply Z.pow_nonneg. lia.
Qed.

Lemma rank_zero (x : float) :
  PrimFloat.is_nan x = false -> R x = 0 -> PrimFloat.is_zero x = true.
Proof.
  intros Hn Hr. apply is_zero_spec. apply not_nan_spec in Hn.
  pose proof (Prim2SF_valid x) as V. unfold R in Hr.
  destruct (Prim2SF x) as [s | s | | s m e]; [now exists s | | congruence |];
    exfalso; unfold rank, cond_Zopp in Hr.
  - assert (0 < 2 ^ 2100) by (apply Z.pow_pos_nonneg; lia). destruct s; lia.
  - simpl in V. pose proof (finite_rank_bounds m e V) as Hb. destruct s; lia.
Qed.

End ArithmeticFacts.

(* ================================================================= *)
(** ** utils.js: the activation functions *)

Module ActivationFacts.

Import Utils NumberFacts Signs ArithmeticFacts.

Local Unset Implicit Arguments.

Lemma reLU_range (x : float) :
  PrimFloat.is_nan (reLU x) = false /\ (0 <=? reLU x)%float = true.
Proof.
  unfold reLU. destruct (0 <? x)%float eqn:E.
  - now apply above_zero.
  - now split.
Qed.

(** X1.  [reLU] returns its argument when it is above zero and [+0]
    otherwise: for NaN, for both zeros and for every negative number.  Its
    result is never NaN and never below zero, and applying it twice changes
    nothing. *)
Theorem reLU_never_negative (x : float) :
  PrimFloat.is_nan (reLU x) = false /\
  (0 <=? reLU x)%float = true /\
  (PrimFloat.is_nan x = true -> reLU x = 0%float) /\
  ((x <=? 0)%float = true -> reLU x = 0%float) /\
  ((0 <? x)%float = true -> reLU x = x) /\
  reLU (reLU x) = reLU x.
Proof.
  split; [apply reLU_range |]. split; [apply reLU_range |].
  unfold reLU.
  destruct (0 <? x)%float eqn:E.
  - destruct (above_zero x E) as [Hn Hle].
    rewrite E. repeat split; auto; try congruence.
    intros Hle0. exfalso.
    rewrite leb_rank in Hle0, Hle by (exact Hn || reflexivity).
    rewrite ltb_rank in E by (exact Hn || reflexivity).
    apply Z.leb_le in Hle0. apply Z.ltb_lt in E. lia.
  - repeat split; auto; discriminate.
Qed.

(** X2.  Where [Math.exp] overflows to [+Infinity], [sigmoid] returns 0 and
    [tanh] returns NaN, not 1; where [Math.exp] underflows to 0, [sigmoid]
    returns 1 and [tanh] returns -1. *)
Theorem activation_saturation (M : JS.math) (x : float) :
  (JS.Math_exp M (- x) = infinity -> sigmoid M x = 0%float) /\
  (JS.Math_exp M (- x) = 0%float -> sigmoid M x = 1%float) /\
  (JS.Math_exp M (2 * x) = infinity -> tanh M x = nan) /\
  (JS.Math_exp M (2 * x) = 0%float -> tanh M x = (-1)%float).
Proof.
  unfold sigmoid, tanh. repeat split; intros ->; reflexivity.
Qed.

Lemma activation_saturation_witness :
  sigmoid (JS.mkMath (fun x => if (x <? 0)%float then 0%float else infinity) (fun _ => nan))
          5%float = 1%float /\
  tanh (JS.mkMath (fun x => if (x <? 0)%float then 0%float else infinity) (fun _ => nan))
       5%float = nan.
Proof.
  destruct (activation_saturation
              (JS.mkMath (fun x => if (x <? 0)%float then 0%float else infinity)
                         (fun _ => nan)) 5%float)
    as (_ & Hone & Hnan & _).
  split; [apply Hone | apply Hnan]; reflexivity.
Defined.

End ActivationFacts.

(* ================================================================= *)
(** ** Sums over the keys of an array *)

Module SumFacts.

Import Utils NumberFacts Signs ArithmeticFacts DegenerateFacts.

Local Unset Implicit Arguments.

(** Sums that only depend on the keys' values. *)
Lemma sum_ext (g h : nat -> float) : forall keys carry,
  (forall key, In key keys -> g key = h key) ->
  fold_left (fun carry key => (carry + g key)%float) keys carry
  = fold_left (fun carry key => (carry + h key)%float) keys carry.
Proof.
  induction keys as [|key rest IH]; intros carry H; simpl; [reflexivity |].
  rewrite (H key (or_introl eq_refl)). apply IH. intros k Hk. apply H. now right.
Qed.

Lemma sum_zero (g : nat -> float) : forall keys,
  (forall key, In key keys -> g key = 0%float) ->
  fold_left (fun carry key => (carry + g key)%float) keys 0%float = 0%float.
Proof.
  induction keys as [|key rest IH]; intros H; simpl; [reflexivity |].
  rewrite (H key (or_introl eq_refl)).
  change (0 + 0)%float with 0%float. apply IH. intros k Hk. apply H. now right.
Qed.

Lemma get_app_left (a b : list float) (i : nat) :
  i < length a -> JS.get (a ++ b) i = JS.get a i.
Proof. intros H. unfold JS.get. now apply app_nth1. Qed.

Lemma get_finite (a : list float) (i : nat) :
  Forall (fun x => PrimFloat.is_finite x = true) a -> i < length a ->
  PrimFloat.is_finite (JS.get a i) = true.
Proof.
  intros H Hi. rewrite Forall_forall in H. apply H. unfold JS.get. now apply nth_In.
Qed.

End SumFacts.

(* ================================================================= *)
(** ** utils.js: the error functions *)

Module LossFacts.

Import Utils NumberFacts Signs ArithmeticFacts DegenerateFacts SumFacts.

Local Unset Implicit Arguments.

Lemma mse_sum (predictions targets : list float) :
  mse predictions targets
  = (fold_left (fun carry key =>
                  (carry + pow2 (JS.get targets key - JS.get predictions key))%float)
               (seq 0 (length predictions)) 0%float
     / JS.of_nat (length predictions))%float.
Proof. reflexivity. Qed.

(** X3.  [mse] reads one target per prediction: targets past the last
    prediction are ignored, and a missing target makes the result NaN.  The
    result over no prediction is NaN, as is that of [crossEntropy] over no
    label. *)
Theorem mse_edges :
  (forall targets, mse [] targets = nan) /\
  (forall predictions targets,
     length targets < length predictions -> mse predictions targets = nan) /\
  (forall predictions targets extra,
     length predictions <= length targets ->
     mse predictions (targets ++ extra) = mse predictions targets) /\
  (forall M yPred, crossEntropy M [] yPred = nan).
Proof.
  destruct nan_absorbing as (_ & _ & Hsubl & _ & Hmul & _ & Hdiv & _).
  repeat split.
  - intros predictions targets Hlt. rewrite mse_sum.
    rewrite (sum_nan (fun key => pow2 (JS.get targets key - JS.get predictions key)%float)).
    + apply Hdiv.
    + right. exists (length targets). split; [apply in_seq; lia |].
      rewrite ArrayFacts.get_past_end by lia. unfold pow2. rewrite Hsubl. apply Hmul.
  - intros predictions targets extra Hle. rewrite !mse_sum. f_equal.
    apply sum_ext. intros key Hk. apply in_seq in Hk.
    rewrite get_app_left by lia. reflexivity.
Qed.

(** X4.  The mean squared error of a non-empty vector of finite numbers
    against itself is exactly 0. *)
Theorem mse_of_equal_vectors (predictions : list float) :
  predictions <> [] ->
  (Z.of_nat (length predictions) < 2 ^ 32)%Z ->
  Forall (fun x => PrimFloat.is_finite x = true) predictions ->
  mse predictions predictions = 0%float.
Proof.
  intros Hne Hlen Hfin. rewrite mse_sum.
  rewrite (sum_zero (fun key => pow2 (JS.get predictions key - JS.get predictions key)%float)).
  - apply zero_div_positive, of_nat_positive.
    destruct predictions; [congruence |]. simpl length in *. lia.
  - intros key Hk. apply in_seq in Hk.
    rewrite sub_self by (apply get_finite; [exact Hfin | lia]). reflexivity.
Qed.

Lemma mse_of_equal_vectors_witness :
  mse [0.5; -3; 1e300]%float [0.5; -3; 1e300]%float = 0%float.
Proof.
  apply mse_of_equal_vectors.
  - discriminate.
  - simpl. lia.
  - repeat constructor.
Defined.

End LossFacts.

(* ================================================================= *)
(** ** utils.js: the distance *)

Module DistanceFacts.

Import Utils NumberFacts Signs ArithmeticFacts DegenerateFacts SumFacts.

Local Unset Implicit Arguments.

Lemma euclideanDistance_sum (a b : list float) :
  euclideanDistance a b
  = PrimFloat.sqrt
      (fold_left (fun carry key => (carry + pow2 (JS.get a key - JS.get b key))%float)
                 (seq 0 (length a)) 0%float).
Proof. reflexivity. Qed.

Lemma distance_to_itself (a : list float) :
  Forall (fun x => PrimFloat.is_finite x = true) a -> euclideanDistance a a = 0%float.
Proof.
  intros Hfin. rewrite euclideanDistance_sum.
  rewrite (sum_zero (fun key => pow2 (JS.get a key - JS.get a key)%float)).
  - reflexivity.
  - intros key Hk. apply in_seq in Hk.
    rewrite sub_self by (apply get_finite; [exact Hfin | lia]). reflexivity.
Qed.

Lemma distance_not_negative (a b : list float) :
  not_negative (Prim2SF (euclideanDistance a b)).
Proof. rewrite euclideanDistance_sum. apply sqrt_not_negative. Qed.

(** X5.  [euclideanDistance(a, b)] runs over the coordinates of [a]:
    coordinates of [b] past the length of [a] are ignored, a coordinate
    missing from [b] makes the distance NaN, and the distance from the
    empty point is 0. *)
Theorem euclideanDistance_edges :
  (forall b, euclideanDistance [] b = 0%float) /\
  (forall a b, length b < length a -> euclideanDistance a b = nan) /\
  (forall a b extra,
     length a <= length b -> euclideanDistance a (b ++ extra) = euclideanDistance a b).
Proof.
  destruct nan_absorbing as (_ & _ & _ & Hsubr & Hmul & _ & _ & _ & Hsqrt).
  repeat split.
  - intros a b Hlt. rewrite euclideanDistance_sum.
    rewrite (sum_nan (fun key => pow2 (JS.get a key - JS.get b key)%float)).
    + exact Hsqrt.
    + right. exists (length b). split; [apply in_seq; lia |].
      rewrite (ArrayFacts.get_past_end b) by lia. unfold pow2. rewrite Hsubr. apply Hmul.
  - intros a b extra Hle. rewrite !euclideanDistance_sum. f_equal.
    apply sum_ext. intros key Hk. apply in_seq in Hk.
    rewrite get_app_left by lia. reflexivity.
Qed.

(** X6.  On points of the same length [euclideanDistance] is symmetric.
    The distance of a point to itself is 0 when all its coordinates are
    finite, and NaN when one of them is infinite or NaN. *)
Theorem euclideanDistance_symmetric :
  (forall a b, length a = length b -> euclideanDistance a b = euclideanDistance b a) /\
  (forall a, Forall (fun x => PrimFloat.is_finite x = true) a ->
             euclideanDistance a a = 0%float) /\
  (forall a, Exists (fun x => PrimFloat.is_finite x = false) a ->
             euclideanDistance a a = nan).
Proof.
  split; [| split].
  - intros a b Hlen. rewrite !euclideanDistance_sum, Hlen. f_equal.
    apply sum_ext. intros key _. apply square_of_difference.
  - exact distance_to_itself.
  - intros a Hex. rewrite euclideanDistance_sum.
    destruct nan_absorbing as (_ & _ & _ & _ & Hmul & _ & _ & _ & Hsqrt).
    rewrite (sum_nan (fun key => pow2 (JS.get a key - JS.get a key)%float)).
    + exact Hsqrt.
    + right. apply Exists_exists in Hex. destruct Hex as (x & Hx & Hinf).
      apply In_nth_error in Hx. destruct Hx as [key Hkey].
      exists key. split.
      * apply in_seq. split; [lia |]. simpl. apply nth_error_Some. congruence.
      * unfold JS.get. rewrite (nth_error_nth a key nan Hkey).
        rewrite sub_self_not_finite by exact Hinf. unfold pow2. apply Hmul.
Qed.

Lemma euclideanDistance_symmetric_witness :
  euclideanDistance [1; 2.5]%float [4; -1.5]%float = 5%float /\
  euclideanDistance [4; -1.5]%float [1; 2.5]%float = 5%float.
Proof.
  destruct euclideanDistance_symmetric as (Hsym & _ & _).
  rewrite (Hsym [4; -1.5]%float [1; 2.5]%float eq_refl).
  split; reflexivity.
Defined.

End DistanceFacts.

(* ================================================================= *)
(** ** utils.js: the range of the normalized points *)

Module RescaleFacts.

Import Utils Rank Rescale NumberFacts MinMaxFacts Signs ArithmeticFacts NormalizeFacts.

Local Unset Implicit Arguments.

(** *** The least and the greatest value of a column *)

Lemma fold_min_attained : forall (zs : list Z) (z0 : Z),
  In (fold_left Z.min zs z0) (z0 :: zs).
Proof.
  induction zs as [|z rest IH]; intros z0; simpl; [now left |].
  destruct (IH (Z.min z0 z)) as [H | H].
  - rewrite <- H. destruct (Z.min_spec z0 z) as [[_ ->] | [_ ->]]; auto.
  - auto.
Qed.

Lemma fold_max_attained : forall (zs : list Z) (z0 : Z),
  In (fold_left Z.max zs z0) (z0 :: zs).
Proof.
  induction zs as [|z rest IH]; intros z0; simpl; [now left |].
  destruct (IH (Z.max z0 z)) as [H | H].
  - rewrite <- H. destruct (Z.max_spec z0 z) as [[_ ->] | [_ ->]]; auto.
  - auto.
Qed.

Lemma not_nan_in (values : list float) (v : float) :
  existsb PrimFloat.is_nan values = false -> In v values -> PrimFloat.is_nan v = false.
Proof.
  intros H Hv. destruct (PrimFloat.is_nan v) eqn:E; [| reflexivity].
  assert (existsb PrimFloat.is_nan values = true)
    by (apply existsb_exists; now exists v).
  congruence.
Qed.

Lemma Math_min_below (values : list float) (v : float) :
  existsb PrimFloat.is_nan values = false -> In v values ->
  (Math_min values <=? v)%float = true.
Proof.
  intros Hn Hv. destruct (Math_min_rank values Hn) as [Hm Hr].
  rewrite leb_rank by (exact Hm || now apply (not_nan_in values)).
  apply Z.leb_le. rewrite Hr.
  apply (proj2 (fold_min_below (map R values) (R infinity))). now apply in_map.
Qed.

Lemma Math_max_above (values : list float) (v : float) :
  existsb PrimFloat.is_nan values = false -> In v values ->
  (v <=? Math_max values)%float = true.
Proof.
  intros Hn Hv. destruct (Math_max_rank values Hn) as [Hm Hr].
  rewrite leb_rank by (exact Hm || now apply (not_nan_in values)).
  apply Z.leb_le. rewrite Hr.
  apply (proj2 (fold_max_above (map R values) (R neg_infinity))). now apply in_map.
Qed.

Lemma Math_min_attained (values : list float) :
  existsb PrimFloat.is_nan values = false -> values <> [] ->
  exists v, In v values /\ (v =? Math_min values)%float = true.
Proof.
  intros Hn Hne. destruct (Math_min_rank values Hn) as [Hm Hr].
  assert (H : exists v, In v values /\ R v = R (Math_min values)).
  { rewrite Hr.
    destruct (fold_min_attained (map R values) (R infinity)) as [H | H].
    - destruct values as [|v rest]; [congruence |]. exists v. split; [now left |].
      rewrite <- H.
      pose proof (proj2 (fold_min_below (map R (v :: rest)) (R infinity)) (R v)
                        (or_introl eq_refl)) as Hle.
      pose proof (rank_below_infinity v). rewrite <- H in Hle. lia.
    - apply in_map_iff in H. destruct H as (v & Hv & Hin). now exists v. }
  destruct H as (v & Hv & Hrv). exists v. split; [exact Hv |].
  rewrite eqb_rank by (exact Hm || now apply (not_nan_in values)).
  now apply Z.eqb_eq.
Qed.

Lemma Math_max_attained (values : list float) :
  existsb PrimFloat.is_nan values = false -> values <> [] ->
  exists v, In v values /\ (v =? Math_max values)%float = true.
Proof.
  intros Hn Hne. destruct (Math_max_rank values Hn) as [Hm Hr].
  assert (H : exists v, In v values /\ R v = R (Math_max values)).
  { rewrite Hr.
    destruct (fold_max_attained (map R values) (R neg_infinity)) as [H | H].
    - destruct values as [|v rest]; [congruence |]. exists v. split; [now left |].
      rewrite <- H.
      pose proof (proj2 (fold_max_above (map R (v :: rest)) (R neg_infinity)) (R v)
                        (or_introl eq_refl)) as Hle.
      pose proof (rank_above_neg_infinity v). rewrite <- H in Hle. lia.
    - apply in_map_iff in H. destruct H as (v & Hv & Hin). now exists v. }
  destruct H as (v & Hv & Hrv). exists v. split; [exact Hv |].
  rewrite eqb_rank by (exact Hm || now apply (not_nan_in values)).
  now apply Z.eqb_eq.
Qed.

Lemma column_missing (data : list (list float)) (p : list float) (j : nat) :
  In p data -> length p <= j -> existsb PrimFloat.is_nan (column data j) = true.
Proof.
  intros Hp Hj. apply existsb_exists. exists nan. split; [| reflexivity].
  rewrite <- (ArrayFacts.get_past_end p Hj). now apply DegenerateFacts.column_in.
Qed.

(** What [minMaxPoints] returns when its calls are accepted, and when it is
    refused. *)
Lemma minMaxPoints_returns (E : JS.engine) (first : list float) (rest : list (list float)) :
  first = [] \/ JS.accepts E (length (first :: rest)) = true ->
  minMaxPoints E (first :: rest)
  = JS.Return (map (fun i => (Math_min (column (first :: rest) i),
                              Math_max (column (first :: rest) i)))
                   (seq 0 (length first))).
Proof.
  intros [-> | H]; [reflexivity | now apply minMaxPoints_accepted].
Qed.

Lemma minMaxPoints_refused (E : JS.engine) (first : list float) (rest : list (list float)) :
  first <> [] -> JS.accepts E (length (first :: rest)) = false ->
  minMaxPoints E (first :: rest) = JS.Throw JS.RangeError.
Proof.
  intros Hne H. destruct first as [|x first]; [congruence |].
  unfold minMaxPoints. cbn [length seq]. now apply minMax_loop_refused.
Qed.

(** X7.  [minMaxPoints] throws a [TypeError] on the empty array, and a
    [RangeError] when the first point has a coordinate and there are more
    points than the engine accepts arguments in a call.  Otherwise it
    returns one pair per coordinate of the first point.  When every point
    has a number other than NaN at a coordinate, the pair holds the least
    and the greatest of these numbers: both are reached and every point lies
    between them.  When a point has NaN or nothing there, both are NaN. *)
Theorem minMaxPoints_bounds (E : JS.engine) :
  minMaxPoints E [] = JS.Throw JS.TypeError /\
  (forall first rest,
     let points := first :: rest in
     (first <> [] -> JS.accepts E (length points) = false ->
      minMaxPoints E points = JS.Throw JS.RangeError) /\
     (first = [] \/ JS.accepts E (length points) = true ->
      exists minMax,
        minMaxPoints E points = JS.Return minMax /\
        length minMax = length first /\
        forall j, j < length first ->
          exists mn mx,
            nth_error minMax j = Some (mn, mx) /\
            (existsb PrimFloat.is_nan (column points j) = false ->
             (forall p, In p points ->
                        (mn <=? JS.get p j)%float = true /\
                        (JS.get p j <=? mx)%float = true) /\
             (exists p, In p points /\ (JS.get p j =? mn)%float = true) /\
             (exists p, In p points /\ (JS.get p j =? mx)%float = true)) /\
            ((exists p, In p points /\
                        (length p <= j \/ PrimFloat.is_nan (JS.get p j) = true)) ->
             mn = nan /\ mx = nan))).
Proof.
  split; [reflexivity |].
  intros first rest points.
  split; [apply minMaxPoints_refused |].
  intros Hok.
  eexists. split; [now apply minMaxPoints_returns |].
  split; [now rewrite length_map, length_seq |].
  intros j Hj. exists (Math_min (column points j)), (Math_max (column points j)).
  split.
  { rewrite nth_error_map, nth_error_seq.
    destruct (Nat.ltb_spec j (length first)) as [_ | H]; [reflexivity | lia]. }
  split.
  - intros Hn. split; [| split].
    + intros p Hp. split.
      * apply Math_min_below; [exact Hn | now apply DegenerateFacts.column_in].
      * apply Math_max_above; [exact Hn | now apply DegenerateFacts.column_in].
    + destruct (Math_min_attained (column points j) Hn) as (v & Hv & He);
        [discriminate |].
      unfold column in Hv. apply in_map_iff in Hv. destruct Hv as (p & <- & Hp).
      now exists p.
    + destruct (Math_max_attained (column points j) Hn) as (v & Hv & He);
        [discriminate |].
      unfold column in Hv. apply in_map_iff in Hv. destruct Hv as (p & <- & Hp).
      now exists p.
  - intros (p & Hp & Hbad).
    assert (Hn : existsb PrimFloat.is_nan (column points j) = true).
    { destruct Hbad as [Hshort | Hnan].
      - now apply (column_missing points p).
      - apply existsb_exists. exists (JS.get p j).
        split; [now apply DegenerateFacts.column_in | exact Hnan]. }
    split; [now apply Math_min_nan | now apply Math_max_nan].
Qed.

Lemma minMaxPoints_bounds_witness :
  minMaxPoints Samples.strict_engine [[1; 2]; [3; 4]; [5; 6]]%float
  = JS.Throw JS.RangeError /\
  minMaxPoints Samples.sample_engine [[1; 2]; [3; 4]; [5; 6]]%float
  = JS.Return [(1, 5); (2, 6)]%float.
Proof.
  split.
  - destruct (minMaxPoints_bounds Samples.strict_engine) as [_ H].
    destruct (H [1; 2]%float [[3; 4]; [5; 6]]%float) as [Hrefused _].
    apply Hrefused; [discriminate | reflexivity].
  - destruct (minMaxPoints_bounds Samples.sample_engine) as [_ H].
    destruct (H [1; 2]%float [[3; 4]; [5; 6]]%float) as [_ Hreturns].
    destruct (Hreturns (or_intror eq_refl)) as (minMax & Hr & _).
    rewrite Hr. vm_compute in Hr. now injection Hr as <-.
Defined.

(** *** Points of different lengths *)

Lemma normalize_from_throws (mm : list (float * float)) : forall p j,
  j <= length mm < j + length p ->
  normalize_from mm p j = JS.Throw JS.TypeError.
Proof.
  induction p as [|value rest IH]; intros j H; simpl in *; [lia |].
  destruct (nth_error mm j) as [[mn mx]|] eqn:E; [| reflexivity].
  assert (j < length mm) by (apply nth_error_Some; congruence).
  rewrite IH by lia. reflexivity.
Qed.

Lemma normalize_all_error (mm : list (float * float)) : forall data e,
  normalize_all mm data = JS.Throw e -> e = JS.TypeError.
Proof.
  assert (Hfrom : forall p j e, normalize_from mm p j = JS.Throw e -> e = JS.TypeError).
  { induction p as [|value rest IH]; intros j e H; simpl in H; [discriminate |].
    destruct (nth_error mm j) as [[mn mx]|]; [| congruence].
    destruct (normalize_from mm rest (S j)) eqn:E; simpl in H; [discriminate |].
    injection H as <-. now apply (IH (S j)). }
  induction data as [|p rest IH]; intros e H; simpl in H; [discriminate |].
  destruct (normalize_from mm p 0) eqn:E; simpl in H.
  - destruct (normalize_all mm rest) eqn:E'; simpl in H; [discriminate |].
    injection H as <-. now apply IH.
  - injection H as <-. now apply (Hfrom p 0).
Qed.

Lemma normalize_all_throws (mm : list (float * float)) : forall data,
  Exists (fun p => length mm < length p) data ->
  normalize_all mm data = JS.Throw JS.TypeError.
Proof.
  induction data as [|p rest IH]; intros H; [inversion H |].
  simpl. apply Exists_cons in H.
  destruct (Compare_dec.le_lt_dec (length p) (length mm)) as [Hle | Hlt].
  - destruct H as [H | H]; [lia |].
    rewrite normalize_from_defined by (simpl; lia). simpl.
    now rewrite IH.
  - rewrite normalize_from_throws by lia. reflexivity.
Qed.

(** The points returned when no point is longer than the first and the
    calls are accepted. *)
Lemma normalizePoints_ragged (E : JS.engine) (first : list float) (rest : list (list float)) :
  first = [] \/ JS.accepts E (length (first :: rest)) = true ->
  Forall (fun p => length p <= length first) (first :: rest) ->
  normalizePoints E (first :: rest) None = JS.Return (normalized (first :: rest)).
Proof.
  intros Hok Hd. unfold normalizePoints. rewrite (minMaxPoints_returns E first rest Hok).
  cbn [JS.bind].
  set (data := first :: rest) in *.
  rewrite normalize_all_defined.
  - f_equal. unfold normalized. apply map_ext_in. intros p Hp.
    unfold normalized_point. apply map_ext_in. intros j Hj.
    apply in_seq in Hj. rewrite Forall_forall in Hd. specialize (Hd p Hp).
    unfold rescale.
    rewrite nth_indep with (d' := (fun i => (Math_min (column data i),
                                             Math_max (column data i))) 0)
      by (rewrite length_map, length_seq; lia).
    rewrite (map_nth (fun i => (Math_min (column data i), Math_max (column data i)))).
    now rewrite seq_nth by lia.
  - rewrite length_map, length_seq. exact Hd.
Qed.

Lemma Forall_or_Exists (A : Type) (P Q : A -> Prop) (l : list A) :
  (forall x, P x \/ Q x) -> Forall P l \/ Exists Q l.
Proof.
  intros H. induction l as [|x l IH]; [left; constructor |].
  destruct (H x) as [Hp | Hq]; [| right; now left].
  destruct IH as [IH | IH]; [left; now constructor | right; now right].
Qed.

Lemma normalize_from_length (mm : list (float * float)) : forall p j q,
  normalize_from mm p j = JS.Return q -> length q = length p.
Proof.
  induction p as [|value rest IH]; intros j q H; simpl in H.
  - now injection H as <-.
  - destruct (nth_error mm j) as [[mn mx]|]; [| discriminate].
    destruct (normalize_from mm rest (S j)) as [r | e] eqn:E; simpl in H;
      [| discriminate].
    injection H as <-. simpl. f_equal. now apply (IH (S j)).
Qed.

Lemma normalize_all_lengths (mm : list (float * float)) : forall data result,
  normalize_all mm data = JS.Return result ->
  map (@length float) result = map (@length float) data.
Proof.
  induction data as [|p rest IH]; intros result H; simpl in H.
  - now injection H as <-.
  - destruct (normalize_from mm p 0) as [q | e] eqn:E; simpl in H; [| discriminate].
    destruct (normalize_all mm rest) as [r | e] eqn:E'; simpl in H; [| discriminate].
    injection H as <-. simpl. f_equal; [now apply (normalize_from_length mm p 0) |].
    now apply IH.
Qed.

(** The points returned have the lengths of the points given. *)
Lemma normalizePoints_lengths E data minMax result :
  normalizePoints E data minMax = JS.Return result ->
  map (@length float) result = map (@length float) data.
Proof.
  unfold normalizePoints. intros H.
  destruct minMax as [m |]; cbn [JS.bind] in H.
  - now apply (normalize_all_lengths m).
  - destruct (minMaxPoints E data) as [m | e]; cbn [JS.bind] in H; [| discriminate].
    now apply (normalize_all_lengths m).
Qed.

Lemma minMax_loop_error (E : JS.engine) (points : list (list float)) :
  forall indices e, minMax_loop E points indices = JS.Throw e -> e = JS.RangeError.
Proof.
  induction indices as [|i rest IH]; intros e H; simpl in H; [discriminate |].
  unfold JS.spread in H.
  destruct (JS.accepts E (length (column points i))); cbn [JS.bind] in H;
    [| congruence].
  destruct (minMax_loop E points rest) as [mm | e']; cbn [JS.bind] in H;
    [discriminate |].
  injection H as <-. now apply IH.
Qed.

(** [normalizePoints] throws nothing but a [TypeError] or a [RangeError]. *)
Lemma normalizePoints_error E data minMax e :
  normalizePoints E data minMax = JS.Throw e -> e = JS.TypeError \/ e = JS.RangeError.
Proof.
  unfold normalizePoints. intros H.
  destruct minMax as [m |]; cbn [JS.bind] in H.
  - left. now apply (normalize_all_error m data).
  - destruct (minMaxPoints E data) as [m | e'] eqn:Em; cbn [JS.bind] in H.
    + left. now apply (normalize_all_error m data).
    + injection H as <-. destruct data as [|first rest]; simpl in Em.
      * left. congruence.
      * right. now apply (minMax_loop_error E (first :: rest) _ _ Em).
Qed.

(** The three ways [normalizePoints(data)] goes on data that is not
    empty. *)
Lemma normalizePoints_outcome (E : JS.engine) (first : list float) (rest : list (list float)) :
  let data := first :: rest in
  (first <> [] /\ JS.accepts E (length data) = false /\
   normalizePoints E data None = JS.Throw JS.RangeError) \/
  ((first = [] \/ JS.accepts E (length data) = true) /\
   ((Forall (fun p => length p <= length first) data /\
     normalizePoints E data None = JS.Return (normalized data)) \/
    (Exists (fun p => length first < length p) data /\
     normalizePoints E data None = JS.Throw JS.TypeError))).
Proof.
  intros data.
  assert (Hok : first = [] \/ JS.accepts E (length data) = true ->
                (Forall (fun p => length p <= length first) data /\
                 normalizePoints E data None = JS.Return (normalized data)) \/
                (Exists (fun p => length first < length p) data /\
                 normalizePoints E data None = JS.Throw JS.TypeError)).
  { intros H.
    destruct (Forall_or_Exists _ (fun p : list float => length p <= length first)
                (fun p => length first < length p) data) as [Hall | Hex].
    - intros p. lia.
    - left. split; [exact Hall | now apply normalizePoints_ragged].
    - right. split; [exact Hex |].
      unfold normalizePoints. unfold data. rewrite (minMaxPoints_returns E first rest H).
      cbn [JS.bind]. apply normalize_all_throws.
      now rewrite length_map, length_seq. }
  destruct first as [|x first].
  - right. split; [now left | apply Hok; now left].
  - destruct (JS.accepts E (length data)) eqn:Ea.
    + right. split; [now right | apply Hok; now right].
    + left. split; [discriminate |]. split; [reflexivity |].
      unfold normalizePoints, data.
      rewrite (minMaxPoints_refused E (x :: first) rest); [reflexivity | discriminate | exact Ea].
Qed.

(** X8.  [normalizePoints(data)] throws a [RangeError] exactly when the
    first point has a coordinate and there are more points than the engine
    accepts arguments in a call.  Short of that it throws exactly when
    [data] is empty or holds a point longer than its first point, a
    [TypeError]; otherwise it returns one point per point of [data], each of
    the length of the point it rescales.  Given [minMax], it throws exactly
    when a point is longer than [minMax], so that it returns the empty array
    on empty data. *)
Theorem normalizePoints_throws (E : JS.engine) :
  (forall data,
     let refused := hd [] data <> [] /\ JS.accepts E (length data) = false in
     (normalizePoints E data None = JS.Throw JS.RangeError <-> refused) /\
     (normalizePoints E data None = JS.Throw JS.TypeError <->
      data = [] \/
      (~ refused /\ Exists (fun p => length (hd [] data) < length p) data)) /\
     (forall e, normalizePoints E data None = JS.Throw e ->
                e = JS.TypeError \/ e = JS.RangeError) /\
     (forall result, normalizePoints E data None = JS.Return result ->
        map (@length float) result = map (@length float) data)) /\
  (forall data minMax,
     (normalizePoints E data (Some minMax) = JS.Throw JS.TypeError <->
      Exists (fun p => length minMax < length p) data) /\
     (forall e, normalizePoints E data (Some minMax) = JS.Throw e -> e = JS.TypeError) /\
     (forall result, normalizePoints E data (Some minMax) = JS.Return result ->
        map (@length float) result = map (@length float) data)).
Proof.
  assert (Hlen : forall mm data,
            map (@length float)
                (map (fun p : list float =>
                        map (fun i => inverseLerp (fst (nth i mm (nan, nan)))
                                                  (snd (nth i mm (nan, nan)))
                                                  (JS.get p i))
                            (seq 0 (length p))) data)
            = map (@length float) data).
  { intros mm data. rewrite map_map. apply map_ext. intros p.
    now rewrite length_map, length_seq. }
  assert (Hcases : forall n (data : list (list float)),
            Forall (fun p => length p <= n) data \/ Exists (fun p => n < length p) data).
  { intros n data. apply Forall_or_Exists. intros p. lia. }
  split.
  - intros data refused.
    split; [| split; [| split]];
      [| | apply normalizePoints_error | apply normalizePoints_lengths].
    + destruct data as [|first rest].
      * split; [discriminate | intros [H _]; now contradiction H].
      * destruct (normalizePoints_outcome E first rest)
          as [(Hne & Ha & Hr) | (Hok & [(Hall & Hr) | (Hex & Hr)])];
          cbv zeta in *; rewrite Hr; unfold refused; cbn [hd].
        -- split; [intros _; now split | reflexivity].
        -- split; [discriminate |]. intros [Hne Ha].
           destruct Hok as [-> | Hok]; [now contradiction Hne | congruence].
        -- split; [discriminate |]. intros [Hne Ha].
           destruct Hok as [-> | Hok]; [now contradiction Hne | congruence].
    + destruct data as [|first rest].
      * split; [now left | reflexivity].
      * destruct (normalizePoints_outcome E first rest)
          as [(Hne & Ha & Hr) | (Hok & [(Hall & Hr) | (Hex & Hr)])];
          cbv zeta in *; rewrite Hr; unfold refused; cbn [hd].
        -- split; [discriminate |]. intros [H | [H _]]; [discriminate |].
           exfalso. apply H. now split.
        -- split; [discriminate |]. intros [H | [_ H]]; [discriminate |]. exfalso.
           apply Exists_exists in H. destruct H as (p & Hp & Hlt).
           rewrite Forall_forall in Hall. specialize (Hall p Hp). lia.
        -- split; [| reflexivity]. intros _. right. split; [| exact Hex].
           intros [Hne Ha]. destruct Hok as [-> | Hok]; [now contradiction Hne | congruence].
  - intros data minMax. unfold normalizePoints. cbn [JS.bind].
    destruct (Hcases (length minMax) data) as [Hall | Hex].
    + rewrite normalize_all_defined by exact Hall.
      split; [| split].
      * split; [discriminate |]. intros H. exfalso.
        apply Exists_exists in H. destruct H as (p & Hp & Hlt).
        rewrite Forall_forall in Hall. specialize (Hall p Hp). lia.
      * discriminate.
      * intros result H. injection H as <-. apply Hlen.
    + rewrite normalize_all_throws by exact Hex.
      split; [| split].
      * split; [intros _; exact Hex | reflexivity].
      * intros e H. now injection H as <-.
      * discriminate.
Qed.

Lemma normalizePoints_throws_witness :
  normalizePoints Samples.strict_engine [[1]; [2]; [3]]%float None
  = JS.Throw JS.RangeError /\
  normalizePoints Samples.sample_engine [[1]; [2; 3]]%float None
  = JS.Throw JS.TypeError.
Proof.
  split.
  - destruct (normalizePoints_throws Samples.strict_engine) as [H _].
    destruct (H [[1]; [2]; [3]]%float) as (Hrange & _).
    apply Hrange. split; [discriminate | reflexivity].
  - destruct (normalizePoints_throws Samples.sample_engine) as [H _].
    destruct (H [[1]; [2; 3]]%float) as (_ & Htype & _).
    apply Htype. right. split.
    + intros [_ Ha]. discriminate.
    + right. left. simpl. lia.
Defined.

(** *** The ends of the range *)

Lemma normalized_nth (data : list (list float)) (i : nat) (p q : list float) :
  nth_error data i = Some p -> nth_error (normalized data) i = Some q ->
  q = normalized_point data p.
Proof.
  intros Hp Hq. unfold normalized in Hq. rewrite nth_error_map, Hp in Hq.
  simpl in Hq. congruence.
Qed.

(** X9.  On a non-empty set of points of one dimension, no more of them
    than the engine accepts arguments in a call, in which the least value
    [lo] of coordinate [j] is below its greatest value [hi],
    [normalizePoints] never returns a number below zero at coordinate [j];
    it maps [lo] to 0 when [lo] is finite, and [hi] to 1 when [hi - lo] is
    finite. *)
Theorem normalizePoints_endpoints
        (E : JS.engine) (data : list (list float)) (d j : nat) :
  data <> [] ->
  Forall (fun p => length p = d) data ->
  JS.accepts E (length data) = true ->
  j < d ->
  let lo := Math_min (column data j) in
  let hi := Math_max (column data j) in
  (lo <? hi)%float = true ->
  exists result,
    normalizePoints E data None = JS.Return result /\
    length result = length data /\
    forall i p q,
      nth_error data i = Some p -> nth_error result i = Some q ->
      (JS.get q j <? 0)%float = false /\
      (PrimFloat.is_finite lo = true -> JS.get p j = lo -> JS.get q j = 0%float) /\
      (PrimFloat.is_finite (hi - lo) = true -> JS.get p j = hi -> JS.get q j = 1%float).
Proof.
  intros Hne Hd Ha Hj lo hi Hlt.
  exists (normalized data).
  split; [now apply (@normalizePoints_uniform E data d) |].
  split; [apply normalized_length |].
  intros i p q Hp Hq.
  rewrite (normalized_nth data i p q Hp Hq).
  assert (Hin : In p data) by (eapply nth_error_In; exact Hp).
  assert (Hlen : length p = d) by (rewrite Forall_forall in Hd; now apply Hd).
  rewrite normalized_point_get by lia. fold lo hi. unfold inverseLerp.
  destruct (below_not_nan lo hi Hlt) as (Hlo & Hhi & Hr).
  assert (Hcol : existsb PrimFloat.is_nan (column data j) = false).
  { destruct (existsb PrimFloat.is_nan (column data j)) eqn:En; [| reflexivity].
    unfold lo in Hlo. rewrite (Math_min_nan _ En) in Hlo. discriminate. }
  assert (Hden : positive_number (Prim2SF (hi - lo))) by now apply sub_positive.
  assert (Hv : PrimFloat.is_nan (JS.get p j) = false).
  { apply (not_nan_in (column data j)); [exact Hcol |].
    now apply DegenerateFacts.column_in. }
  split; [| split].
  - apply not_negative_ltb. rewrite FloatAxioms.div_spec.
    apply div_not_negative; [| exact Hden].
    apply sub_not_negative; [exact Hv | exact Hlo |].
    pose proof (Math_min_below (column data j) (JS.get p j) Hcol
                  (DegenerateFacts.column_in data p j Hin)) as Hb.
    fold lo in Hb. rewrite leb_rank in Hb by assumption. now apply Z.leb_le.
  - intros Hfin ->. rewrite sub_self by exact Hfin.
    now apply zero_div_positive.
  - intros Hfin ->.
    apply is_finite_spec in Hfin.
    destruct Hden as [(m & e & Hden) | Hden].
    + now apply (div_self (hi - lo) false m e).
    + rewrite Hden in Hfin.
      destruct Hfin as [[? H] | (? & ? & ? & H)]; discriminate.
Qed.

Lemma normalizePoints_endpoints_witness :
  normalizePoints Samples.sample_engine [[2; 7]; [4; 7.5]; [3; 9]]%float None
  = JS.Return [[0; 0]; [1; 0.25]; [0.5; 1]]%float.
Proof.
  destruct (@normalizePoints_endpoints Samples.sample_engine
              [[2; 7]; [4; 7.5]; [3; 9]]%float 2 0)
    as (result & Hr & _);
    [discriminate | repeat constructor | reflexivity | lia | reflexivity |].
  rewrite Hr. vm_compute in Hr. now injection Hr as <-.
Defined.

(** X10.  When no point is longer than the first, there are no more points
    than the engine accepts arguments in a call, and some point has no
    coordinate [j], [normalizePoints] returns NaN at coordinate [j] of every
    point that has one. *)
Theorem normalizePoints_missing_coordinate
        (E : JS.engine) (first : list float) (rest : list (list float)) (j : nat) :
  let data := first :: rest in
  Forall (fun p => length p <= length first) data ->
  JS.accepts E (length data) = true ->
  Exists (fun p => length p <= j) data ->
  exists result,
    normalizePoints E data None = JS.Return result /\
    forall q, In q result -> j < length q -> JS.get q j = nan.
Proof.
  intros data Hd Ha Hex. exists (normalized data).
  split; [apply normalizePoints_ragged; [now right | exact Hd] |].
  intros q Hq Hj. unfold normalized in Hq. apply in_map_iff in Hq.
  destruct Hq as (p & <- & Hp). rewrite normalized_point_length in Hj.
  rewrite normalized_point_get by exact Hj.
  apply Exists_exists in Hex. destruct Hex as (short & Hs & Hlen).
  rewrite (Math_min_nan _ (column_missing data short j Hs Hlen)).
  unfold inverseLerp.
  destruct nan_absorbing as (_ & _ & _ & Hsub & _ & _ & Hdiv & _).
  now rewrite Hsub, Hdiv.
Qed.

Lemma normalizePoints_missing_coordinate_witness :
  normalizePoints Samples.sample_engine [[1; 2]; [3]]%float None
  = JS.Return [[0; nan]; [1]]%float.
Proof.
  destruct (@normalizePoints_missing_coordinate Samples.sample_engine
              [1; 2]%float [[3]%float] 1)
    as (result & Hr & _).
  - repeat constructor.
  - reflexivity.
  - right. left. simpl. lia.
  - rewrite Hr. vm_compute in Hr. now injection Hr as <-.
Defined.

End RescaleFacts.

(* ================================================================= *)
(** ** utils.js and KNNClassifier: the nearest neighbors *)

Module NearestFacts.

Import Utils Rank Nearest NumberFacts SearchFacts OrderFacts.

Local Unset Implicit Arguments.

Lemma ordered_nearer (a b : neighbor) :
  comparable a -> comparable b -> ordered a b -> nearer a b.
Proof.
  unfold comparable, ordered, nearer, key. intros Ha Hb H.
  rewrite ltb_rank, eqb_rank by assumption.
  destruct H as [H | [H Hi]].
  - left. now apply Z.ltb_lt.
  - right. split; [now apply Z.eqb_eq | exact Hi].
Qed.

Lemma insert_ordered (x : neighbor) : forall l,
  comparable x -> Forall comparable l ->
  Forall (fun y => index y < index x) l ->
  StronglySorted ordered l -> StronglySorted ordered (insert x l).
Proof.
  induction l as [|y rest IH]; intros Hx Hl Hi Hs; simpl.
  - constructor; constructor.
  - apply Forall_cons_iff in Hl. destruct Hl as [Hy Hrest].
    apply Forall_cons_iff in Hi. destruct Hi as [Hiy Hirest].
    apply StronglySorted_inv in Hs. destruct Hs as [Hs Hall].
    rewrite (before_key x y Hx Hy).
    destruct (Z.ltb_spec (key x) (key y)) as [Hlt | Hge].
    + constructor; [constructor; assumption |].
      constructor; [now left |].
      eapply Forall_impl; [| exact Hall]. intros e He. left.
      destruct He as [He | [He _]]; lia.
    + constructor; [now apply IH |].
      apply Forall_forall. intros e He. apply insert_in in He.
      destruct He as [-> | He].
      * unfold ordered. destruct (Z.eq_dec (key y) (key x)); [right; now split | left; lia].
      * rewrite Forall_forall in Hall. now apply Hall.
Qed.

Lemma sort_from_ordered metric pt : forall points i sorted,
  Forall comparable (measure metric pt points i) ->
  Forall comparable sorted ->
  Forall (fun y => index y < i) sorted ->
  StronglySorted ordered sorted ->
  StronglySorted ordered
    (fold_left (fun sorted x => insert x sorted) (measure metric pt points i) sorted).
Proof.
  induction points as [|p rest IH]; intros i sorted Hm Hc Hi Hs; simpl; [exact Hs |].
  simpl in Hm. apply Forall_cons_iff in Hm. destruct Hm as [Hx Hrest].
  apply IH.
  - exact Hrest.
  - apply Forall_forall. intros e He. apply insert_in in He.
    destruct He as [-> | He]; [exact Hx |].
    rewrite Forall_forall in Hc. now apply Hc.
  - apply Forall_forall. intros e He. apply insert_in in He.
    destruct He as [-> | He]; [simpl; lia |].
    rewrite Forall_forall in Hi. specialize (Hi e He). lia.
  - apply insert_ordered; [exact Hx | exact Hc | | exact Hs].
    simpl. exact Hi.
Qed.

Lemma sort_ordered E metric pt points :
  Forall (fun p => PrimFloat.is_nan (metric pt p) = false) points ->
  StronglySorted ordered (sort E (measure metric pt points 0)).
Proof.
  intros H. rewrite sort_comparable by now apply measure_comparable.
  unfold stable. apply sort_from_ordered.
  - now apply measure_comparable.
  - constructor.
  - constructor.
  - constructor.
Qed.

Lemma sorted_app (A : Type) (R : A -> A -> Prop) : forall l1 l2,
  StronglySorted R (l1 ++ l2) ->
  StronglySorted R l1 /\ forall a b, In a l1 -> In b l2 -> R a b.
Proof.
  induction l1 as [|x l1 IH]; intros l2 H; simpl in *.
  - split; [constructor | intros a b []].
  - apply StronglySorted_inv in H. destruct H as [Hs Hall].
    destruct (IH l2 Hs) as [Hs1 Hcross].
    rewrite Forall_forall in Hall. split.
    + constructor; [exact Hs1 |]. apply Forall_forall. intros e He.
      apply Hall. apply in_or_app. now left.
    + intros a b [<- | Ha] Hb.
      * apply Hall. apply in_or_app. now right.
      * now apply Hcross.
Qed.

Lemma sorted_impl (A : Type) (R S : A -> A -> Prop) (P : A -> Prop) : forall l,
  (forall a b, P a -> P b -> R a b -> S a b) ->
  Forall P l -> StronglySorted R l -> StronglySorted S l.
Proof.
  induction l as [|x l IH]; intros H Hp Hs; [constructor |].
  apply Forall_cons_iff in Hp. destruct Hp as [Hx Hl].
  apply StronglySorted_inv in Hs. destruct Hs as [Hs Hall].
  constructor; [now apply IH |].
  rewrite Forall_forall in *. intros e He. apply H; auto.
Qed.

(** The entries found, whatever [k]. *)
Lemma nearestPoints_split E pt points k distanceMetric :
  let metric := match distanceMetric with Some m => m | None => euclideanDistance end in
  let k' := match k with Some k => k | None => 1 end in
  let sorted := sort E (measure metric pt points 0) in
  nearestPoints E pt points k distanceMetric = firstn k' sorted /\
  Permutation (firstn k' sorted ++ skipn k' sorted) (measure metric pt points 0) /\
  (Forall (fun p => PrimFloat.is_nan (metric pt p) = false) points ->
   Forall comparable sorted /\ StronglySorted ordered sorted).
Proof.
  intros metric k' sorted. split; [reflexivity |].
  split; [rewrite firstn_skipn; apply sort_perm |].
  intros H. split; [| now apply sort_ordered].
  apply Forall_forall. intros e He.
  apply (Permutation_in _ (sort_perm E _)) in He.
  pose proof (measure_comparable metric pt points 0 H) as Hc.
  rewrite Forall_forall in Hc. now apply Hc.
Qed.

(** The entries found are those of different stored points, whatever the
    distances. *)
Lemma nearestPoints_found
      (E : JS.engine) (pt : list float) (points : list (list float)) (k : option nat)
      (distanceMetric : option (list float -> list float -> float)) :
  let metric := match distanceMetric with Some m => m | None => euclideanDistance end in
  let result := nearestPoints E pt points k distanceMetric in
  NoDup (map index result) /\
  (forall e, In e result ->
             nth_error points (index e) = Some (point e) /\
             distance e = metric pt (point e)).
Proof.
  intros metric result.
  destruct (nearestPoints_split E pt points k distanceMetric) as (Hres & Hperm & _).
  fold metric in Hres, Hperm. fold result in Hres.
  set (k' := match k with Some k => k | None => 1 end) in *.
  set (sorted := sort E (measure metric pt points 0)) in *.
  split.
  - assert (Hnd : NoDup (map index (firstn k' sorted ++ skipn k' sorted))).
    { apply (Permutation_NoDup (Permutation_sym (Permutation_map index Hperm))).
      rewrite measure_indices. apply seq_NoDup. }
    rewrite map_app in Hnd. rewrite Hres. now apply NoDup_app_remove_r in Hnd.
  - intros e He. rewrite Hres in He.
    assert (Hin : In e (measure metric pt points 0)).
    { apply (Permutation_in _ Hperm). apply in_or_app. now left. }
    destruct (measure_index metric pt points 0 e Hin) as (_ & Hn & Hd).
    rewrite Nat.sub_0_r in Hn. now split.
Qed.

(** When no distance is NaN the entries found are in the order of the
    search, and every point left out comes after each of them. *)
Lemma nearestPoints_ranked
      (E : JS.engine) (pt : list float) (points : list (list float)) (k : option nat)
      (distanceMetric : option (list float -> list float -> float)) :
  let metric := match distanceMetric with Some m => m | None => euclideanDistance end in
  let result := nearestPoints E pt points k distanceMetric in
  Forall (fun p => PrimFloat.is_nan (metric pt p) = false) points ->
  Forall comparable result /\
  StronglySorted ordered result /\
  (forall e i p,
     In e result -> nth_error points i = Some p -> ~ In i (map index result) ->
     comparable (mkNeighbor i p (metric pt p)) /\
     ordered e (mkNeighbor i p (metric pt p))).
Proof.
  intros metric result Hnan.
  destruct (nearestPoints_split E pt points k distanceMetric) as (Hres & Hperm & Hsorted).
  fold metric in Hres, Hperm, Hsorted. fold result in Hres.
  destruct (Hsorted Hnan) as [Hcomp Hord]. clear Hsorted.
  set (k' := match k with Some k => k | None => 1 end) in *.
  set (sorted := sort E (measure metric pt points 0)) in *.
  assert (Hsplit : sorted = firstn k' sorted ++ skipn k' sorted)
    by (symmetry; apply firstn_skipn).
  rewrite Hsplit in Hord. apply sorted_app in Hord. destruct Hord as [Hfirst Hcross].
  rewrite Forall_forall in Hcomp. rewrite Hres.
  split.
  { apply Forall_forall. intros e He. apply Hcomp. eapply firstn_in; eassumption. }
  split; [exact Hfirst |].
  intros e i p He Hp Hout.
  assert (Hentry : In (mkNeighbor i p (metric pt p)) (firstn k' sorted ++ skipn k' sorted)).
  { apply (Permutation_in _ (Permutation_sym Hperm)).
    apply (nth_error_In _ i). now rewrite (@measure_nth metric pt points 0 i p Hp). }
  apply in_app_or in Hentry. destruct Hentry as [Hentry | Hentry].
  - exfalso. apply Hout.
    change i with (index (mkNeighbor i p (metric pt p))). now apply in_map.
  - split; [| now apply Hcross].
    apply Hcomp. rewrite Hsplit. apply in_or_app. now right.
Qed.

(** X11.  When no distance is NaN, [nearestPoints] returns the [k] nearest
    points, or all of them when there are fewer: as many entries, each the
    index, the point and the distance of a different point, in ascending
    order of distance and, at equal distances, of index; every point left
    out comes after every entry returned in that order. *)
Theorem nearestPoints_nearest
        (E : JS.engine) (pt : list float) (points : list (list float)) (k : option nat)
        (distanceMetric : option (list float -> list float -> float)) :
  let metric := match distanceMetric with Some m => m | None => euclideanDistance end in
  let result := nearestPoints E pt points k distanceMetric in
  Forall (fun p => PrimFloat.is_nan (metric pt p) = false) points ->
  length result = Nat.min (match k with Some k => k | None => 1 end) (length points) /\
  NoDup (map index result) /\
  (forall e, In e result ->
             nth_error points (index e) = Some (point e) /\
             distance e = metric pt (point e)) /\
  StronglySorted nearer result /\
  (forall e i p,
     In e result -> nth_error points i = Some p -> ~ In i (map index result) ->
     nearer e (mkNeighbor i p (metric pt p))).
Proof.
  intros metric result Hnan.
  destruct (nearestPoints_found E pt points k distanceMetric) as [Hnd Hentries].
  destruct (nearestPoints_ranked E pt points k distanceMetric Hnan)
    as (Hcomp & Hord & Hout).
  fold metric in Hentries, Hout. fold result in Hnd, Hentries, Hcomp, Hord, Hout.
  split; [apply nearestPoints_length |].
  split; [exact Hnd |]. split; [exact Hentries |].
  split.
  - apply (sorted_impl _ ordered nearer comparable); [| exact Hcomp | exact Hord].
    intros a b. apply ordered_nearer.
  - intros e i p He Hp Hi.
    destruct (Hout e i p He Hp Hi) as [Hc Ho].
    rewrite Forall_forall in Hcomp. apply ordered_nearer; [now apply Hcomp | exact Hc | exact Ho].
Qed.

Lemma nearestPoints_nearest_witness :
  map index (nearestPoints Samples.sample_engine
                           [0]%float [[3]; [1]; [-1]; [2]]%float (Some 2) None)
  = [1; 2]
  /\ StronglySorted nearer
       (nearestPoints Samples.sample_engine
                      [0]%float [[3]; [1]; [-1]; [2]]%float (Some 2) None).
Proof.
  pose proof (nearestPoints_nearest Samples.sample_engine
                [0]%float [[3]; [1]; [-1]; [2]]%float (Some 2) None
                ltac:(repeat constructor)) as H.
  cbv zeta in H. destruct H as (_ & _ & _ & Hsorted & _).
  split; [reflexivity | exact Hsorted].
Defined.

(** *** The nearest neighbor *)

Import JSObject KNNClassifier.

Lemma for_in_single (key : string) (v : tally) : for_in [(key, v)] = [key].
Proof.
  unfold for_in, keys. simpl. destruct (is_array_index key); reflexivity.
Qed.

Lemma select_single (E : JS.engine) (n : labelled) :
  let key := JS.ToString E (label n) in
  select (getVotes E [n]) = if inherited key then (None, 0) else (Some key, 1).
Proof.
  intros key. unfold getVotes. simpl. unfold vote. fold key. simpl.
  destruct (inherited key) eqn:Ei.
  - destruct (String.eqb key "__proto__"); [reflexivity |].
    unfold select. rewrite for_in_single. simpl. now rewrite String.eqb_refl.
  - destruct (String.eqb_spec key "__proto__") as [He | _].
    + rewrite He in Ei. discriminate.
    + unfold select. rewrite for_in_single. simpl. now rewrite String.eqb_refl.
Qed.

(** The single entry found when [k] is 1, and the prediction made of it. *)
Lemma nearest_entry (E : JS.engine) (c : KNNClassifier.t) (feature : list float) :
  let metric := match distanceMetric c with Some m => m | None => euclideanDistance end in
  regression c = false ->
  normalization c = false ->
  k c = None \/ k c = Some 1 ->
  trainingFeatures c <> [] ->
  Forall (fun p => PrimFloat.is_nan (metric feature p) = false) (trainingFeatures c) ->
  exists i p,
    nth_error (trainingFeatures c) i = Some p /\
    (forall i' p', nth_error (trainingFeatures c) i' = Some p' -> i' <> i ->
                   comparable (mkNeighbor i p (metric feature p)) /\
                   comparable (mkNeighbor i' p' (metric feature p')) /\
                   ordered (mkNeighbor i p (metric feature p))
                           (mkNeighbor i' p' (metric feature p'))) /\
    predict E c feature
    = JS.Return (let key := JS.ToString E (nth i (trainingLabels c) JS.VUndefined) in
                 if inherited key then Vote None 0 else Vote (Some key) 1).
Proof.
  intros metric Hreg Hnorm Hk Hne Hnan.
  destruct (nearestPoints_split E feature (trainingFeatures c) (k c) (distanceMetric c))
    as (Hres & Hperm & Hsorted).
  fold metric in Hres, Hperm, Hsorted.
  destruct (Hsorted Hnan) as [Hcomp Hord]. clear Hsorted.
  assert (Hk1 : match k c with Some k => k | None => 1 end = 1)
    by (destruct Hk as [-> | ->]; reflexivity).
  rewrite Hk1 in Hres, Hperm.
  set (sorted := sort E (measure metric feature (trainingFeatures c) 0)) in *.
  assert (Hlen : length sorted = length (trainingFeatures c)).
  { unfold sorted. now rewrite sort_length, measure_length. }
  destruct sorted as [|e others] eqn:Es.
  { destruct (trainingFeatures c); [congruence | discriminate]. }
  simpl in Hres, Hperm.
  assert (He : In e (measure metric feature (trainingFeatures c) 0)).
  { apply (Permutation_in _ Hperm). now left. }
  destruct (measure_index metric feature (trainingFeatures c) 0 e He) as (_ & Hn & Hd).
  rewrite Nat.sub_0_r in Hn.
  apply StronglySorted_inv in Hord. destruct Hord as [_ Hall].
  rewrite Forall_forall in Hall, Hcomp.
  exists (index e), (point e). split; [exact Hn |]. split.
  - intros i' p' Hp' Hneq.
    assert (Hentry : In (mkNeighbor i' p' (metric feature p')) (e :: others)).
    { apply (Permutation_in _ (Permutation_sym Hperm)).
      apply (nth_error_In _ i').
      now rewrite (@measure_nth metric feature (trainingFeatures c) 0 i' p' Hp'). }
    destruct Hentry as [Heq | Hentry].
    + exfalso. apply Hneq. now rewrite Heq.
    + rewrite <- Hd.
      replace (mkNeighbor (index e) (point e) (distance e)) with e by now destruct e.
      split; [apply Hcomp; now left |].
      split; [apply Hcomp; now right | now apply Hall].
  - unfold predict, query. rewrite Hnorm. cbn [JS.bind]. rewrite Hreg.
    unfold findNearestNeighbors. rewrite Hres. cbn [map].
    pose proof (select_single E
                  (mkLabelled e (nth (index e) (trainingLabels c) JS.VUndefined))) as Hs.
    cbv zeta in Hs. cbn [label] in Hs. rewrite Hs.
    now destruct (inherited _).
Qed.

(** X12.  With [k] 1 or omitted, normalization and regression disabled and
    no NaN distance, [predict] answers with the label of the stored point
    that comes first in the order of the search (the nearest one, the
    earliest stored among equally near ones): its key with one vote, or no
    label and zero votes when the key names a property of
    [Object.prototype]. *)
Theorem predict_nearest_neighbor
        (E : JS.engine) (c : KNNClassifier.t) (feature : list float) :
  let metric := match distanceMetric c with Some m => m | None => euclideanDistance end in
  regression c = false ->
  normalization c = false ->
  k c = None \/ k c = Some 1 ->
  trainingFeatures c <> [] ->
  Forall (fun p => PrimFloat.is_nan (metric feature p) = false) (trainingFeatures c) ->
  exists i p,
    nth_error (trainingFeatures c) i = Some p /\
    (forall i' p', nth_error (trainingFeatures c) i' = Some p' -> i' <> i ->
                   nearer (mkNeighbor i p (metric feature p))
                          (mkNeighbor i' p' (metric feature p'))) /\
    predict E c feature
    = JS.Return (let key := JS.ToString E (nth i (trainingLabels c) JS.VUndefined) in
                 if inherited key then Vote None 0 else Vote (Some key) 1).
Proof.
  intros metric Hreg Hnorm Hk Hne Hnan.
  destruct (nearest_entry E c feature Hreg Hnorm Hk Hne Hnan) as (i & p & Hp & Hfirst & Hr).
  exists i, p. split; [exact Hp |]. split; [| exact Hr].
  intros i' p' Hp' Hneq. destruct (Hfirst i' p' Hp' Hneq) as (Hc & Hc' & Ho).
  now apply ordered_nearer.
Qed.

Lemma predict_nearest_neighbor_witness :
  predict Samples.sample_engine
          (KNNClassifier.mk None false false [[4]; [1]; [-1]]%float
             [JS.VString "far"; JS.VString "near"; JS.VString "tie"] None)
          [0]%float
  = JS.Return (Vote (Some "near"%string) 1).
Proof.
  destruct (predict_nearest_neighbor
              Samples.sample_engine
              (KNNClassifier.mk None false false [[4]; [1]; [-1]]%float
                 [JS.VString "far"; JS.VString "near"; JS.VString "tie"] None)
              [0]%float eq_refl eq_refl (or_introl eq_refl)
              ltac:(discriminate) ltac:(repeat constructor))
    as (i & p & _ & _ & _).
  reflexivity.
Defined.

(** X27.  With [k] 1 or omitted, the default metric, normalization and
    regression disabled and no NaN distance, [predict] on a stored point of
    finite coordinates answers with the label of the earliest stored point
    at distance zero from it, which is that point itself unless an earlier
    one is at distance zero too: every point stored before the one answered
    with is at a distance above zero. *)
Theorem predict_stored_point
        (E : JS.engine) (c : KNNClassifier.t) (i : nat) (feature : list float) :
  regression c = false ->
  normalization c = false ->
  distanceMetric c = None ->
  k c = None \/ k c = Some 1 ->
  nth_error (trainingFeatures c) i = Some feature ->
  Forall (fun x => PrimFloat.is_finite x = true) feature ->
  Forall (fun p => PrimFloat.is_nan (euclideanDistance feature p) = false)
         (trainingFeatures c) ->
  exists i0 p0,
    i0 <= i /\
    nth_error (trainingFeatures c) i0 = Some p0 /\
    PrimFloat.is_zero (euclideanDistance feature p0) = true /\
    (forall i' p', i' < i0 -> nth_error (trainingFeatures c) i' = Some p' ->
                   (0 <? euclideanDistance feature p')%float = true) /\
    predict E c feature
    = JS.Return (let key := JS.ToString E (nth i0 (trainingLabels c) JS.VUndefined) in
                 if inherited key then Vote None 0 else Vote (Some key) 1).
Proof.
  intros Hreg Hnorm Hmetric Hk Hi Hfin Hnan.
  assert (Hne : trainingFeatures c <> []) by (intros E0; rewrite E0 in Hi; destruct i; discriminate).
  pose proof (nearest_entry E c feature Hreg Hnorm Hk Hne) as H.
  rewrite Hmetric in H. cbv zeta in H.
  destruct (H Hnan) as (i0 & p0 & Hp0 & Hfirst & Hr). clear H.
  assert (Hself : euclideanDistance feature feature = 0%float)
    by now apply DistanceFacts.distance_to_itself.
  assert (Hpos : forall p, (0 <= R (euclideanDistance feature p))%Z).
  { intros p. apply ArithmeticFacts.not_negative_rank, DistanceFacts.distance_not_negative. }
  assert (Hn0 : PrimFloat.is_nan (euclideanDistance feature p0) = false).
  { rewrite Forall_forall in Hnan. apply Hnan. eapply nth_error_In. exact Hp0. }
  assert (Hzero : i0 <= i /\ R (euclideanDistance feature p0) = 0%Z).
  { destruct (Nat.eq_dec i i0) as [<- | Hneq].
    - assert (p0 = feature) by congruence. subst p0. rewrite Hself. split; [lia | reflexivity].
    - destruct (Hfirst i feature Hi Hneq) as (_ & _ & Ho).
      unfold ordered, key in Ho. cbn [distance index] in Ho. rewrite Hself in Ho.
      change (R 0) with 0%Z in Ho. specialize (Hpos p0).
      destruct Ho as [Ho | [Ho Hlt]]; [lia | split; [lia | exact Ho]]. }
  destruct Hzero as [Hle Hrank].
  exists i0, p0. split; [exact Hle |]. split; [exact Hp0 |].
  split; [now apply ArithmeticFacts.rank_zero |]. split; [| exact Hr].
  intros i' p' Hlt Hp'.
  destruct (Hfirst i' p' Hp' ltac:(lia)) as (_ & Hc' & Ho).
  unfold ordered, key in Ho. cbn [distance index] in Ho.
  unfold comparable in Hc'. cbn [distance] in Hc'.
  rewrite ltb_rank by (reflexivity || exact Hc'). apply Z.ltb_lt.
  change (R 0) with 0%Z. destruct Ho as [Ho | [_ Ho]]; lia.
Qed.

Lemma predict_stored_point_witness :
  predict Samples.sample_engine
          (KNNClassifier.mk None false false [[4; 2]; [1; 0.5]; [1; 0.5]]%float
             [JS.VString "a"; JS.VString "b"; JS.VString "c"] (Some 1))
          [1; 0.5]%float
  = JS.Return (Vote (Some "b"%string) 1).
Proof.
  destruct (predict_stored_point
              Samples.sample_engine
              (KNNClassifier.mk None false false [[4; 2]; [1; 0.5]; [1; 0.5]]%float
                 [JS.VString "a"; JS.VString "b"; JS.VString "c"] (Some 1))
              2 [1; 0.5]%float eq_refl eq_refl eq_refl (or_intror eq_refl) eq_refl
              ltac:(repeat constructor) ltac:(repeat constructor))
    as (i0 & p0 & _ & _ & _ & _ & _).
  reflexivity.
Defined.

End NearestFacts.

(* ================================================================= *)
(** ** KNNClassifier: the stored points *)

Module StoreFacts.

Import Utils Rescale KNNClassifier NumberFacts NormalizeFacts ClassifierFacts DegenerateFacts.

Local Unset Implicit Arguments.

(** X13.  [train] appends one point and one label per point of the batch,
    in order: the labels stay aligned with the points, a label missing from
    [labels] is stored as [undefined] and labels past the last point are
    dropped; the settings are kept.  With normalization disabled the points
    are stored as given and [train] never throws.  With normalization
    enabled it throws a [TypeError] on an empty batch and on a batch that
    holds a point longer than its first point, a [RangeError] on a batch of
    more points than the engine accepts arguments in a call (the first
    point having a coordinate), and nothing else. *)
Theorem train_appends (E : JS.engine) :
  (forall c features labels c',
     train E c features labels = JS.Return c' ->
     exists stored,
       trainingFeatures c' = trainingFeatures c ++ stored /\
       map (@length float) stored = map (@length float) features /\
       (normalization c = false -> stored = features) /\
       trainingLabels c'
       = trainingLabels c
         ++ map (fun i => nth i labels JS.VUndefined) (seq 0 (length features)) /\
       (length (trainingLabels c) = length (trainingFeatures c) ->
        length (trainingLabels c') = length (trainingFeatures c')) /\
       distanceMetric c' = distanceMetric c /\ normalization c' = normalization c /\
       regression c' = regression c /\ k c' = k c) /\
  (forall c features labels,
     normalization c = false -> exists c', train E c features labels = JS.Return c') /\
  (forall c features labels e,
     train E c features labels = JS.Throw e ->
     normalization c = true /\
     ((e = JS.TypeError /\
       (features = [] \/
        Exists (fun p => length (hd [] features) < length p) features)) \/
      (e = JS.RangeError /\
       hd [] features <> [] /\ JS.accepts E (length features) = false))) /\
  (forall c labels, normalization c = true -> train E c [] labels = JS.Throw JS.TypeError) /\
  (forall c features labels,
     normalization c = true ->
     hd [] features <> [] -> JS.accepts E (length features) = false ->
     train E c features labels = JS.Throw JS.RangeError).
Proof.
  split; [| split; [| split; [| split]]].
  - intros c features labels c' H. unfold train in H.
    destruct (normalization c) eqn:En.
    + destruct (normalizePoints E features None) as [stored | e] eqn:Ep;
        cbn [JS.bind] in H; [| discriminate].
      rewrite store_appends in H. injection H as <-. cbn.
      assert (Hl : map (@length float) stored = map (@length float) features).
      { now apply (RescaleFacts.normalizePoints_lengths E features None). }
      assert (Hn : length stored = length features).
      { rewrite <- (length_map (@length float) stored), Hl. apply length_map. }
      exists stored. rewrite Hn. repeat split; auto; try discriminate.
      intros Ha. rewrite !length_app, length_map, length_seq. lia.
    + cbn [JS.bind] in H. rewrite store_appends in H. injection H as <-. cbn.
      exists features. repeat split; auto.
      intros Ha. rewrite !length_app, length_map, length_seq. lia.
  - intros c features labels Hn. unfold train. rewrite Hn. cbn [JS.bind].
    rewrite store_appends. now eexists.
  - intros c features labels e H. unfold train in H.
    destruct (normalization c) eqn:En.
    + split; [reflexivity |].
      destruct features as [|first rest].
      * cbn in H. injection H as <-. left. split; [reflexivity | now left].
      * destruct (RescaleFacts.normalizePoints_outcome E first rest)
          as [(Hne & Ha & Hr) | (Hok & [(Hall & Hr) | (Hex & Hr)])];
          cbv zeta in *; rewrite Hr in H; cbn [JS.bind] in H.
        -- injection H as <-. right. now repeat split.
        -- rewrite store_appends in H. discriminate.
        -- injection H as <-. left. split; [reflexivity | right; exact Hex].
    + cbn [JS.bind] in H. rewrite store_appends in H. discriminate.
  - intros c labels Hn. unfold train. now rewrite Hn.
  - intros c features labels Hn Hne Ha. unfold train. rewrite Hn.
    destruct features as [|first rest]; [now contradiction Hne |].
    cbn [hd] in Hne. unfold normalizePoints.
    now rewrite (RescaleFacts.minMaxPoints_refused E first rest Hne Ha).
Qed.

Lemma train_appends_witness :
  train Samples.strict_engine (withNormalization (new (Some 1)) true)
        [[1]; [2]; [3]]%float [JS.VString "a"; JS.VString "b"; JS.VString "c"]
  = JS.Throw JS.RangeError /\
  exists c',
    train Samples.sample_engine (withNormalization (new (Some 1)) true)
          [[1]; [2]; [3]]%float [JS.VString "a"; JS.VString "b"]
    = JS.Return c' /\
    trainingFeatures c' = [[0]; [0.5]; [1]]%float /\
    trainingLabels c' = [JS.VString "a"; JS.VString "b"; JS.VUndefined].
Proof.
  split.
  - destruct (train_appends Samples.strict_engine) as (_ & _ & _ & _ & Hrange).
    apply Hrange; [reflexivity | discriminate | reflexivity].
  - destruct (train_appends Samples.sample_engine) as (Happend & _).
    eexists. split; [now vm_compute |].
    match goal with
    | |- trainingFeatures ?c = _ /\ _ =>
        destruct (Happend (withNormalization (new (Some 1)) true)
                          [[1]; [2]; [3]]%float [JS.VString "a"; JS.VString "b"] c
                          ltac:(now vm_compute))
          as (stored & _ & _ & _ & Hlabels & _)
    end.
    split; [now vm_compute | exact Hlabels].
Defined.

End StoreFacts.

(* ================================================================= *)
(** ** KNNClassifier: regression and empty training sets *)

Module RegressionFacts.

Import Utils Rescale KNNClassifier NumberFacts NormalizeFacts DegenerateFacts.

Local Unset Implicit Arguments.

(** X14.  With no stored point [predict] never throws, whatever the
    settings, the metric and [k]: it returns NaN on a regression task, and
    no label with zero votes otherwise. *)
Theorem predict_without_points
        (E : JS.engine) (metric : option (list float -> list float -> float))
        (normalize regress : bool) (labels : list JS.value) (k : option nat)
        (feature : list float) :
  predict E (KNNClassifier.mk metric normalize regress [] labels k) feature
  = JS.Return (if regress then Average nan else Vote None 0).
Proof.
  assert (Hq : exists pt,
            query E (KNNClassifier.mk metric normalize regress [] labels k) feature
            = JS.Return pt).
  { unfold query. cbn [normalization trainingFeatures].
    destruct normalize; [| now eexists].
    rewrite (@normalizePoints_uniform E [feature] (length feature));
      [now eexists | apply accepts_one | discriminate | now constructor]. }
  destruct Hq as [pt Hq]. unfold predict. rewrite Hq. cbn [JS.bind].
  assert (Hn : findNearestNeighbors
                 E (KNNClassifier.mk metric normalize regress [] labels k) pt = []).
  { unfold findNearestNeighbors, nearestPoints. cbn. now rewrite firstn_nil. }
  rewrite Hn. cbn. destruct regress; reflexivity.
Qed.

(** The sum of [#getAvgValues] over labels that are Numbers. *)
Lemma sum_of_numbers (E : JS.engine) : forall (xs : list float) (neighbors : list labelled) sum,
  map label neighbors = map JS.VNumber xs ->
  fold_left (fun sum n => JS.add E sum (label n)) neighbors (JS.VNumber sum)
  = JS.VNumber (fold_left (fun sum x => (sum + x)%float) xs sum).
Proof.
  induction xs as [|x xs IH]; intros [|n neighbors] sum H; simpl in H; try discriminate.
  - reflexivity.
  - injection H as Hn Hrest. simpl. rewrite Hn. simpl. now apply IH.
Qed.

Lemma append_empty (s : string) : (s ++ EmptyString)%string = s.
Proof. induction s as [|c s IH]; simpl; [reflexivity | now rewrite IH]. Qed.

Lemma append_assoc (a b c : string) : ((a ++ b) ++ c)%string = (a ++ (b ++ c))%string.
Proof. induction a as [|x a IH]; simpl; [reflexivity | now rewrite IH]. Qed.

Lemma concat_cons (s : string) (ss : list string) :
  String.concat EmptyString (s :: ss) = (s ++ String.concat EmptyString ss)%string.
Proof. destruct ss; simpl; [now rewrite append_empty | reflexivity]. Qed.

(** The sum over labels that are Strings, from a String. *)
Lemma sum_of_strings (E : JS.engine) : forall (ss : list string) (neighbors : list labelled) acc,
  map label neighbors = map JS.VString ss ->
  fold_left (fun sum n => JS.add E sum (label n)) neighbors (JS.VString acc)
  = JS.VString (acc ++ String.concat EmptyString ss).
Proof.
  induction ss as [|s ss IH]; intros [|n neighbors] acc H; simpl in H; try discriminate.
  - simpl. now rewrite append_empty.
  - injection H as Hn Hrest. cbn [fold_left]. rewrite Hn. cbn [JS.add JS.ToString].
    rewrite (IH neighbors (acc ++ s)%string Hrest).
    now rewrite concat_cons, append_assoc.
Qed.

Lemma sum_nan_label (E : JS.engine) : forall (neighbors : list labelled),
  Forall (fun n => match label n with JS.VString _ => False | _ => True end) neighbors ->
  fold_left (fun sum n => JS.add E sum (label n)) neighbors (JS.VNumber nan)
  = JS.VNumber nan.
Proof.
  destruct nan_absorbing as (Hl & _).
  induction neighbors as [|n rest IH]; intros H; [reflexivity |].
  apply Forall_cons_iff in H. destruct H as [Hn Hrest]. cbn [fold_left].
  destruct (label n) as [| x | s]; [| | contradiction]; cbn [JS.add JS.ToNumber];
    rewrite Hl; now apply IH.
Qed.

Lemma sum_undefined (E : JS.engine) : forall (neighbors : list labelled) sum,
  Forall (fun n => match label n with JS.VString _ => False | _ => True end) neighbors ->
  Exists (fun n => label n = JS.VUndefined) neighbors ->
  fold_left (fun sum n => JS.add E sum (label n)) neighbors (JS.VNumber sum)
  = JS.VNumber nan.
Proof.
  destruct nan_absorbing as (_ & Hr & _).
  induction neighbors as [|n rest IH]; intros sum H Hex; [inversion Hex |].
  apply Forall_cons_iff in H. destruct H as [Hn Hrest]. cbn [fold_left].
  apply Exists_cons in Hex. destruct Hex as [Hu | Hex].
  - rewrite Hu. cbn [JS.add JS.ToNumber]. rewrite Hr. now apply sum_nan_label.
  - destruct (label n) as [| x | s]; [| | contradiction]; cbn [JS.add JS.ToNumber].
    + rewrite Hr. now apply sum_nan_label.
    + now apply IH.
Qed.

(** X15.  On a regression task [predict] divides the sum of the neighbors'
    labels by their number.  Labels that are Numbers are added from 0 in the
    order of the neighbors.  A neighbor without a label makes the result
    NaN.  Labels that are Strings are not added but appended, in that order,
    to the String of 0, and the result is the Number this String converts
    to, divided by the number of neighbors. *)
Theorem predict_regression
        (E : JS.engine) (c : KNNClassifier.t) (feature pt : list float) :
  regression c = true ->
  query E c feature = JS.Return pt ->
  let neighbors := findNearestNeighbors E c pt in
  (forall xs, map label neighbors = map JS.VNumber xs ->
     predict E c feature
     = JS.Return (Average (fold_left (fun sum x => (sum + x)%float) xs 0%float
                           / JS.of_nat (length xs))%float)) /\
  (Forall (fun n => match label n with JS.VString _ => False | _ => True end) neighbors ->
   Exists (fun n => label n = JS.VUndefined) neighbors ->
   predict E c feature = JS.Return (Average nan)) /\
  (forall s ss, map label neighbors = map JS.VString (s :: ss) ->
     predict E c feature
     = JS.Return (Average (JS.StringToNumber E
                             (JS.NumberToString E 0
                              ++ String.concat EmptyString (s :: ss))
                           / JS.of_nat (length (s :: ss)))%float)).
Proof.
  intros Hreg Hq neighbors.
  assert (Hp : predict E c feature = JS.Return (Average (getAvgValues E neighbors))).
  { unfold predict. rewrite Hq. cbn [JS.bind]. now rewrite Hreg. }
  rewrite Hp. unfold getAvgValues.
  destruct nan_absorbing as (_ & _ & _ & _ & _ & _ & Hdiv & _).
  split; [| split].
  - intros xs Hxs. rewrite (sum_of_numbers E xs neighbors 0%float Hxs).
    cbn [JS.ToNumber].
    now rewrite <- (length_map label neighbors), Hxs, length_map.
  - intros Hall Hex. rewrite (sum_undefined E neighbors 0%float Hall Hex).
    cbn [JS.ToNumber]. now rewrite Hdiv.
  - intros s ss Hss.
    rewrite <- (length_map label neighbors), Hss, length_map.
    destruct neighbors as [|n rest]; [discriminate |].
    cbn [map] in Hss. injection Hss as Hn Hrest.
    cbn [fold_left]. rewrite Hn. cbn [JS.add JS.ToString].
    rewrite (sum_of_strings E ss rest _ Hrest). cbn [JS.ToNumber].
    now rewrite concat_cons, append_assoc.
Qed.

Lemma predict_regression_witness :
  exists c,
    train Samples.sample_engine
          (withNormalization (withRegression (new (Some 3)) true) true)
          [[1; 2]; [2; 1]; [1; 3]; [3; 4]]%float
          [JS.VNumber 5; JS.VNumber 10; JS.VNumber 7; JS.VNumber 12]
    = JS.Return c /\
    predict Samples.sample_engine c [2; 2]%float
    = JS.Return (Average ((0 + 12 + 7 + 10) / 3)%float).
Proof.
  eexists. split; [now vm_compute |].
  match goal with
  | |- predict ?E ?c ?feature = _ =>
      destruct (predict_regression E c feature [1; 1]%float eq_refl ltac:(now vm_compute))
        as (Hnumbers & _)
  end.
  apply (Hnumbers [12; 7; 10]%float). now vm_compute.
Defined.

End RegressionFacts.

(* ================================================================= *)
(** ** KNNClassifier: bounds on the vote *)

Module BallotFacts.

Import Utils JSObject KNNClassifier Tally.
Import SearchFacts ObjectFacts VoteFacts.

Local Unset Implicit Arguments.

(** Every count of the tally is at least 1 and at most the number of
    neighbors counted, and belongs to the key of one of them. *)
Lemma tally_bounds (E : JS.engine) : forall neighbors carry n,
  (forall key m, lookup carry key = Some (Count m) -> 1 <= m <= n) ->
  forall key m,
    lookup (fold_left (vote E) neighbors carry) key = Some (Count m) ->
    1 <= m <= n + length neighbors /\
    (lookup carry key = Some (Count m) \/
     In key (map (fun x => JS.ToString E (label x)) neighbors)).
Proof.
  induction neighbors as [|x rest IH]; intros carry n Hc key m H; simpl in *.
  - split; [specialize (Hc key m H); lia | now left].
  - assert (Hstep : forall key' m',
              lookup (vote E carry x) key' = Some (Count m') ->
              1 <= m' <= S n /\
              (lookup carry key' = Some (Count m') \/ key' = JS.ToString E (label x))).
    { intros key' m' H'. unfold vote in H'.
      destruct (String.eqb (JS.ToString E (label x)) "__proto__").
      - split; [specialize (Hc key' m' H'); lia | now left].
      - rewrite lookup_assign in H'.
        destruct (String.eqb_spec (JS.ToString E (label x)) key') as [<- | Hne].
        + split; [| now right].
          destruct (lookup carry (JS.ToString E (label x))) as [[v|]|] eqn:El.
          * injection H' as <-. specialize (Hc _ _ El). lia.
          * discriminate.
          * destruct (inherited _); [discriminate |]. injection H' as <-. lia.
        + split; [specialize (Hc key' m' H'); lia | now left]. }
    destruct (IH (vote E carry x) (S n) (fun k' m' H' => proj1 (Hstep k' m' H')) key m H)
      as [Hb Hin].
    split; [lia |].
    destruct Hin as [Hin | Hin]; [| right; now right].
    destruct (Hstep key m Hin) as [_ [Hl | ->]]; [now left | right; now left].
Qed.

(** X16.  On a classification task, whatever the labels are, [predict]
    returns a number of votes that is at most the number of neighbors found,
    hence at most [k] and at most the number of stored points; it returns no
    label exactly when it returns zero votes, and a label it returns is the
    key of the label stored for one of the points. *)
Theorem predict_votes_bounded
        (E : JS.engine) (c : KNNClassifier.t) (feature : list float) (r : prediction) :
  regression c = false ->
  predict E c feature = JS.Return r ->
  exists predictedLabel maxVotes,
    r = Vote predictedLabel maxVotes /\
    maxVotes <= Nat.min (match k c with Some k => k | None => 1 end)
                        (length (trainingFeatures c)) /\
    (predictedLabel = None <-> maxVotes = 0) /\
    (forall key, predictedLabel = Some key ->
       exists i, i < length (trainingFeatures c) /\
                 key = JS.ToString E (nth i (trainingLabels c) JS.VUndefined)).
Proof.
  intros Hreg Hp. unfold predict in Hp.
  destruct (query E c feature) as [pt | e]; cbn [JS.bind] in Hp; [| discriminate].
  rewrite Hreg in Hp.
  set (neighbors := findNearestNeighbors E c pt) in *.
  set (votes := getVotes E neighbors) in *.
  assert (Hlen : length neighbors
                 = Nat.min (match k c with Some k => k | None => 1 end)
                           (length (trainingFeatures c))).
  { unfold neighbors, findNearestNeighbors. rewrite length_map.
    apply nearestPoints_length. }
  assert (Hb : forall key m, lookup votes key = Some (Count m) ->
                 1 <= m <= length neighbors /\
                 In key (map (fun x => JS.ToString E (label x)) neighbors)).
  { intros key m H.
    destruct (tally_bounds E neighbors [] 0 ltac:(discriminate) key m H) as [Hm Hin].
    split; [exact Hm |]. destruct Hin as [Hin | Hin]; [discriminate | exact Hin]. }
  assert (Hkey : forall key,
            In key (map (fun x => JS.ToString E (label x)) neighbors) ->
            exists i, i < length (trainingFeatures c) /\
                      key = JS.ToString E (nth i (trainingLabels c) JS.VUndefined)).
  { intros key Hin. apply in_map_iff in Hin. destruct Hin as (x & <- & Hx).
    unfold neighbors, findNearestNeighbors in Hx. apply in_map_iff in Hx.
    destruct Hx as (e & <- & He). cbn [label].
    unfold nearestPoints in He. apply firstn_in in He.
    apply (Permutation_in _ (sort_perm E _)) in He.
    destruct (measure_index _ _ _ _ _ He) as (Hi & _).
    exists (index e). split; [lia | reflexivity]. }
  rewrite select_is_loop in Hp.
  destruct (select_first_maximum votes (for_in votes) None 0)
    as [[Hr _] | (l1 & w & l2 & _ & Hr & Hm & _)]; cbv zeta in Hr; rewrite Hr in Hp;
    injection Hp as <-.
  - exists None, 0. repeat split; auto; try lia. discriminate.
  - unfold count_of in Hm |- *.
    destruct (lookup votes w) as [[m|]|] eqn:El; try lia.
    destruct (Hb w m El) as [Hbound Hin].
    exists (Some w), m. split; [reflexivity |]. split; [lia |].
    split; [split; [discriminate | lia] |].
    intros key Hk. injection Hk as <-. now apply Hkey.
Qed.

Lemma predict_votes_bounded_witness :
  exists predictedLabel maxVotes,
    predict Samples.sample_engine
            (KNNClassifier.mk None false false [[0]; [1]; [3]]%float
               [JS.VString "toString"; JS.VString "a"; JS.VString "a"] (Some 2))
            [0]%float
    = JS.Return (Vote predictedLabel maxVotes) /\
    maxVotes <= 2.
Proof.
  destruct (predict_votes_bounded
              Samples.sample_engine
              (KNNClassifier.mk None false false [[0]; [1]; [3]]%float
                 [JS.VString "toString"; JS.VString "a"; JS.VString "a"] (Some 2))
              [0]%float (Vote (Some "a"%string) 1) eq_refl eq_refl)
    as (l & m & Hr & Hm & _).
  exists l, m. split; [now rewrite <- Hr | exact Hm].
Defined.

End BallotFacts.

(* ================================================================= *)
(** ** KNNClassifier: the majority vote *)

Module MajorityFacts.

Import Utils JSObject KNNClassifier Tally Rescale Rank Nearest.
Import SearchFacts VoteFacts NormalizeFacts ClassifierFacts NearestFacts.

Local Unset Implicit Arguments.

(** C5, as the code has it.  On a classification task with stored points,
    [k] at least 1 and labels that name no property of [Object.prototype]
    (and, when normalization is enabled, stored points of the query's
    dimension, no more of them with the query than the engine accepts
    arguments in a call), [predict] searches the stored points for the
    query, normalized when normalization is enabled.  The neighbors found
    are [k] different stored points, or all of them when there are fewer;
    when no distance is NaN they are the nearest ones, in ascending order of
    distance.  [predict] returns a label with the highest count among the
    neighbors found, with that count.  A tie goes to the label enumerated
    first by [for ... in] over the tally: labels that are array indices in
    ascending numeric order, then the other labels in the order of their
    first encounter.  On the three-point training set of the specification
    with [k = 1], the query [[5.0, 3.4, 1.4, 0.2]] returns ["A"] with one
    vote. *)
Theorem predict_majority_vote :
  (forall (E : JS.engine) (c : KNNClassifier.t) (feature : list float),
     regression c = false ->
     trainingFeatures c <> [] ->
     k c <> Some 0 ->
     (normalization c = false \/
      (Forall (fun p => length p = length feature) (trainingFeatures c) /\
       JS.accepts E (S (length (trainingFeatures c))) = true)) ->
     Forall (fun l => inherited (JS.ToString E l) = false) (trainingLabels c) ->
     let points := trainingFeatures c in
     let metric :=
       match distanceMetric c with Some m => m | None => euclideanDistance end in
     let pt :=
       if normalization c then normalized_point (feature :: points) feature
       else feature in
     let found := nearestPoints E pt points (k c) (distanceMetric c) in
     let ks :=
       map (fun e => JS.ToString E (nth (index e) (trainingLabels c) JS.VUndefined))
           found in
     query E c feature = JS.Return pt /\
     length found = Nat.min (match k c with Some k => k | None => 1 end) (length points) /\
     NoDup (map index found) /\
     (forall e, In e found ->
                nth_error points (index e) = Some (point e) /\
                distance e = metric pt (point e)) /\
     (Forall (fun p => PrimFloat.is_nan (metric pt p) = false) points ->
      StronglySorted nearer found /\
      (forall e i p,
         In e found -> nth_error points i = Some p -> ~ In i (map index found) ->
         nearer e (mkNeighbor i p (metric pt p)))) /\
     exists winner,
       predict E c feature = JS.Return (Vote (Some winner) (votes_for ks winner)) /\
       In winner ks /\
       0 < votes_for ks winner /\
       (forall key, votes_for ks key <= votes_for ks winner) /\
       (forall key, In key ks -> votes_for ks key = votes_for ks winner ->
                    key = winner \/ tie_break ks winner key)) /\
  (forall E : JS.engine,
     exists c,
       train E (new (Some 1))
             [[5.1; 3.5; 1.4; 0.2]; [4.9; 3.0; 1.4; 0.2]; [7.0; 3.2; 4.7; 1.4]]%float
             [JS.VString "A"; JS.VString "A"; JS.VString "B"] = JS.Return c /\
       predict E c [5.0; 3.4; 1.4; 0.2]%float = JS.Return (Vote (Some "A"%string) 1)).
Proof.
  split.
  - intros E c feature Hreg Hfeat Hk Hnorm Hplain points metric pt found ks.
    assert (Hq : query E c feature = JS.Return pt).
    { unfold pt, points. destruct (normalization c) eqn:En.
      - destruct Hnorm as [Hn | [Hd Ha]]; [discriminate |].
        now apply query_normalized.
      - unfold query. now rewrite En. }
    split; [exact Hq |].
    split; [apply nearestPoints_length |].
    destruct (nearestPoints_found E pt points (k c) (distanceMetric c)) as [Hnd Hentries].
    split; [exact Hnd |]. split; [exact Hentries |].
    split.
    { intros Hnan.
      destruct (nearestPoints_ranked E pt points (k c) (distanceMetric c) Hnan)
        as (Hcomp & Hord & Hout).
      split.
      - apply (sorted_impl _ ordered nearer comparable); [| exact Hcomp | exact Hord].
        intros a b. apply ordered_nearer.
      - intros e i p He Hp Hi. destruct (Hout e i p He Hp Hi) as [Hc Ho].
        rewrite Forall_forall in Hcomp.
        apply ordered_nearer; [now apply Hcomp | exact Hc | exact Ho]. }
    assert (Hks : ks = map (fun n => JS.ToString E (label n)) (findNearestNeighbors E c pt)).
    { unfold ks, found, findNearestNeighbors. now rewrite map_map. }
    assert (Hne : ks <> []).
    { rewrite Hks. intros Hnil. apply map_eq_nil in Hnil.
      now apply (neighbors_found E c pt Hfeat Hk). }
    destruct (vote_result Hne) as (winner & Hsel & Hin & Hmax & Htie).
    exists winner.
    split; [| split; [exact Hin | split; [now apply votes_for_positive | now split]]].
    unfold predict. rewrite Hq. cbn [JS.bind]. rewrite Hreg.
    unfold getVotes.
    rewrite (@getVotes_plain E _ [] (neighbor_labels_plain E c pt Hplain)).
    rewrite <- Hks. now rewrite Hsel.
  - intros E. eexists. split; [now vm_compute |]. now vm_compute.
Qed.

Lemma predict_majority_vote_witness :
  exists winner,
    predict Samples.sample_engine
            (KNNClassifier.mk None false false
               [[0]; [1]; [3]]%float
               [JS.VString "b"; JS.VString "a"; JS.VString "a"] (Some 3))
            [0]%float
    = JS.Return (Vote (Some winner) 2) /\ winner = "a"%string.
Proof.
  destruct predict_majority_vote as [Hvote _].
  destruct (Hvote Samples.sample_engine
                  (KNNClassifier.mk None false false
                     [[0]; [1]; [3]]%float
                     [JS.VString "b"; JS.VString "a"; JS.VString "a"] (Some 3))
                  [0]%float eq_refl ltac:(discriminate) ltac:(discriminate)
                  (or_introl eq_refl) ltac:(repeat constructor))
    as (_ & _ & _ & _ & _ & winner & Hp & _).
  exists winner.
  cbv zeta in Hp. vm_compute in Hp. injection Hp as <-.
  split; reflexivity.
Defined.

(** C5 as stated fails on the code.  Labels ["2"] and ["1"] tie with one
    vote each; ["2"] is the nearest neighbor's label, encountered first by
    the tally, and [predict] returns ["1"], which [for ... in] enumerates
    first.  With the single stored label ["constructor"] the tally holds a
    String instead of a count, so that [predict] returns no label and zero
    votes; and so it does with [k = 0], on an empty tally. *)
Lemma first_encountered_label_can_lose :
  (exists c,
     (forall E, train E (new (Some 2)) [[0]; [1]]%float [JS.VString "2"; JS.VString "1"]
                = JS.Return c) /\
     (forall E, map label (findNearestNeighbors E c [0]%float)
                = [JS.VString "2"; JS.VString "1"]) /\
     forall E, predict E c [0]%float = JS.Return (Vote (Some "1"%string) 1)) /\
  (exists c,
     (forall E, train E (new (Some 1)) [[0]]%float [JS.VString "constructor"]
                = JS.Return c) /\
     trainingFeatures c <> [] /\
     forall E, predict E c [0]%float = JS.Return (Vote None 0)) /\
  (exists c,
     (forall E, train E (new (Some 0)) [[0]]%float [JS.VString "A"] = JS.Return c) /\
     trainingFeatures c <> [] /\
     forall E, predict E c [0]%float = JS.Return (Vote None 0)).
Proof.
  split; [| split].
  - eexists. split; [intros E; now vm_compute |]. split; [intros E; now vm_compute |].
    intros E. now vm_compute.
  - eexists. split; [intros E; now vm_compute |]. split; [discriminate |].
    intros E. now vm_compute.
  - eexists. split; [intros E; now vm_compute |]. split; [discriminate |].
    intros E. now vm_compute.
Qed.

End MajorityFacts.

(* ================================================================= *)
(** ** The constructors *)

Module ConstructorFacts.

Import NetworkLayer MultiLayerPerceptron Epochs RandomStream LayerFacts.

Local Unset Implicit Arguments.

Lemma init_neurons_values rnd m : forall count n rows bs n',
  init_neurons rnd n count m = (rows, bs, n') ->
  n' = n + count * (m + 1) /\
  forall i, i < count ->
    nth i rows [] = init_row rnd (n + i * (m + 1)) m /\
    JS.get bs i = draw rnd (n + i * (m + 1) + m).
Proof.
  induction count as [|c IH]; intros n rows bs n' H; simpl in H.
  - injection H as <- <- <-. split; [lia | intros i Hi; lia].
  - destruct (init_neurons rnd (n + m + 1) c m) as [[rows0 bs0] n0] eqn:E.
    injection H as <- <- <-.
    destruct (IH _ _ _ _ E) as [Hn Hv]. split; [lia |].
    intros [|i] Hi; simpl.
    + rewrite Nat.add_0_r. split; reflexivity.
    + destruct (Hv i ltac:(lia)) as [Hr Hb].
      unfold JS.get in *. simpl. rewrite Hr, Hb.
      replace (n + m + 1 + i * (m + 1)) with (n + (m + 1 + i * (m + 1))) by lia.
      split; reflexivity.
Qed.

Lemma init_row_get rnd n m j :
  j < m -> JS.get (init_row rnd n m) j = draw rnd (n + j).
Proof.
  intros H. unfold init_row.
  now rewrite (ArrayFacts.get_map_seq (fun j => draw rnd (n + j))).
Qed.

Lemma new_layer_values rnd n neurons inputs :
  let L := fst (NetworkLayer.new rnd n neurons inputs) in
  snd (NetworkLayer.new rnd n neurons inputs) = n + neurons * (inputs + 1) /\
  activations L = [] /\ gradients L = [] /\
  (forall i j, i < neurons -> j < inputs ->
     JS.get (nth i (weights L) []) j = draw rnd (n + i * (inputs + 1) + j)) /\
  (forall i, i < neurons ->
     JS.get (biases L) i = draw rnd (n + i * (inputs + 1) + inputs)).
Proof.
  unfold NetworkLayer.new.
  destruct (init_neurons rnd n neurons inputs) as [[rows bs] n'] eqn:E.
  destruct (init_neurons_values _ _ _ _ _ _ _ E) as [Hn Hv].
  simpl. repeat split; try assumption.
  - intros i j Hi Hj. destruct (Hv i Hi) as [Hr _]. rewrite Hr.
    now apply init_row_get.
  - intros i Hi. now destruct (Hv i Hi).
Qed.

Lemma new_layers_nth rnd : forall layerSizes n l neurons inputs,
  nth_error layerSizes l = Some (neurons, inputs) ->
  nth_error (new_layers rnd n layerSizes) l
  = Some (fst (NetworkLayer.new rnd (n + offset layerSizes l) neurons inputs)).
Proof.
  induction layerSizes as [|[n0 i0] rest IH]; intros n l neurons inputs H;
    [destruct l; discriminate |].
  simpl.
  pose proof (new_layer_values rnd n n0 i0) as (Hn & _).
  destruct (NetworkLayer.new rnd n n0 i0) as [L n'] eqn:E. simpl in Hn.
  destruct l as [|l]; simpl in H.
  - injection H as <- <-. unfold offset. simpl. rewrite Nat.add_0_r, E. reflexivity.
  - simpl. rewrite (IH n' l neurons inputs H). do 3 f_equal.
    unfold offset, list_sum. cbn [firstn map fold_right].
    change (draws (n0, i0)) with (n0 * (i0 + 1)). rewrite Hn. lia.
Qed.

Lemma new_layers_shape rnd : forall layerSizes n,
  map shape (new_layers rnd n layerSizes) = layerSizes.
Proof.
  induction layerSizes as [|[n0 i0] rest IH]; intros n; [reflexivity |].
  simpl.
  pose proof (new_wf rnd n n0 i0) as (_ & Hn & Hi).
  destruct (NetworkLayer.new rnd n n0 i0) as [L n']. simpl in *.
  rewrite IH. unfold shape. now rewrite Hn, Hi.
Qed.

(** X17.  The constructor builds one layer per entry of [layerSizes], of
    the sizes given, with one row of weights and one bias per neuron and no
    activations or gradients yet.  The values of [Math.random] are consumed
    in order, layer by layer and neuron by neuron, the weights of a neuron
    before its bias, each scaled to [random * 2 - 1].  The learning rate is
    the one given unless it is missing, 0 or NaN, in which case it is 0.01:
    it is never 0 or NaN. *)
Theorem new_network (rnd : nat -> float) (layerSizes : list (nat * nat)) (o : options) :
  let net := MultiLayerPerceptron.new rnd layerSizes o in
  map shape (layers net) = layerSizes /\
  Forall (fun L => wf L /\ activations L = [] /\ gradients L = []) (layers net) /\
  (forall l neurons inputs,
     nth_error layerSizes l = Some (neurons, inputs) ->
     exists L,
       nth_error (layers net) l = Some L /\
       (forall i j, i < neurons -> j < inputs ->
          JS.get (nth i (weights L) []) j
          = (rnd (offset layerSizes l + i * (inputs + 1) + j)%nat * 2 - 1)%float) /\
       (forall i, i < neurons ->
          JS.get (biases L) i
          = (rnd (offset layerSizes l + i * (inputs + 1) + inputs)%nat * 2 - 1)%float)) /\
  PrimFloat.is_zero (learningRate net) = false /\
  PrimFloat.is_nan (learningRate net) = false /\
  (forall r, opt_learningRate o = Some r ->
             learningRate net
             = if PrimFloat.is_zero r || PrimFloat.is_nan r then 0.01%float else r) /\
  (opt_learningRate o = None -> learningRate net = 0.01%float).
Proof.
  intros net.
  assert (Hnth : forall l neurons inputs,
            nth_error layerSizes l = Some (neurons, inputs) ->
            nth_error (layers net) l
            = Some (fst (NetworkLayer.new rnd (offset layerSizes l) neurons inputs))).
  { intros l neurons inputs H. apply (new_layers_nth rnd layerSizes 0 l neurons inputs H). }
  split; [apply new_layers_shape |]. split; [| split].
  - apply Forall_forall. intros L HL.
    apply In_nth_error in HL. destruct HL as [l HL].
    assert (Hl : l < length layerSizes).
    { rewrite <- (new_layers_shape rnd layerSizes 0), length_map.
      apply nth_error_Some. unfold net in HL. simpl in HL. congruence. }
    destruct (nth_error layerSizes l) as [[neurons inputs]|] eqn:E;
      [| apply nth_error_None in E; lia].
    rewrite (Hnth l neurons inputs E) in HL. injection HL as <-.
    pose proof (new_wf rnd (offset layerSizes l) neurons inputs) as (Hwf & _).
    pose proof (new_layer_values rnd (offset layerSizes l) neurons inputs)
      as (_ & Ha & Hg & _).
    split; [exact Hwf | split; assumption].
  - intros l neurons inputs H. eexists. split; [exact (Hnth l neurons inputs H) |].
    pose proof (new_layer_values rnd (offset layerSizes l) neurons inputs)
      as (_ & _ & _ & Hw & Hb).
    split; [exact Hw | exact Hb].
  - unfold net, MultiLayerPerceptron.new, JS.truthy. cbn [learningRate].
    destruct (opt_learningRate o) as [r|].
    + destruct (PrimFloat.is_zero r || PrimFloat.is_nan r) eqn:E; cbn [negb].
      * repeat split; try reflexivity; try discriminate.
        intros r' Hr. injection Hr as <-. now rewrite E.
      * apply orb_false_iff in E. destruct E as [Ez En].
        repeat split; try assumption; try discriminate.
        intros r' Hr. injection Hr as <-. now rewrite Ez, En.
    + repeat split; try reflexivity; discriminate.
Qed.

End ConstructorFacts.

(* ================================================================= *)
(** ** MultiLayerPerceptron: the forward pass *)

Module ForwardFacts.

Import NetworkLayer MultiLayerPerceptron Epochs Feed Samples LayerFacts TrainFacts.

Local Unset Implicit Arguments.

Lemma last_cons (A : Type) : forall (l : list A) (x d : A),
  last (x :: l) d = last l x.
Proof.
  induction l as [|y l IH]; intros x d; [reflexivity |].
  change (last (x :: y :: l) d) with (last (y :: l) d).
  now rewrite !IH.
Qed.

Lemma forward_feed f : forall ls inputs,
  chained (length inputs) ls ->
  forward f ls inputs
  = (activated ls (feed f ls inputs), JS.Return (last (feed f ls inputs) inputs)).
Proof.
  induction ls as [|L rest IH]; intros inputs H; [reflexivity |].
  simpl in H. destruct H as [Hin Hrest].
  cbn [forward]. rewrite activate_returns by congruence.
  rewrite IH by (now rewrite outputs_length).
  cbn [feed activated]. now rewrite last_cons.
Qed.

Lemma feed_length f : forall ls inputs, length (feed f ls inputs) = length ls.
Proof.
  induction ls as [|L rest IH]; intros inputs; simpl; [reflexivity | now rewrite IH].
Qed.

Lemma feed_nth f : forall ls inputs i L,
  nth_error ls i = Some L ->
  exists out, nth_error (feed f ls inputs) i = Some out /\ length out = numNeurons L.
Proof.
  induction ls as [|L0 rest IH]; intros inputs i L H; [destruct i; discriminate |].
  destruct i as [|i]; simpl in *.
  - injection H as <-. eexists. split; [reflexivity | apply outputs_length].
  - now apply IH.
Qed.

(** X18.  Fed an input of the length the first layer takes, a network whose
    layers chain (each taking as many inputs as the layer before it has
    neurons) returns from [#predict]: every layer is activated with the
    outputs of the layer before it, the first with the input; each layer
    keeps these outputs as its activations and nothing else of it changes;
    the outputs of the last layer, one per neuron, are returned.  With no
    layer the input itself is returned. *)
Theorem predict_feeds_forward (net : MultiLayerPerceptron.t) (inputs : list float) :
  Forall NetworkLayer.wf (layers net) ->
  chained (length inputs) (layers net) ->
  let outs := feed (activationFunction net) (layers net) inputs in
  predict net inputs
  = (with_layers net (activated (layers net) outs), JS.Return (last outs inputs)) /\
  length outs = length (layers net) /\
  (forall i L, nth_error (layers net) i = Some L ->
     exists out,
       nth_error outs i = Some out /\ length out = numNeurons L /\
       out = outputs L (match i with
                        | 0 => inputs
                        | S j => nth j outs []
                        end) (activationFunction net) /\
       nth_error (activated (layers net) outs) i = Some (with_activations L out)).
Proof.
  intros _ Hc outs. split; [| split].
  - unfold predict. now rewrite forward_feed.
  - apply feed_length.
  - unfold outs. generalize (activationFunction net) as f. intros f.
    clear outs. revert inputs Hc.
    induction (layers net) as [|L0 rest IH]; intros inputs Hc i L H;
      [destruct i; discriminate |].
    simpl in Hc. destruct Hc as [_ Hrest].
    destruct i as [|i]; simpl in H.
    + injection H as <-. exists (outputs L0 inputs f). cbn [feed activated nth_error].
      refine (conj eq_refl (conj _ (conj eq_refl eq_refl))). apply outputs_length.
    + rewrite <- (outputs_length L0 inputs f) in Hrest.
      destruct (IH (outputs L0 inputs f) Hrest i L H) as (out & Ho & Hl & He & Ha).
      exists out. cbn [feed activated nth_error].
      split; [exact Ho |]. split; [exact Hl |]. split; [| exact Ha].
      rewrite He. f_equal.
Qed.

Lemma predict_feeds_forward_witness :
  snd (predict sample_net [1; 0]%float) = JS.Return [1.5]%float.
Proof.
  destruct (predict_feeds_forward sample_net [1; 0]%float
              BackwardFacts.sample_net_wf ltac:(repeat constructor))
    as (Hp & _).
  rewrite Hp. reflexivity.
Defined.

Lemma forward_app f : forall pre post inputs,
  forward f (pre ++ post) inputs
  = match forward f pre inputs with
    | (pre', JS.Return out) =>
        let '(post', r) := forward f post out in (pre' ++ post', r)
    | (pre', JS.Throw e) => (pre' ++ post, JS.Throw e)
    end.
Proof.
  induction pre as [|L rest IH]; intros post inputs.
  - cbn [app forward]. now destruct (forward f post inputs).
  - cbn [app forward].
    destruct (activate L inputs f) as [[L' out] | e]; [| reflexivity].
    rewrite IH.
    destruct (forward f rest out) as [rest' [out' | e]]; [| reflexivity].
    now destruct (forward f post out').
Qed.

(** X19.  [#predict] returns exactly when the layers chain from the length
    of the input; otherwise it throws the dimension mismatch, at the first
    layer that does not take the number of values handed to it: the layers
    before it keep their new activations, that layer and those after it are
    untouched.  A network whose layers do not chain from the length of its
    first sample cannot be trained: a run of at least one epoch throws
    before the callback is called. *)
Theorem predict_needs_chain :
  (forall net inputs,
     Forall NetworkLayer.wf (layers net) ->
     ((exists out, snd (predict net inputs) = JS.Return out)
      <-> chained (length inputs) (layers net)) /\
     (~ chained (length inputs) (layers net) ->
      snd (predict net inputs) = JS.Throw JS.DimensionMismatch)) /\
  (forall net inputs pre L post out,
     Forall NetworkLayer.wf (layers net) ->
     layers net = pre ++ L :: post ->
     chained (length inputs) pre ->
     out = last (feed (activationFunction net) pre inputs) inputs ->
     length out <> numInputs L ->
     predict net inputs
     = (with_layers net
          (activated pre (feed (activationFunction net) pre inputs) ++ L :: post),
        JS.Throw JS.DimensionMismatch)) /\
  (forall (C : Type) (cb : option (callback C)) net s rest epochs st,
     Forall NetworkLayer.wf (layers net) ->
     ~ chained (length (MultiLayerPerceptron.inputs s)) (layers net) ->
     0 < epochs ->
     let r := train net (s :: rest) epochs cb st in
     completion r = JS.Throw JS.DimensionMismatch /\ cb_calls r = [] /\ cb_state r = st).
Proof.
  assert (Hthrow : forall net inputs,
            ~ chained (length inputs) (layers net) ->
            snd (predict net inputs) = JS.Throw JS.DimensionMismatch).
  { intros net inputs Hn. unfold predict.
    destruct (forward (activationFunction net) (layers net) inputs) as [ls r] eqn:E.
    simpl. destruct r as [out | e].
    - exfalso. apply Hn.
      eapply forward_returns_chained. rewrite E. reflexivity.
    - f_equal.
      eapply forward_error. rewrite E. reflexivity. }
  split; [| split].
  - intros net inputs _. split; [| apply Hthrow].
    split.
    + intros [out Ho]. unfold predict in Ho.
      destruct (forward (activationFunction net) (layers net) inputs) as [ls r] eqn:E.
      simpl in Ho. subst r.
      eapply forward_returns_chained. rewrite E. reflexivity.
    + intros Hc. unfold predict. rewrite forward_feed by exact Hc. now eexists.
  - intros net inputs pre L post out _ Hl Hc Ho Hne.
    unfold predict. rewrite Hl, forward_app, forward_feed by exact Hc.
    rewrite <- Ho. cbn [forward]. now rewrite activate_throws by exact Hne.
  - intros C cb net s rest epochs st _ Hn Hep r.
    destruct epochs as [|epochs]; [lia |].
    unfold r, train. cbn [train_from run_samples].
    pose proof (Hthrow net (MultiLayerPerceptron.inputs s) Hn) as Ht.
    destruct (predict net (MultiLayerPerceptron.inputs s)) as [net1 res].
    simpl in Ht. subst res. now repeat split.
Qed.

Lemma predict_needs_chain_witness :
  snd (predict (with_layers sample_net
                  [NetworkLayer.mk 2 2 [[1; 0]; [0; 1]]%float [0; 0]%float [] [];
                   NetworkLayer.mk 1 3 [[1; -1; 2]]%float [0.5]%float [] []])
               [1; 0]%float)
  = JS.Throw JS.DimensionMismatch.
Proof.
  destruct predict_needs_chain as (Hchain & _).
  refine (proj2 (Hchain _ [1; 0]%float _) _).
  - repeat constructor.
  - simpl. intros (_ & H & _). discriminate.
Defined.

End ForwardFacts.

(* ================================================================= *)
(** ** MultiLayerPerceptron: predictions with reLU *)

Module RectifierFacts.

Import NetworkLayer MultiLayerPerceptron Epochs Feed Samples.
Import LayerFacts TrainFacts ActivationFacts ForwardFacts.

Local Unset Implicit Arguments.

Lemma outputs_reLU (L : NetworkLayer.t) (inputs : list float) :
  Forall (fun x => PrimFloat.is_nan x = false /\ (0 <=? x)%float = true)
         (outputs L inputs Utils.reLU).
Proof.
  unfold outputs. apply Forall_forall. intros x Hx. apply in_map_iff in Hx.
  destruct Hx as (i & <- & _). apply reLU_range.
Qed.

Lemma feed_reLU : forall ls inputs out,
  In out (feed Utils.reLU ls inputs) ->
  Forall (fun x => PrimFloat.is_nan x = false /\ (0 <=? x)%float = true) out.
Proof.
  induction ls as [|L rest IH]; intros inputs out H; simpl in H; [contradiction |].
  destruct H as [<- | H]; [apply outputs_reLU | eapply IH; exact H].
Qed.

Lemma activated_nth : forall ls outs i L',
  length outs = length ls ->
  nth_error (activated ls outs) i = Some L' ->
  exists out, nth_error outs i = Some out /\ activations L' = out.
Proof.
  induction ls as [|L rest IH]; intros [|out outs] i L' Hlen H; simpl in *;
    try discriminate; try (destruct i; discriminate).
  destruct i as [|i]; simpl in *.
  - injection H as <-. now exists out.
  - apply (IH outs i L'); [lia | exact H].
Qed.

(** X20.  With [reLU], the default activation function, [#predict] never
    returns NaN or a number below zero, whatever the weights, the biases and
    the input hold, NaN included: every activation it stores and every
    prediction of a network of at least one layer is a number that is not
    below zero. *)
Theorem reLU_network_hides_nan (net : MultiLayerPerceptron.t) (inputs : list float) :
  Forall NetworkLayer.wf (layers net) ->
  activationFunction net = Utils.reLU ->
  layers net <> [] ->
  forall net' out,
    predict net inputs = (net', JS.Return out) ->
    Forall (fun x => PrimFloat.is_nan x = false /\ (0 <=? x)%float = true) out /\
    Forall (fun L =>
              Forall (fun x => PrimFloat.is_nan x = false /\ (0 <=? x)%float = true)
                     (activations L))
           (layers net').
Proof.
  intros _ Hf Hne net' out Hp.
  assert (Hc : chained (length inputs) (layers net)).
  { unfold predict in Hp.
    destruct (forward (activationFunction net) (layers net) inputs) as [ls r] eqn:E.
    injection Hp as _ ->.
    eapply forward_returns_chained. rewrite E. reflexivity. }
  unfold predict in Hp. rewrite forward_feed in Hp by exact Hc.
  rewrite Hf in Hp. injection Hp as <- <-. split.
  - apply (feed_reLU (layers net) inputs).
    destruct (feed Utils.reLU (layers net) inputs) as [|o os] eqn:E.
    + apply (f_equal (@length _)) in E. rewrite feed_length in E.
      destruct (layers net); [congruence | discriminate].
    + rewrite <- E. destruct (exists_last (l := o :: os) ltac:(discriminate))
        as (front & lst & El).
      rewrite E, El, last_last. apply in_or_app. right. now left.
  - cbn [layers with_layers]. apply Forall_forall. intros L' HL'.
    apply In_nth_error in HL'. destruct HL' as [i HL'].
    destruct (activated_nth (layers net) _ i L' (feed_length _ _ _) HL')
      as (o & Ho & ->).
    apply (feed_reLU (layers net) inputs). eapply nth_error_In. exact Ho.
Qed.

Lemma reLU_network_hides_nan_witness :
  snd (predict sample_net [nan; 0]%float) = JS.Return [0.5]%float /\
  Forall (fun x => PrimFloat.is_nan x = false /\ (0 <=? x)%float = true) [0.5]%float.
Proof.
  split; [reflexivity |].
  apply (reLU_network_hides_nan sample_net [nan; 0]%float
           BackwardFacts.sample_net_wf eq_refl ltac:(discriminate)
           (fst (predict sample_net [nan; 0]%float)) [0.5]%float eq_refl).
Defined.

End RectifierFacts.

(* ================================================================= *)
(** ** MultiLayerPerceptron: the first layer *)

Module FrozenFacts.

Import NetworkLayer MultiLayerPerceptron BackwardSweep Epochs Parameters Samples.
Import LayerFacts BackwardFacts TrainFacts NumberFacts.

Local Unset Implicit Arguments.

Lemma predict_first net inputs :
  first_parameters (fst (predict net inputs)) = first_parameters net.
Proof.
  unfold first_parameters, predict.
  destruct (layers net) as [|L rest]; [reflexivity |].
  cbn [forward]. unfold activate.
  destruct (negb (length inputs =? numInputs L)); [reflexivity |].
  destruct (forward (activationFunction net) rest _) as [rest' r]. reflexivity.
Qed.

Lemma backpropagate_first net targets predictions :
  first_parameters (backpropagate net targets predictions) = first_parameters net.
Proof.
  unfold first_parameters. rewrite backpropagate_layers_are_swept.
  now destruct (layers net).
Qed.

Lemma run_samples_first : forall data net total,
  first_parameters (fst (run_samples net data total)) = first_parameters net.
Proof.
  induction data as [|s rest IH]; intros net total; [reflexivity |].
  cbn [run_samples].
  pose proof (predict_first net (inputs s)) as Hp.
  destruct (predict net (inputs s)) as [net1 [predictions | e]]; simpl in Hp;
    [| exact Hp].
  now rewrite IH, backpropagate_first.
Qed.

Lemma train_from_first (C : Type) (cb : option (callback C)) (data : list sample) :
  forall remaining iteration net st calls,
    first_parameters (network (train_from cb data remaining iteration net st calls))
    = first_parameters net.
Proof.
  induction remaining as [|n IH]; intros iteration net st calls; [reflexivity |].
  cbn [train_from].
  pose proof (run_samples_first data net 0%float) as Hr.
  destruct (run_samples net data 0%float) as [net' [totalError | e]]; simpl in Hr;
    [| exact Hr].
  destruct (call cb st iteration _) as [[|] st']; [exact Hr |].
  now rewrite IH.
Qed.

Lemma train_from_shape (C : Type) (cb : option (callback C)) (data : list sample) :
  forall remaining iteration net st calls,
    map shape (layers (network (train_from cb data remaining iteration net st calls)))
    = map shape (layers net).
Proof.
  induction remaining as [|n IH]; intros iteration net st calls; [reflexivity |].
  cbn [train_from].
  pose proof (run_samples_shape data net 0%float) as Hr.
  destruct (run_samples net data 0%float) as [net' [totalError | e]]; simpl in Hr;
    [| exact Hr].
  destruct (call cb st iteration _) as [[|] st']; [exact Hr |].
  now rewrite IH.
Qed.

(** X21.  [train] never changes the first layer but for its activations: its
    weights, its biases, its sizes and its gradients are after the run what
    they were before it, whatever the samples, the number of epochs and the
    callback, and whether the run returns or throws.  The number of layers
    and their sizes do not change either.  In particular a network of one
    layer keeps its weights and biases. *)
Theorem first_layer_is_frozen
        (C : Type) (cb : option (callback C)) (net : MultiLayerPerceptron.t)
        (trainingData : list sample) (epochs : nat) (st : C) :
  Forall NetworkLayer.wf (layers net) ->
  let net' := network (train net trainingData epochs cb st) in
  option_map parameters (hd_error (layers net'))
  = option_map parameters (hd_error (layers net)) /\
  map shape (layers net') = map shape (layers net) /\
  (forall L, layers net = [L] ->
     exists L', layers net' = [L'] /\ weights L' = weights L /\ biases L' = biases L).
Proof.
  intros _ net'.
  assert (Hf : first_parameters net' = first_parameters net)
    by apply train_from_first.
  assert (Hs : map shape (layers net') = map shape (layers net))
    by apply train_from_shape.
  split; [exact Hf |]. split; [exact Hs |].
  intros L HL. unfold first_parameters in Hf. rewrite HL in Hf, Hs.
  destruct (layers net') as [|L' [|L'' rest]]; try discriminate.
  exists L'. split; [reflexivity |].
  simpl in Hf. unfold parameters in Hf. injection Hf as _ _ Hw Hb _.
  now split.
Qed.

Lemma first_layer_is_frozen_witness :
  option_map parameters
    (hd_error (layers (network (train sample_net sample_data 3 None tt))))
  = Some (2, 2, [[1; 0]; [0; 1]]%float, [0; 0]%float, []).
Proof.
  destruct (first_layer_is_frozen unit None sample_net sample_data 3 tt
              BackwardFacts.sample_net_wf) as (Hfirst & _).
  rewrite Hfirst. reflexivity.
Defined.

End FrozenFacts.

(* ================================================================= *)
(** ** MultiLayerPerceptron: epochs *)

Module EpochFacts.

Import NetworkLayer MultiLayerPerceptron BackwardSweep Epochs Samples.
Import LayerFacts BackwardFacts TrainFacts NumberFacts.

Local Unset Implicit Arguments.

Lemma train_from_without_samples (C : Type) (cb : option (callback C)) :
  forall remaining iteration net st calls,
    let r := train_from cb [] remaining iteration net st calls in
    network r = net /\ completion r = JS.Return tt /\
    exists new,
      cb_calls r = calls ++ new /\
      length new <= remaining /\
      new = map (fun i => (i, nan)) (seq iteration (length new)) /\
      match cb with
      | None => cb_state r = st /\ length new = remaining
      | Some f =>
          snd (answers f st new) = cb_state r /\
          ((fst (answers f st new) = repeat false (length new) /\
            length new = remaining) \/
           (exists k, length new = S k /\
                      fst (answers f st new) = repeat false k ++ [true]))
      end.
Proof.
  induction remaining as [|n IH]; intros iteration net st calls r.
  - repeat split. exists []. rewrite app_nil_r. repeat split; auto.
    destruct cb as [f |]; simpl; repeat split; auto.
  - unfold r. cbn [train_from run_samples length].
    change (0 / JS.of_nat 0)%float with nan.
    destruct (call cb st iteration nan) as [[|] st'] eqn:Ec.
    + cbn. repeat split. exists [(iteration, nan)].
      repeat split; [simpl; lia |].
      destruct cb as [f |]; simpl in Ec; [| discriminate].
      simpl. rewrite Ec. simpl. split; [reflexivity |]. right. now exists 0.
    + destruct (IH (S iteration) net st' (calls ++ [(iteration, nan)]))
        as (Hn & Hc & new & Hcalls & Hlen & Hnew & Hcb).
      split; [exact Hn |]. split; [exact Hc |].
      exists ((iteration, nan) :: new).
      split; [now rewrite Hcalls, <- app_assoc |].
      split; [simpl; lia |].
      split; [cbn [length seq map]; now rewrite <- Hnew |].
      destruct cb as [f |]; simpl in Ec.
      * simpl. rewrite Ec.
        destruct (answers f st' new) as [bs st''] eqn:Ea. simpl in *.
        destruct Hcb as [Hst Hv]. split; [exact Hst |].
        destruct Hv as [(Hv & Hl) | (k & Hk & Hv)].
        -- left. split; [now rewrite Hv | lia].
        -- right. exists (S k). split; [lia | now rewrite Hv].
      * injection Ec as <-. destruct Hcb as [Hst Hl]. split; [exact Hst | simpl; lia].
Qed.

(** X22.  Trained on no sample, the network does not change and the run
    returns; the callback is called once per epoch, with the epoch's number
    and NaN as the mean loss, until it answers with a truthy value or the
    epochs are over: the callback [onEpoch], called in a row on these epochs
    from the state it was given, answered the last call with a truthy value,
    or it answered every call with a falsy value and was called [epochs]
    times.  Without a callback the run goes through its [epochs] epochs. *)
Theorem train_without_samples
        (C : Type) (cb : option (callback C)) (net : MultiLayerPerceptron.t)
        (epochs : nat) (st : C) :
  let r := train net [] epochs cb st in
  let n := length (cb_calls r) in
  network r = net /\
  completion r = JS.Return tt /\
  n <= epochs /\
  cb_calls r = map (fun i => (i, nan)) (seq 1 n) /\
  match cb with
  | None => cb_state r = st /\ n = epochs
  | Some onEpoch =>
      snd (answers onEpoch st (cb_calls r)) = cb_state r /\
      ((fst (answers onEpoch st (cb_calls r)) = repeat false n /\ n = epochs) \/
       (exists k, n = S k /\
                  fst (answers onEpoch st (cb_calls r)) = repeat false k ++ [true]))
  end.
Proof.
  intros r n.
  destruct (train_from_without_samples C cb epochs 1 net st [])
    as (Hn & Hc & new & Hcalls & Hlen & Hnew & Hcb).
  fold (train net [] epochs cb st) in Hn, Hc, Hcalls, Hcb. fold r in Hn, Hc, Hcalls, Hcb.
  simpl in Hcalls. unfold n. rewrite Hcalls.
  split; [exact Hn |]. split; [exact Hc |]. split; [exact Hlen |].
  split; [exact Hnew |].
  destruct cb as [onEpoch |]; exact Hcb.
Qed.

Lemma train_without_samples_witness :
  let onEpoch := fun (count iteration : nat) (_ : float) => (2 <=? iteration, S count) in
  let r := train sample_net [] 5 (Some onEpoch) 0 in
  network r = sample_net /\ cb_calls r = [(1, nan); (2, nan)] /\ cb_state r = 2.
Proof.
  intros onEpoch r.
  destruct (train_without_samples nat (Some onEpoch) sample_net 5 0)
    as (Hn & _ & _ & Hcalls & Hst & _).
  fold r in Hn, Hcalls, Hst.
  split; [exact Hn |]. split.
  - rewrite Hcalls. now vm_compute.
  - rewrite <- Hst. now vm_compute.
Defined.

(** Without a callback the network and the ending of a run do not depend
    on the number of the first epoch or on the calls recorded before. *)
Lemma train_from_omitted (C : Type) (data : list sample) :
  forall remaining iteration iteration' net (st st' : C) calls calls',
    let r := train_from None data remaining iteration net st calls in
    let r' := train_from None data remaining iteration' net st' calls' in
    network r = network r' /\ completion r = completion r'.
Proof.
  induction remaining as [|n IH]; intros iteration iteration' net st st' calls calls';
    [now split |].
  cbn [train_from].
  destruct (run_samples net data 0%float) as [net' [totalError | e]]; [| now split].
  cbn [call]. apply IH.
Qed.

Lemma train_from_compose (C : Type) (data : list sample) :
  forall m n iteration net (st : C) calls,
    let first := train_from None data m iteration net st calls in
    completion first = JS.Return tt ->
    train_from None data (m + n) iteration net st calls
    = train_from None data n (iteration + m) (network first) st (cb_calls first).
Proof.
  induction m as [|m IH]; intros n iteration net st calls first H.
  - unfold first. cbn. now rewrite Nat.add_0_r.
  - unfold first in *. cbn [train_from Nat.add] in *.
    destruct (run_samples net data 0%float) as [net' [totalError | e]];
      [| discriminate].
    cbn [call] in *. rewrite (IH n (S iteration) net' st _ H).
    now rewrite Nat.add_succ_r.
Qed.

(** X26.  Without a callback, training for [m] epochs and then for [n]
    more leaves the network that training for [m + n] epochs leaves, and
    ends as it does, provided the first run returns. *)
Theorem epochs_compose
        (C : Type) (net : MultiLayerPerceptron.t) (trainingData : list sample)
        (m n : nat) (st : C) :
  Forall NetworkLayer.wf (layers net) ->
  let first := train net trainingData m None st in
  completion first = JS.Return tt ->
  network (train (network first) trainingData n None st)
  = network (train net trainingData (m + n) None st) /\
  completion (train (network first) trainingData n None st)
  = completion (train net trainingData (m + n) None st).
Proof.
  intros _ first H. unfold train.
  rewrite (train_from_compose C trainingData m n 1 net st [] H).
  apply train_from_omitted.
Qed.

Lemma epochs_compose_witness :
  network (train (network (train sample_net sample_data 2 None tt)) sample_data 3 None tt)
  = network (train sample_net sample_data 5 None tt).
Proof.
  destruct (epochs_compose unit sample_net sample_data 2 3 tt
              BackwardFacts.sample_net_wf eq_refl) as [Hn _].
  exact Hn.
Defined.

End EpochFacts.

(* ================================================================= *)
(** ** MultiLayerPerceptron: missing targets *)

Module TargetFacts.

Import NetworkLayer MultiLayerPerceptron BackwardSweep Epochs Samples.
Import LayerFacts BackwardFacts TrainFacts NumberFacts.

Local Unset Implicit Arguments.



End TargetFacts.

(* ================================================================= *)
(** ** MultiLayerPerceptron: neurons that are not updated *)

Module StationaryFacts.

Import NetworkLayer MultiLayerPerceptron BackwardSweep Epochs Samples.
Import LayerFacts BackwardFacts TrainFacts NumberFacts Signs ArithmeticFacts.

Local Unset Implicit Arguments.

Lemma derivative_of_zero (a : float) :
  PrimFloat.is_zero a = true -> PrimFloat.is_zero (derivative a) = true.
Proof.
  intros H. apply is_zero_spec in H. destruct H as [s H].
  assert (Ha : a = 0%float \/ a = (-0)%float).
  { destruct s; [right | left]; apply Prim2SF_inj; rewrite H; reflexivity. }
  destruct Ha as [-> | ->]; reflexivity.
Qed.

(** X24.  A neuron of a layer other than the first whose new gradient is a
    zero is left as it was by [#backpropagate]: with a finite learning rate,
    its bias and each of its weights that takes a finite activation of the
    layer before keep their values.  In the last layer the gradient of a
    neuron is a zero when its target and its prediction are the same finite
    number, and when its activation is 0 or 1, provided the other factor is
    finite. *)
Theorem zero_gradient_keeps_neuron
        (net : MultiLayerPerceptron.t) (targets predictions : list float)
        (i : nat) (prev cur : NetworkLayer.t) (j : nat) :
  Forall NetworkLayer.wf (layers net) ->
  0 < i ->
  nth_error (layers net) (i - 1) = Some prev ->
  nth_error (layers net) i = Some cur ->
  j < numNeurons cur ->
  PrimFloat.is_finite (learningRate net) = true ->
  exists cur',
    nth_error (layers (backpropagate net targets predictions)) i = Some cur' /\
    (PrimFloat.is_zero (JS.get (NetworkLayer.gradients cur') j) = true ->
     (PrimFloat.is_nan (JS.get (biases cur) j) = false ->
      (JS.get (biases cur') j =? JS.get (biases cur) j)%float = true) /\
     (forall k, k < numNeurons prev ->
        PrimFloat.is_finite (JS.get (activations prev) k) = true ->
        PrimFloat.is_nan (JS.get (nth j (weights cur) []) k) = false ->
        (JS.get (nth j (weights cur') []) k =? JS.get (nth j (weights cur) []) k)%float
        = true)) /\
    (i = length (layers net) - 1 ->
     let a := JS.get (activations cur) j in
     let t := JS.get targets j in
     let p := JS.get predictions j in
     (t = p /\ PrimFloat.is_finite t = true /\
      PrimFloat.is_finite (a * (1 - a)) = true) \/
     ((PrimFloat.is_zero a = true \/ a = 1%float) /\
      PrimFloat.is_finite (t - p) = true) ->
     PrimFloat.is_zero (JS.get (NetworkLayer.gradients cur') j) = true).
Proof.
  intros Hwf Hi Hprev Hcur Hj Hlr.
  destruct (swept_layer net targets predictions Hi Hcur) as (prev0 & Hp0 & Hs).
  assert (prev0 = prev) by congruence. subst prev0.
  set (ls' := layers (backpropagate net targets predictions)) in *.
  set (g := match nth_error ls' (S i) with
            | Some next => hidden_gradients cur next
            | None => output_gradients cur targets predictions
            end) in *.
  destruct (update_layer_spec (learningRate net) g prev cur)
    as (_ & _ & _ & Hgr & _ & Hw & Hb).
  assert (Hrows : length (weights cur) = numNeurons cur).
  { assert (Hin : In cur (layers net)) by (eapply nth_error_In; exact Hcur).
    rewrite Forall_forall in Hwf. now destruct (Hwf cur Hin). }
  eexists. split; [exact Hs |]. rewrite Hgr. split.
  - intros Hz.
    assert (Hstep : PrimFloat.is_zero (learningRate net * JS.get g j) = true).
    { now apply (mul_zero (JS.get g j) (learningRate net)). }
    split.
    + intros Hbias. rewrite Hb by exact Hj. now apply add_zero.
    + intros k Hk Hact Hweight.
      rewrite Hw by (exact Hj || lia || exact Hk).
      apply add_zero; [| exact Hweight].
      now apply (mul_zero (learningRate net * JS.get g j) (JS.get (activations prev) k)).
  - intros Hlast a t p Hcases.
    assert (Hlen : length ls' = length (layers net)).
    { unfold ls'. rewrite backpropagate_layers_are_swept. apply sweep_all_length. }
    assert (Hnone : nth_error ls' (S i) = None) by (apply nth_error_None; lia).
    unfold g. rewrite Hnone. unfold output_gradients.
    rewrite (ArrayFacts.get_map_seq
               (fun j => ((JS.get targets j - JS.get predictions j)
                          * derivative (JS.get (activations cur) j))%float))
      by exact Hj.
    fold a t p. unfold derivative.
    destruct Hcases as [(Heq & Hfin & Hd) | (Ha & Hfin)].
    + rewrite <- Heq, sub_self by exact Hfin.
      now apply (mul_zero 0%float (a * (1 - a))%float).
    + assert (Hd : PrimFloat.is_zero (a * (1 - a)) = true).
      { destruct Ha as [Ha | ->]; [now apply derivative_of_zero | reflexivity]. }
      now apply (mul_zero (a * (1 - a))%float (t - p)%float).
Qed.

Lemma zero_gradient_keeps_neuron_witness :
  exists cur',
    nth_error (layers (backpropagate sample_net [0.75]%float [0.75]%float)) 1
    = Some cur' /\
    (JS.get (biases cur') 0 =? 0.5)%float = true /\
    (JS.get (nth 0 (weights cur') []) 1 =? -1)%float = true.
Proof.
  destruct (zero_gradient_keeps_neuron sample_net [0.75]%float [0.75]%float 1
              (NetworkLayer.mk 2 2 [[1; 0]; [0; 1]]%float [0; 0]%float [0.5; 0.25]%float [])
              (NetworkLayer.mk 1 2 [[1; -1]]%float [0.5]%float [0.75]%float [])
              0 BackwardFacts.sample_net_wf)
    as (cur' & Hcur & Hkeep & Hzero);
    [lia | reflexivity | reflexivity | simpl; lia | reflexivity |].
  assert (Hz : PrimFloat.is_zero (JS.get (NetworkLayer.gradients cur') 0) = true).
  { apply Hzero; [reflexivity |]. left. repeat split; reflexivity. }
  destruct (Hkeep Hz) as [Hb Hw].
  exists cur'. split; [exact Hcur |]. split.
  - apply Hb. reflexivity.
  - apply (Hw 1); [simpl; lia | reflexivity | reflexivity].
Defined.

End StationaryFacts.

(* ================================================================= *)
(** ** The signs of losses and distances *)

Module RangeFacts.

Import Utils NetworkLayer MultiLayerPerceptron Samples.
Import NumberFacts Signs ArithmeticFacts SumFacts LossFacts DistanceFacts TrainFacts.

Local Unset Implicit Arguments.

Lemma sum_not_negative (g : nat -> float) : forall keys carry,
  not_negative (Prim2SF carry) ->
  (forall key, not_negative (Prim2SF (g key))) ->
  not_negative (Prim2SF (fold_left (fun carry key => (carry + g key)%float) keys carry)).
Proof.
  induction keys as [|key rest IH]; intros carry Hc Hg; simpl; [exact Hc |].
  apply IH; [| exact Hg]. now apply add_not_negative.
Qed.

Lemma mse_not_negative (predictions targets : list float) :
  not_negative (Prim2SF (mse predictions targets)).
Proof.
  rewrite mse_sum. apply div_by_count.
  apply (sum_not_negative
           (fun key => pow2 (JS.get targets key - JS.get predictions key)%float)).
  - apply zero_not_negative.
  - intros key. apply square_not_negative.
Qed.

Lemma predict_errorFunction net inputs :
  errorFunction (fst (predict net inputs)) = errorFunction net.
Proof.
  unfold predict.
  now destruct (forward (activationFunction net) (layers net) inputs).
Qed.

Lemma run_samples_total : forall data net total,
  errorFunction net = mse ->
  not_negative (Prim2SF total) ->
  errorFunction (fst (run_samples net data total)) = mse /\
  forall t, snd (run_samples net data total) = JS.Return t -> not_negative (Prim2SF t).
Proof.
  induction data as [|s rest IH]; intros net total He Ht; cbn [run_samples].
  - split; [exact He |]. intros t H. simpl in H. now injection H as <-.
  - pose proof (predict_errorFunction net (inputs s)) as Hp.
    destruct (predict net (inputs s)) as [net1 [predictions | e]]; simpl in Hp.
    + apply IH.
      * simpl. congruence.
      * apply add_not_negative; [exact Ht |].
        unfold computeError. rewrite Hp, He. apply mse_not_negative.
    + split; [simpl; congruence | discriminate].
Qed.

Lemma train_from_losses (C : Type) (cb : option (callback C)) (data : list sample) :
  forall remaining iteration net st calls,
    errorFunction net = mse ->
    Forall (fun call => (snd call <? 0)%float = false) calls ->
    Forall (fun call => (snd call <? 0)%float = false)
           (cb_calls (train_from cb data remaining iteration net st calls)).
Proof.
  induction remaining as [|n IH]; intros iteration net st calls He Hc; [exact Hc |].
  cbn [train_from].
  destruct (run_samples_total data net 0%float He zero_not_negative) as [He' Ht].
  destruct (run_samples net data 0%float) as [net' [totalError | e]];
    simpl in He', Ht; [| exact Hc].
  assert (Hcalls : Forall (fun call => (snd call <? 0)%float = false)
                          (calls ++ [(iteration,
                                      (totalError / JS.of_nat (length data))%float)])).
  { apply Forall_app. split; [exact Hc |]. constructor; [| constructor].
    simpl. apply not_negative_ltb, div_by_count. now apply Ht. }
  destruct (call cb st iteration _) as [[|] st']; [exact Hcalls |].
  now apply IH.
Qed.

(** X25.  Neither [mse] nor [euclideanDistance] ever returns a number below
    zero: each returns NaN, a zero or a number above zero.  Hence, when the
    error function of a network is [mse], no mean loss that [train] passes
    to the callback is below zero. *)
Theorem losses_are_never_negative :
  (forall predictions targets, (mse predictions targets <? 0)%float = false) /\
  (forall a b, (euclideanDistance a b <? 0)%float = false) /\
  (forall (C : Type) (cb : option (callback C)) net trainingData epochs st,
     Forall NetworkLayer.wf (layers net) ->
     errorFunction net = mse ->
     Forall (fun call => (snd call <? 0)%float = false)
            (cb_calls (train net trainingData epochs cb st))).
Proof.
  split; [| split].
  - intros predictions targets. apply not_negative_ltb, mse_not_negative.
  - intros a b. apply not_negative_ltb, distance_not_negative.
  - intros C cb net trainingData epochs st _ He.
    apply train_from_losses; [exact He | constructor].
Qed.

Lemma losses_are_never_negative_witness :
  Forall (fun call => (snd call <? 0)%float = false)
         (cb_calls (train sample_net sample_data 2 None tt)).
Proof.
  destruct losses_are_never_negative as (_ & _ & Htrain).
  apply Htrain; [exact BackwardFacts.sample_net_wf | reflexivity].
Defined.

End RangeFacts.
